(** * qlearn: signal generators, simulation setups and run management

  A shallow embedding of the Python sources

    - [core/generators.py]       (edge detectors and signal generators),
    - [simulation/multisim.py]   (setup recognition and signal resolution),
    - [simulation/management.py] (index of stored simulation runs),

  followed by the properties established for them.

  Conventions.  A pandas timestamp is its integer nanosecond count ([Z]);
  a float is an IEEE-754 binary64 value, taken from the Standard Library's
  executable specification of floats ([spec_float]); a Python [dict] is an
  association list in insertion order with unique keys; a Python exception
  is an [Error] result. *)

From Stdlib Require Import ZArith List Bool String Ascii Lia Sorted FinFun.
From Stdlib Require Import SpecFloat DecimalString.
Import ListNotations.

Local Open Scope Z_scope.

(* ================================================================== *)
(** * Results of fallible Python code *)

Inductive exn : Type :=
| ValueError
| IndexError
| KeyError
| AttributeError.

Inductive result (A : Type) : Type :=
| Ok (a : A)
| Error (e : exn).

Arguments Ok {A} a.
Arguments Error {A} e.

Definition bind {A B : Type} (r : result A) (k : A -> result B) : result B :=
  match r with
  | Ok a => k a
  | Error e => Error e
  end.

Notation "x <- r ;; k" := (bind r (fun x => k))
  (at level 61, r at next level, right associativity).

(* ================================================================== *)
(** * Python dictionaries *)

(** A [dict] keeps its items in insertion order; assigning to a key that is
    present replaces the value in place, assigning to a new key appends. *)
Module Dict.
Section Ops.

Context {K V : Type}.
Variable eqb : K -> K -> bool.

Fixpoint get (k : K) (d : list (K * V)) : option V :=
  match d with
  | [] => None
  | (k', v) :: d' => if eqb k' k then Some v else get k d'
  end.

Fixpoint set (k : K) (v : V) (d : list (K * V)) : list (K * V) :=
  match d with
  | [] => [(k, v)]
  | (k', v') :: d' => if eqb k' k then (k', v) :: d' else (k', v') :: set k v d'
  end.

Definition keys (d : list (K * V)) : list K := map fst d.

Definition mem (k : K) (d : list (K * V)) : bool :=
  match get k d with
  | Some _ => true
  | None => false
  end.

End Ops.
End Dict.

(** Stable insertion sort of items by an integer key. *)
Fixpoint insert_keyed {V : Type} (e : Z * V) (l : list (Z * V)) : list (Z * V) :=
  match l with
  | [] => [e]
  | h :: l' => if fst e <=? fst h then e :: l else h :: insert_keyed e l'
  end.

Definition sort_keyed {V : Type} (l : list (Z * V)) : list (Z * V) :=
  fold_right insert_keyed [] l.

(* ================================================================== *)
(** * Floats *)

(** A binary64 value is a [spec_float]: a signed zero, a signed infinity,
    NaN, or a sign, a mantissa and an exponent.  Comparison and addition are
    the ones of the Standard Library's specification; the properties below
    use nothing but the comparison, and hold of every [spec_float]. *)
Module Float64.

Definition float64 : Type := spec_float.

Definition prec : Z := 53.
Definition emax : Z := 1024.

Definition nan : float64 := S754_nan.
Definition zero : float64 := S754_zero false.
(** Literals in canonical binary64 form: [0.5], [1], [0.3] (the nearest
    binary64 value) and [1.5]. *)
Definition half : float64 := S754_finite false 4503599627370496 (-53).
Definition one : float64 := S754_finite false 4503599627370496 (-52).
Definition three_tenths : float64 := S754_finite false 5404319552844595 (-54).
Definition three_halves : float64 := S754_finite false 6755399441055744 (-52).

Definition add : float64 -> float64 -> float64 := SFadd prec emax.
Definition sub : float64 -> float64 -> float64 := SFsub prec emax.

(** Python's [a < b], [a <= b], [a > b], [a >= b] on floats. *)
Definition lt (a b : float64) : bool := SFltb a b.
Definition le (a b : float64) : bool := SFleb a b.
Definition gt (a b : float64) : bool := SFltb b a.
Definition ge (a b : float64) : bool := SFleb b a.

(** The order of IEEE-754 values; nothing is ordered with NaN. *)
Definition at_most (a b : float64) : Prop :=
  SFcompare a b = Some Lt \/ SFcompare a b = Some Eq.
Definition at_least (a b : float64) : Prop :=
  SFcompare a b = Some Gt \/ SFcompare a b = Some Eq.
Definition exceeds (a b : float64) : Prop :=
  SFcompare a b = Some Gt.

(** Further arithmetic: [a * b], [a / b], [-a], and [float(n)] for an int. *)
Definition mul : float64 -> float64 -> float64 := SFmul prec emax.
Definition div : float64 -> float64 -> float64 := SFdiv prec emax.
Definition opp : float64 -> float64 := SFopp.
Definition of_int (n : Z) : float64 := binary_normalize prec emax n 0 false.

End Float64.
Import Float64.

(* ================================================================== *)
(** * The fragment of pandas used by the generators *)

Module Pandas.

Definition timestamp : Type := Z.

(** A [pd.Series]: labelled values, in positional order. *)
Definition Series (A : Type) : Type := list (timestamp * A).

Definition index {A} (s : Series A) : list timestamp := map fst s.
Definition values {A} (s : Series A) : list A := map snd s.

Fixpoint index_eqb (a b : list timestamp) : bool :=
  match a, b with
  | [], [] => true
  | i :: a', j :: b' => (i =? j) && index_eqb a' b'
  | _, _ => false
  end.

(** [s.shift(1)]: every value moves one position down, the labels stay,
    and the first position receives the filler (NaN for floats). *)
Fixpoint shift_from {A} (prev : A) (s : Series A) : Series A :=
  match s with
  | [] => []
  | (i, v) :: s' => (i, prev) :: shift_from v s'
  end.

Definition shift1 (s : Series float64) : Series float64 := shift_from nan s.

(** Element-wise operation of a series with a scalar. *)
Definition map_values {A B} (f : A -> B) (s : Series A) : Series B :=
  map (fun iv => (fst iv, f (snd iv))) s.

(** Element-wise operation of two series.  pandas refuses to compare
    series that are not identically labelled ([ValueError]); every series
    combined below is derived from one frame, so the label check is also
    the alignment of the arithmetic and logical operators. *)
Definition zip_pure {A B C} (f : A -> B -> C) (a : Series A) (b : Series B)
  : Series C :=
  map (fun ab => (fst (fst ab), f (snd (fst ab)) (snd (snd ab)))) (combine a b).

Definition zip_values {A B C} (f : A -> B -> C) (a : Series A) (b : Series B)
  : result (Series C) :=
  if index_eqb (index a) (index b)
  then Ok (zip_pure f a b)
  else Error ValueError.

(** The right operand of a comparison: a float or a series. *)
Inductive operand : Type :=
| Scalar (c : float64)
| Ser (s : Series float64).

Definition compare (op : float64 -> float64 -> bool)
           (x : Series float64) (t : operand) : result (Series bool) :=
  match t with
  | Scalar c => Ok (map_values (fun v => op v c) x)
  | Ser s => zip_values op x s
  end.

Definition and_ (a b : Series bool) : result (Series bool) :=
  zip_values andb a b.
Definition or_ (a b : Series bool) : result (Series bool) :=
  zip_values orb a b.
Definition not_ (a : Series bool) : Series bool := map_values negb a.

(** [x[mask]]: the rows of [x] at which the boolean mask holds. *)
Definition select {A} (x : Series A) (mask : Series bool) : result (Series A) :=
  r <- zip_values (fun v (m : bool) => (v, m)) x mask ;;
  Ok (map_values fst (filter (fun ivm => snd (snd ivm)) r)).

End Pandas.
Import Pandas.

(* ================================================================== *)
(** * core/generators.py *)

Module Generators.

(** [crossup(x, t)] *)
Definition crossup (x : Series float64) (t : operand) : result (list timestamp) :=
  let t1 := match t with
            | Ser s => Ser (shift1 s)
            | Scalar c => Scalar c
            end in
  a <- compare gt x t ;;
  b <- compare le (shift1 x) t1 ;;
  m <- and_ a b ;;
  r <- select x m ;;
  Ok (index r).

(** [crossdown(x, t)] *)
Definition crossdown (x : Series float64) (t : operand) : result (list timestamp) :=
  let t1 := match t with
            | Ser s => Ser (shift1 s)
            | Scalar c => Scalar c
            end in
  a <- compare lt x t ;;
  b <- compare ge (shift1 x) t1 ;;
  m <- and_ a b ;;
  r <- select x m ;;
  Ok (index r).

(** Both detectors read position by position: [now] compares the current
    sample with the current threshold, [prev] the previous sample [px] with
    the previous threshold [pt]. *)
Fixpoint cross_scan (now prev : float64 -> float64 -> bool) (px pt : float64)
         (x : Series float64) (t : list float64) : list timestamp :=
  match x, t with
  | (i, v) :: x', c :: t' =>
      (if now v c && prev px pt then [i] else []) ++ cross_scan now prev v c x' t'
  | _, _ => []
  end.

(** ** RangeBreakoutDetector *)

(** A row of the frame given to the detector in OHLC mode. *)
Record ohlc : Type := mk_ohlc {
  RangeTop : float64;
  RangeBot : float64;
  open : float64;
  high : float64;
  low : float64;
  close : float64
}.

Definition Frame : Type := Series ohlc.

(** [X.name]: one column of the frame, labelled as the frame. *)
Definition column (f : ohlc -> float64) (X : Frame) : Series float64 :=
  map_values f X.

(** [pd.Series(v, idx)]: the constant event series on the labels [idx]. *)
Definition const_series (v : Z) (idx : list timestamp) : Series Z :=
  map (fun i => (i, v)) idx.

(** [idx + delta] on a [DatetimeIndex]. *)
Definition index_add (idx : list timestamp) (delta : Z) : list timestamp :=
  map (fun i => i + delta) idx.

(** Modelled from the spec: [srows] of [ira.analysis.tools], which is not
    part of the sources.  With the default policy it merges event series
    "keep-all": every event of every stream is kept, and the merged series
    is ordered by timestamp. *)
Definition srows (xs : list (Series Z)) : Series Z :=
  sort_keyed (List.concat xs).

(** Number of events of value [v] timestamped [t] in an event series. *)
Definition count_events (t : timestamp) (v : Z) (s : Series Z) : nat :=
  List.length (filter (fun e => (fst e =? t) && (snd e =? v)) s).

Record RangeBreakoutDetector : Type := mk_RangeBreakoutDetector {
  rbd_threshold : float64
}.

(** The four label selections of [_ohlc_breaks], before the pre-close shift:
    [X[l_o].index], [X[l_c & ~l_o].index], [X[s_o].index] and
    [X[s_c & ~s_o].index]. *)
Definition ohlc_streams (self : RangeBreakoutDetector) (X : Frame)
  : result (list timestamp * list timestamp * list timestamp * list timestamp) :=
  let U := map_values (fun v => add v (rbd_threshold self)) (column RangeTop X) in
  let B := map_values (fun v => sub v (rbd_threshold self)) (column RangeBot X) in
  let open_ := column open X in
  let close_ := column close X in
  let high_ := column high X in
  let low_ := column low X in
  b1_bU <- compare le (shift1 high_) (Ser (shift1 U)) ;;
  b1_aL <- compare ge (shift1 low_) (Ser (shift1 B)) ;;
  o_le_U <- compare le open_ (Ser U) ;;
  l_c1 <- or_ b1_bU o_le_U ;;
  c_gt_U <- compare gt close_ (Ser U) ;;
  l_c <- and_ l_c1 c_gt_U ;;
  o_ge_B <- compare ge open_ (Ser B) ;;
  s_c1 <- or_ b1_aL o_ge_B ;;
  c_lt_B <- compare lt close_ (Ser B) ;;
  s_c <- and_ s_c1 c_lt_B ;;
  o_gt_U <- compare gt open_ (Ser U) ;;
  l_o <- and_ b1_bU o_gt_U ;;
  o_lt_B <- compare lt open_ (Ser B) ;;
  s_o <- and_ b1_aL o_lt_B ;;
  x_lo <- select X l_o ;;
  m_lc <- and_ l_c (not_ l_o) ;;
  x_lc <- select X m_lc ;;
  x_so <- select X s_o ;;
  m_sc <- and_ s_c (not_ s_o) ;;
  x_sc <- select X m_sc ;;
  Ok (index x_lo, index x_lc, index x_so, index x_sc).

Section OhlcBreaks.

(** [pre_close_time_shift] of [qlearn.core.data_utils] is not part of the
    sources: the offset it computes from the frame is a parameter. *)
Variable pre_close_time_shift : Frame -> Z.

(** [RangeBreakoutDetector._ohlc_breaks(self, X)] *)
Definition _ohlc_breaks (self : RangeBreakoutDetector) (X : Frame)
  : result (Series Z) :=
  st <- ohlc_streams self X ;;
  let '(i_lo, i_lc, i_so, i_sc) := st in
  let pre_close := pre_close_time_shift X in
  Ok (srows [ const_series 1 i_lo;
              const_series 1 (index_add i_lc pre_close);
              const_series (-1) i_so;
              const_series (-1) (index_add i_sc pre_close) ]).

End OhlcBreaks.

(** The same selections read position by position.  [ph], [pU], [pl], [pB]
    are the previous bar's high, widened top band, low and widened bottom
    band (NaN before the first bar). *)
Definition up_band (self : RangeBreakoutDetector) (r : ohlc) : float64 :=
  add (RangeTop r) (rbd_threshold self).
Definition dn_band (self : RangeBreakoutDetector) (r : ohlc) : float64 :=
  sub (RangeBot r) (rbd_threshold self).

Definition long_open self (ph pU : float64) (r : ohlc) : bool :=
  le ph pU && gt (open r) (up_band self r).
Definition long_close self (ph pU : float64) (r : ohlc) : bool :=
  (le ph pU || le (open r) (up_band self r)) && gt (close r) (up_band self r).
Definition short_open self (pl pB : float64) (r : ohlc) : bool :=
  ge pl pB && lt (open r) (dn_band self r).
Definition short_close self (pl pB : float64) (r : ohlc) : bool :=
  (ge pl pB || ge (open r) (dn_band self r)) && lt (close r) (dn_band self r).

Fixpoint ohlc_scan (self : RangeBreakoutDetector)
         (sel : float64 -> float64 -> float64 -> float64 -> ohlc -> bool)
         (ph pU pl pB : float64) (X : Frame) : list timestamp :=
  match X with
  | [] => []
  | (i, r) :: X' =>
      (if sel ph pU pl pB r then [i] else [])
        ++ ohlc_scan self sel (high r) (up_band self r) (low r) (dn_band self r) X'
  end.


(** ** OsiMomentum and InternalBarStrength: the constructors *)

Record OsiMomentum : Type := mk_OsiMomentum {
  osi_period : Z;
  osi_smoothing : Z;
  osi_threshold : float64
}.

(** [OsiMomentum.__init__(self, period, smoothing, threshold)], for a float
    [threshold] *)
Definition OsiMomentum_init (period smoothing : Z) (threshold : float64)
  : result OsiMomentum :=
  let self := mk_OsiMomentum period smoothing threshold in
  if gt threshold one then Error ValueError else Ok self.

Record InternalBarStrength : Type := mk_InternalBarStrength {
  ibs_timeframe : string;
  ibs_threshold : float64;
  ibs_tz : string;
  ibs_exact_time : bool
}.

(** [InternalBarStrength.__init__(self, timeframe, threshold, tz)], for a
    float [threshold] *)
Definition InternalBarStrength_init (timeframe : string) (threshold : float64)
           (tz : string) : result InternalBarStrength :=
  let self := mk_InternalBarStrength timeframe threshold tz true in
  if ge threshold half || le threshold zero then Error ValueError else Ok self.

(** ** Vocabulary of the properties *)

Definition aligned (x : Series float64) (t : operand) : Prop :=
  match t with
  | Scalar _ => True
  | Ser s => index s = index x
  end.

Definition demo_series : Series float64 :=
  [(10, zero); (20, one); (30, zero); (40, half); (50, one)].

Definition pre_close_inside (X : Frame) (pc : Z) : Prop :=
  0 <= pc /\
  forall ta tb, In ta (index X) -> In tb (index X) -> ta < tb -> ta + pc < tb.

Definition bar (top bot o h l c : float64) : ohlc := mk_ohlc top bot o h l c.

Definition two : float64 := S754_finite false 4503599627370496 (-51).

(** Two daily bars under a channel [0, 1]: the second opens at 1/2 and closes at 2. *)
Definition demo_frame : Frame :=
  [ (0, bar one zero half one zero half);
    (86400, bar one zero half two half two) ].

Definition demo_detector := mk_RangeBreakoutDetector zero.

Definition demo_pre_close (X : Frame) : Z := 86100.

(** ** RangeBreakoutDetector, tick mode *)

(** A row of the frame given to the detector in tick mode. *)
Record quote : Type := mk_quote {
  tick_RangeTop : float64;
  tick_RangeBot : float64;
  ask : float64;
  bid : float64
}.

Definition TickFrame : Type := Series quote.

(** [RangeBreakoutDetector._ticks_breaks(self, X)] *)
Definition _ticks_breaks (self : RangeBreakoutDetector) (X : TickFrame)
  : result (Series Z) :=
  let U := map_values (fun v => add v (rbd_threshold self))
                      (map_values tick_RangeTop X) in
  let B := map_values (fun v => sub v (rbd_threshold self))
                      (map_values tick_RangeBot X) in
  let a := map_values ask X in
  let b := map_values bid X in
  a1 <- compare le (shift1 a) (Ser (shift1 U)) ;;
  a0 <- compare gt a (Ser U) ;;
  break_up <- and_ a1 a0 ;;
  b1 <- compare ge (shift1 b) (Ser (shift1 B)) ;;
  b0 <- compare lt b (Ser B) ;;
  break_dw <- and_ b1 b0 ;;
  x_up <- select X break_up ;;
  x_dw <- select X break_dw ;;
  Ok (srows [const_series 1 (index x_up); const_series (-1) (index x_dw)]).

(** ** Generators over an indicator series *)

Record CrossingMovings : Type := mk_CrossingMovings {
  cm_fast : Z;
  cm_slow : Z;
  cm_fast_type : string;
  cm_slow_type : string
}.

Record Rsi : Type := mk_Rsi {
  rsi_period : Z;
  rsi_upper : float64;
  rsi_lower : float64;
  rsi_smoother : string
}.

Record Equilibrium : Type := mk_Equilibrium {
  eq_period : Z;
  eq_smoother : string;
  eq_threshold : float64
}.

(** A bar of an OHLC frame without channel. *)
Record candle : Type := mk_candle {
  c_open : float64;
  c_high : float64;
  c_low : float64;
  c_close : float64
}.

(** [s.shift(2)] *)
Definition shift2 (s : Series float64) : Series float64 := shift1 (shift1 s).

(** [osi[mask].index] and the like: the labels at which a mask over the
    series itself holds. *)
Definition where_ (x : Series float64) (mask : Series bool)
  : result (list timestamp) :=
  r <- select x mask ;;
  Ok (index r).

Section Indicators.

(** The indicators come from [ira.analysis.timeseries] and pandas, which are
    not part of the sources; they are parameters, and may raise.
    [smooth(x, type, period)] and [rsi(x, period, smoother=..)] are the
    functions of these names; [outstretched c period smoothing] stands for
    the series [osi] that [OsiMomentum.predict] builds from the price column
    with rolling sums and [ema]; [deviation c smoother period] for the
    series [dK] that [Equilibrium.predict] builds with [smooth];
    [ohlc_resample(x, timeframe, resample_tz=tz)] resamples bars.  The price
    column [x[self.market_info_.column]] is given as the series [price]. *)
Variable smooth : Series float64 -> string -> Z -> result (Series float64).
Variable rsi : Series float64 -> Z -> string -> result (Series float64).
Variable outstretched : Series float64 -> Z -> Z -> result (Series float64).
Variable deviation : Series float64 -> string -> Z -> result (Series float64).
Variable ohlc_resample : Series candle -> string -> string -> result (Series candle).

(** [CrossingMovings.predict(self, x)] *)
Definition CrossingMovings_predict (self : CrossingMovings) (price : Series float64)
  : result (Series Z) :=
  fast_ma <- smooth price (cm_fast_type self) (cm_fast self) ;;
  slow_ma <- smooth price (cm_slow_type self) (cm_slow self) ;;
  up <- crossup fast_ma (Ser slow_ma) ;;
  dn <- crossdown fast_ma (Ser slow_ma) ;;
  Ok (srows [const_series 1 up; const_series (-1) dn]).

(** [Rsi.predict(self, x)] *)
Definition Rsi_predict (self : Rsi) (price : Series float64) : result (Series Z) :=
  r <- rsi price (rsi_period self) (rsi_smoother self) ;;
  up <- crossup r (Scalar (rsi_lower self)) ;;
  dn <- crossdown r (Scalar (rsi_upper self)) ;;
  Ok (srows [const_series 1 up; const_series (-1) dn]).

(** [OsiMomentum.predict(self, x)] *)
Definition OsiMomentum_predict (self : OsiMomentum) (price : Series float64)
  : result (Series Z) :=
  osi <- outstretched price (osi_period self) (osi_smoothing self) ;;
  let kt := mul (of_int (osi_period self)) (sub one (osi_threshold self)) in
  l2 <- compare gt (shift2 osi) (Scalar (opp kt)) ;;
  l1 <- compare gt (shift1 osi) (Scalar (opp kt)) ;;
  l21 <- and_ l2 l1 ;;
  l0 <- compare le osi (Scalar (opp kt)) ;;
  long_mask <- and_ l21 l0 ;;
  longs <- where_ osi long_mask ;;
  s2 <- compare lt (shift2 osi) (Scalar kt) ;;
  s1 <- compare lt (shift1 osi) (Scalar kt) ;;
  s21 <- and_ s2 s1 ;;
  s0 <- compare ge osi (Scalar kt) ;;
  short_mask <- and_ s21 s0 ;;
  shorts <- where_ osi short_mask ;;
  Ok (srows [const_series 1 longs; const_series (-1) shorts]).

(** [Equilibrium.predict(self, x)] *)
Definition Equilibrium_predict (self : Equilibrium) (price : Series float64)
  : result (Series Z) :=
  dK <- deviation price (eq_smoother self) (eq_period self) ;;
  let thr := eq_threshold self in
  s2 <- compare lt (shift2 dK) (Scalar thr) ;;
  s1 <- compare lt (shift1 dK) (Scalar thr) ;;
  s0 <- compare gt dK (Scalar thr) ;;
  s10 <- and_ s1 s0 ;;
  short_mask <- and_ s2 s10 ;;
  shorts <- where_ dK short_mask ;;
  l2 <- compare gt (shift2 dK) (Scalar (opp thr)) ;;
  l1 <- compare gt (shift1 dK) (Scalar (opp thr)) ;;
  l0 <- compare lt dK (Scalar (opp thr)) ;;
  l10 <- and_ l1 l0 ;;
  long_mask <- and_ l2 l10 ;;
  longs <- where_ dK long_mask ;;
  Ok (srows [const_series (-1) shorts; const_series 1 longs]).

(** The internal bar strength of a bar, [(close - low) / (high - low)]. *)
Definition bar_strength (r : candle) : float64 :=
  div (sub (c_close r) (c_low r)) (sub (c_high r) (c_low r)).

(** [InternalBarStrength.predict(self, x)], on a frame that has the four
    columns [_check_frame_columns] asks for; the columns of one frame are
    identically labelled, so their arithmetic is row by row. *)
Definition InternalBarStrength_predict (self : InternalBarStrength)
           (x : Series candle) : result (Series Z) :=
  xf <- ohlc_resample x (ibs_timeframe self) (ibs_tz self) ;;
  let ibs := shift1 (map_values bar_strength xf) in
  lm <- compare lt ibs (Scalar (ibs_threshold self)) ;;
  longs <- where_ ibs lm ;;
  sm <- compare gt ibs (Scalar (sub one (ibs_threshold self))) ;;
  shorts <- where_ ibs sm ;;
  Ok (srows [const_series 1 longs; const_series (-1) shorts]).

End Indicators.

(** The value of a series at a position, and one and two positions
    before it; NaN where there is none. *)
Definition value_at (x : Series float64) (k : nat) : float64 :=
  match nth_error x k with
  | Some (_, v) => v
  | None => nan
  end.

Definition lag1 (x : Series float64) (k : nat) : float64 :=
  match k with
  | O => nan
  | S k' => value_at x k'
  end.

Definition lag2 (x : Series float64) (k : nat) : float64 :=
  match k with
  | S (S k') => value_at x k'
  | _ => nan
  end.

(** The level [kt = period * (1 - threshold)] of [OsiMomentum.predict]. *)
Definition osi_kt (self : OsiMomentum) : float64 :=
  mul (of_int (osi_period self)) (sub one (osi_threshold self)).

(** The threshold a sample is compared with, and the one its predecessor is
    compared with, in [crossup] and [crossdown]. *)
Definition threshold_at (t : operand) (k : nat) : float64 :=
  match t with
  | Scalar c => c
  | Ser s => value_at s k
  end.

Definition threshold_before (t : operand) (k : nat) : float64 :=
  match t with
  | Scalar c => c
  | Ser s => lag1 s k
  end.

(** The timestamps carrying an event of value [v]. *)
Definition events_of (v : Z) (s : Series Z) : list timestamp :=
  index (filter (fun e => snd e =? v) s).

(** ** Examples for the generators *)

(** An indicator that oscillates: flat, then a dip below [-3/2], then a
    jump above [3/2]. *)
Definition demo_indicator : Series float64 :=
  [(10, zero); (20, zero); (30, opp two); (40, two)].

Definition demo_osi : OsiMomentum := mk_OsiMomentum 3 5 half.

Definition demo_equilibrium : Equilibrium := mk_Equilibrium 3 "sma" one.

Definition demo_rsi : Rsi := mk_Rsi 14 one half "sma".

Definition demo_movings : CrossingMovings := mk_CrossingMovings 1 2 "sma" "sma".

(** A smoother for the examples: period 1 gives the series itself, any
    other period a line at [1/2]. *)
Definition demo_smooth (x : Series float64) (type : string) (period : Z)
  : result (Series float64) :=
  Ok (if period =? 1 then x else map_values (fun _ => half) x).

(** Three daily bars: the first closes on its low, the second on its high. *)
Definition demo_candles : Series candle :=
  [ (0, mk_candle half one zero zero);
    (86400, mk_candle half two half two);
    (172800, mk_candle one two one three_halves) ].

Definition demo_ibs : InternalBarStrength :=
  mk_InternalBarStrength "1d" three_tenths "UTC" true.

End Generators.

(* ================================================================== *)
(** * simulation/multisim.py *)

Module Multisim.

Local Open Scope string_scope.

Inductive _Types : Type :=
| UKNOWN
| LIST
| TRACKER
| SIGNAL
| ESTIMATOR.

Definition _Types_eqb (a b : _Types) : bool :=
  match a, b with
  | UKNOWN, UKNOWN | LIST, LIST | TRACKER, TRACKER
  | SIGNAL, SIGNAL | ESTIMATOR, ESTIMATOR => true
  | _, _ => false
  end.

(** The Python values a setup is made of, by the classes the recogniser
    tests for.  Leaves carry an identifier standing for the object. *)
#[warnings="-register-all"]
Inductive pyobj : Type :=
| PyNone
| PyDict (items : list (string * pyobj))      (* dict with string keys *)
| PyList (elems : list pyobj)                 (* list or tuple *)
| PyTracker (id : nat)                        (* instance of Tracker *)
| PySignal (id : nat)                         (* pd.DataFrame or pd.Series *)
| PyEstimator (id : nat) (composer : bool)    (* Pipeline or BaseEstimator;
                                                 [composer]: a MarketDataComposer *)
| PyOther (id : nat).                         (* any other object *)

(** Induction over setups, with the hypothesis available for every item of
    a dict and every element of a list. *)
Section SetupInduction.

Variable P : pyobj -> Prop.
Hypothesis HNone : P PyNone.
Hypothesis HDict : forall items, Forall (fun nv => P (snd nv)) items -> P (PyDict items).
Hypothesis HList : forall elems, Forall P elems -> P (PyList elems).
Hypothesis HTracker : forall id, P (PyTracker id).
Hypothesis HSignal : forall id, P (PySignal id).
Hypothesis HEstimator : forall id c, P (PyEstimator id c).
Hypothesis HOther : forall id, P (PyOther id).

Fixpoint setup_ind (o : pyobj) : P o :=
  match o with
  | PyNone => HNone
  | PyDict items =>
      HDict items
        ((fix all (l : list (string * pyobj)) : Forall (fun nv => P (snd nv)) l :=
            match l with
            | [] => Forall_nil _
            | nv :: l' => Forall_cons nv (setup_ind (snd nv)) (all l')
            end) items)
  | PyList elems =>
      HList elems
        ((fix all (l : list pyobj) : Forall P l :=
            match l with
            | [] => Forall_nil _
            | s :: l' => Forall_cons s (setup_ind s) (all l')
            end) elems)
  | PyTracker id => HTracker id
  | PySignal id => HSignal id
  | PyEstimator id c => HEstimator id c
  | PyOther id => HOther id
  end.

End SetupInduction.

(** [_type(obj)] *)
Definition _type (obj : pyobj) : _Types :=
  match obj with
  | PyNone => UKNOWN
  | PyList _ => LIST
  | PyTracker _ => TRACKER
  | PySignal _ => SIGNAL
  | PyEstimator _ _ => ESTIMATOR
  | PyDict _ | PyOther _ => UKNOWN
  end.

(** Market data: a dict from symbol to frame.  Of a frame only the index is
    looked at here. *)
Definition DataFrame : Type := list timestamp.
Definition market_data : Type := list (string * DataFrame).

(** A frame of signals: named columns over one index. *)
Definition SignalFrame : Type := list (string * Series float64).

(** [d[start:stop]] on a frame with an increasing index: the rows
    labelled from [start] to [stop], both included. *)
Definition slice_rows (d : DataFrame) (start stop : timestamp) : DataFrame :=
  filter (fun t => ((start <=? t)%Z && (t <=? stop)%Z)) d.

(** [idx[n]] for [n >= 0] and [idx[-1]] *)
Definition index_at (idx : DataFrame) (n : nat) : result timestamp :=
  match nth_error idx n with
  | Some t => Ok t
  | None => Error IndexError
  end.

Definition index_last (idx : DataFrame) : result timestamp :=
  match idx with
  | [] => Error IndexError
  | t :: idx' => Ok (last idx' t)
  end.

(** The inner loop [for j in range(0, 101): ss[idx[j * dx]] = np.nan]. *)
Fixpoint stub_loop (idx : DataFrame) (dx : nat) (js : list nat)
         (ss : Series float64) : result (Series float64) :=
  match js with
  | [] => Ok ss
  | j :: js' =>
      t <- index_at idx (j * dx) ;;
      stub_loop idx dx js' (Dict.set Z.eqb t nan ss)
  end.

(** [start_stop_sigs(data, start, stop)].  [start] and [stop] are [None] or
    timestamps; the conversion first attempted on [stop] (reading it as an
    offset from [start]) raises for a timestamp and is skipped.  The result
    is [None] when [data] is empty: the function returns from inside the
    body of its loop over [data.items()]. *)
Definition start_stop_sigs (data : market_data) (start stop : option timestamp)
  : result (option SignalFrame) :=
  match data with
  | [] => Ok None
  | (i, d) :: _ =>
      start <- match start with
               | None => index_at d 0
               | Some s => Ok s
               end ;;
      stop <- match stop with
              | None => index_last d
              | Some s => Ok s
              end ;;
      let dx := (List.length (slice_rows d start stop) / 100)%nat in
      let idx := d in
      ss <- stub_loop idx dx (seq 0 101) [] ;;
      Ok (Some [(i, ss)])
  end.

Record SimSetup : Type := mk_SimSetup {
  signals : pyobj;
  signal_type : _Types;
  trackers : pyobj;
  name : string
}.

(** [SimSetup.__init__(self, signals, trackers, experiment_name)] *)
Definition SimSetup_init (signals trackers : pyobj) (experiment_name : string)
  : SimSetup :=
  mk_SimSetup signals (_type signals) trackers experiment_name.

(** What [get_signals] hands over: the stub, a value computed by code of
    other libraries (the prediction of a generator, a slice of the given
    series), or the given source itself.  [ext] is the type of the values
    that the other libraries compute. *)
Inductive resolved_signals (ext : Type) : Type :=
| Stub (r : option SignalFrame)
| Computed (v : ext)
| Given (sx : pyobj).

Arguments Stub {ext} r.
Arguments Computed {ext} v.
Arguments Given {ext} sx.

(** The call [z_backtest(signals, data, broker, spread=.., name=..,
    execution_logger=True, trackers=..)]: its arguments. *)
Record backtest_call (ext : Type) : Type := mk_backtest_call {
  bt_signals : resolved_signals ext;
  bt_data : market_data;
  bt_broker : string;
  bt_spread : float64;
  bt_name : string;
  bt_execution_logger : bool;
  bt_trackers : pyobj
}.

Arguments mk_backtest_call {ext}.
Arguments bt_signals {ext}.
Arguments bt_data {ext}.
Arguments bt_broker {ext}.
Arguments bt_spread {ext}.
Arguments bt_name {ext}.
Arguments bt_execution_logger {ext}.
Arguments bt_trackers {ext}.

Definition _is_signal_or_generator (obj : pyobj) : bool :=
  match _type obj with
  | SIGNAL | ESTIMATOR => true
  | _ => false
  end.

Definition _is_generator (obj : pyobj) : bool := _Types_eqb (_type obj) ESTIMATOR.

Definition _is_tracker (obj : pyobj) : bool := _Types_eqb (_type obj) TRACKER.

(** [str(j)] for an index. *)
Definition str (j : nat) : string := NilEmpty.string_of_uint (Nat.to_uint j).

(** [_recognize(setup, data, name)] *)
Fixpoint _recognize (setup : pyobj) (data : market_data) (name : string)
         {struct setup} : list SimSetup :=
  match setup with
  | PyDict items =>
      (fix items_ (l : list (string * pyobj)) : list SimSetup :=
         match l with
         | [] => []
         | (n, v) :: l' =>
             (_recognize v data ((name ++ "/") ++ n) ++ items_ l')%list
         end) items
  | PyList elems =>
      let enumerate_ :=
        (fix enumerate_ (j : nat) (l : list pyobj) : list SimSetup :=
           match l with
           | [] => []
           | s :: l' =>
               (_recognize s data ((name ++ "/") ++ str j)
                  ++ enumerate_ (S j) l')%list
           end) in
      match elems with
      | [s0; s1] =>
          if _is_signal_or_generator s0 && _is_tracker s1
          then [SimSetup_init s0 s1 name]
          else enumerate_ 0%nat elems
      | _ => enumerate_ 0%nat elems
      end
  | _ =>
      if _is_tracker setup then [SimSetup_init PyNone setup name]
      else match setup with
           | PySignal _ => [SimSetup_init setup PyNone name]
           | _ => if _is_generator setup
                  then [SimSetup_init setup PyNone name]
                  else []
           end
  end.

Section Engine.

(** The calls into other libraries are parameters, and each may raise:
    [sx.for_interval(start, stop)] of a [MarketDataComposer],
    [sx.fit(data, None).predict(data)] of a generator, [sx[slice(start,
    stop)]] of a series, and [z_backtest(...)] of [ira.utils.nb_functions].
    [ext] is what fitting, predicting and slicing compute, [outcome] what
    the engine returns. *)
Variable ext : Type.
Variable outcome : Type.
Variable for_interval : pyobj -> option timestamp -> option timestamp -> result pyobj.
Variable fit_predict : pyobj -> market_data -> result ext.
Variable getitem_slice : pyobj -> timestamp -> timestamp -> result ext.
Variable z_backtest : backtest_call ext -> result outcome.

(** [SimSetup.get_signals(self, data, start, stop)] *)
Definition get_signals (self : SimSetup) (data : market_data)
           (start stop : option timestamp) : result (resolved_signals ext) :=
  let sx := signals self in
  match sx with
  | PyNone => r <- start_stop_sigs data start stop ;; Ok (Stub r)
  | _ =>
      if _Types_eqb (signal_type self) UKNOWN
      then r <- start_stop_sigs data start stop ;; Ok (Stub r)
      else if _Types_eqb (signal_type self) ESTIMATOR
      then sx' <- match sx with
                  | PyEstimator _ true => for_interval sx start stop
                  | _ => Ok sx
                  end ;;
           v <- fit_predict sx' data ;;
           Ok (Computed v)
      else match start, stop with
           | Some a, Some b => v <- getitem_slice sx a b ;; Ok (Computed v)
           | _, _ => Ok (Given sx)
           end
  end.

(** [_proc_run(s, data, start, stop, broker, spreads)] *)
Definition _proc_run (s : SimSetup) (data : market_data)
           (start stop : option timestamp) (broker : string) (spreads : float64)
  : result outcome :=
  sigs <- get_signals s data start stop ;;
  z_backtest (mk_backtest_call sigs data broker spreads (name s) true (trackers s)).

(** The loop of [simulation] over the recognised setups: an exception
    leaves the loop, and the results gathered so far are lost with it. *)
Fixpoint run_all (sims : list SimSetup) (data : market_data)
         (start stop : option timestamp) (broker : string) (spreads : float64)
  : result (list outcome) :=
  match sims with
  | [] => Ok []
  | s :: sims' =>
      b <- _proc_run s data start stop broker spreads ;;
      bs <- run_all sims' data start stop broker spreads ;;
      Ok (b :: bs)
  end.

(** [simulation(setup, data, broker, project, start, stop, spreads)] *)
Definition simulation (setup : pyobj) (data : market_data) (broker project : string)
           (start stop : option timestamp) (spreads : float64)
  : result (list outcome) :=
  let sims := _recognize setup data project in
  run_all sims data start stop broker spreads.

End Engine.

Arguments get_signals {ext}.
Arguments _proc_run {ext outcome}.
Arguments run_all {ext outcome}.
Arguments simulation {ext outcome}.

(** ** Vocabulary of the properties *)

Definition has_source_or_tracker (u : SimSetup) : Prop :=
  signals u <> PyNone \/ trackers u <> PyNone.

Definition ends_with (s suffix : string) : Prop := exists p, s = p ++ suffix.

Definition ticks (n : nat) : DataFrame := map Z.of_nat (seq 0 n).

Definition or_default (o : option timestamp) (t : timestamp) : timestamp :=
  match o with
  | Some s => s
  | None => t
  end.

(** The row step [dx] computed by [start_stop_sigs] on a non-empty frame. *)
Definition stub_step (d : DataFrame) (start stop : option timestamp) : nat :=
  (List.length (slice_rows d (or_default start (hd 0%Z d))
                             (or_default stop (last d 0%Z))) / 100)%nat.

(** The placeholders: the labels of rows [0], [dx], ..., [100 * dx]. *)
Definition stub_rows (d : DataFrame) (dx : nat) : Series float64 :=
  map (fun j => (nth (j * dx) d 0%Z, nan)) (seq 0 101).

Definition evenly_spaced (l : list timestamp) : Prop :=
  exists step, forall k a b,
      nth_error l k = Some a -> nth_error l (S k) = Some b -> (b - a = step)%Z.

(** The stub as the specification words it: for every entry of the market
    data a column of exactly 100 evenly spaced timestamps from [start] to
    [stop]. *)
Definition claimed_stub (data : market_data) (start stop : timestamp)
           (f : SignalFrame) : Prop :=
  forall i d, In (i, d) data ->
    exists ss, In (i, ss) f /\
               List.length ss = 100%nat /\
               evenly_spaced (index ss) /\
               hd_error (index ss) = Some start /\
               last (index ss) start = stop.

(** The rows of a frame labelled from [start] to [stop], by default its
    first and its last label. *)
Definition stub_window (d : DataFrame) (start stop : option timestamp) : DataFrame :=
  slice_rows d (or_default start (hd 0%Z d)) (or_default stop (last d 0%Z)).

(** The stub as [start_stop_sigs] is written to build it: for every entry
    of the market data a column of exactly 101 placeholders, each once and
    all NaN, labelled within [start] and [stop]: the rows [0], [dx], ...,
    [100 * dx] of the rows of the entry's frame that lie in the window,
    from its first row on, fewer than a hundred rows of it being left after
    the last placeholder. *)
Definition spanning_stub (data : market_data) (start stop : option timestamp)
           (f : SignalFrame) : Prop :=
  forall i d, In (i, d) data ->
    exists ss, In (i, ss) f /\
               List.length ss = 101%nat /\
               NoDup (index ss) /\
               Forall (fun v => v = nan) (values ss) /\
               Forall (fun t => (or_default start (hd 0 d) <= t
                                 /\ t <= or_default stop (last d 0))%Z) (index ss) /\
               (forall j, (j <= 100)%nat ->
                          nth_error (index ss) j
                          = nth_error (stub_window d start stop)
                                      (j * stub_step d start stop)) /\
               (List.length (stub_window d start stop)
                < 100 * stub_step d start stop + 100)%nat.

Definition demo_data : market_data := [("A", ticks 250)].

Definition demo_unit : SimSetup := SimSetup_init PyNone (PyTracker 0) "prj/t".

(** A unit is well typed when its tracker is [None] or a tracker, its
    source is [None], a series or a generator, and its recorded type is the
    type of its source. *)
Definition well_typed_unit (u : SimSetup) : Prop :=
  (trackers u = PyNone \/ _is_tracker (trackers u) = true) /\
  (signals u = PyNone \/ _is_signal_or_generator (signals u) = true) /\
  signal_type u = _type (signals u).

(** Whether [get_signals] takes the stub for a unit. *)
Definition uses_stub (s : SimSetup) : bool :=
  match signals s with
  | PyNone => true
  | _ => _Types_eqb (signal_type s) UKNOWN
  end.

(** The call made for a unit with its signals resolved. *)
Definition call_for {ext} (sigs : resolved_signals ext) (data : market_data)
           (broker : string) (spreads : float64) (s : SimSetup) : backtest_call ext :=
  mk_backtest_call sigs data broker spreads (name s) true (trackers s).

(** Collaborators for the examples: an engine that answers with the call
    it was given, a composer that narrows to itself, and predictions and
    slices without content. *)
Definition demo_backtest (c : backtest_call unit) : result (backtest_call unit) := Ok c.

Definition demo_for_interval (sx : pyobj) (start stop : option timestamp)
  : result pyobj := Ok sx.

Definition demo_fit_predict (sx : pyobj) (data : market_data) : result unit := Ok tt.

Definition demo_slice (sx : pyobj) (start stop : timestamp) : result unit := Ok tt.

(** What every column of a stub is like: labels of the frame, each once,
    under NaN. *)
Definition stub_like (d : DataFrame) (ss : Series float64) : Prop :=
  (forall t, In t (index ss) -> In t d) /\
  Forall (fun v => v = nan) (values ss) /\
  NoDup (index ss).

(** A setup of two units, one with a source and one with a tracker only;
    and market data whose only frame has no rows. *)
Definition demo_setup : pyobj :=
  PyDict [("a", PyList [PySignal 0; PyTracker 1]); ("t", PyTracker 2)].

Definition demo_sources : pyobj :=
  PyDict [("a", PyList [PySignal 0; PyTracker 1]); ("g", PyEstimator 2 false)].

Definition empty_data : market_data := [("A", [])].

End Multisim.

(* ================================================================== *)
(** * simulation/management.py *)

Module Management.

Local Open Scope string_scope.

(** ** Strings *)

(** [s.split(sep)] for a one-character separator. *)
Fixpoint split (sep : ascii) (s : string) : list string :=
  match s with
  | EmptyString => [EmptyString]
  | String c s' =>
      if Ascii.eqb c sep then EmptyString :: split sep s'
      else match split sep s' with
           | [] => [String c EmptyString]
           | h :: t => String c h :: t
           end
  end.

(** [l[n]] on a list, for [n >= 0]. *)
Definition item {A} (l : list A) (n : nat) : result A :=
  match nth_error l n with
  | Some a => Ok a
  | None => Error IndexError
  end.

Definition is_space (c : ascii) : bool :=
  let n := nat_of_ascii c in
  ((9 <=? n) && (n <=? 13) || (28 <=? n) && (n <=? 32))%nat.

Definition digit_value (c : ascii) : option Z :=
  let n := nat_of_ascii c in
  if ((48 <=? n) && (n <=? 57))%nat then Some (Z.of_nat (n - 48)) else None.

Fixpoint lstrip (s : string) : string :=
  match s with
  | String c s' => if is_space c then lstrip s' else s
  | EmptyString => EmptyString
  end.

(** Digits, with single underscores allowed between two digits; what
    follows the digits may only be white space. *)
Fixpoint int_digits (acc : Z) (after_digit : bool) (s : string) : option Z :=
  match s with
  | EmptyString => if after_digit then Some acc else None
  | String c s' =>
      match digit_value c with
      | Some v => int_digits (10 * acc + v) true s'
      | None =>
          if negb after_digit then None
          else if Ascii.eqb c "_" then int_digits acc false s'
          else if is_space c
          then match lstrip s' with
               | EmptyString => Some acc
               | _ => None
               end
          else None
      end
  end.

(** [int(s)] in base 10, on ASCII input: optional white space around an
    optional sign and the digits; [ValueError] otherwise.  (Python also
    accepts the decimal digits and spaces of other scripts; such strings are
    rejected here.) *)
Definition int (s : string) : result Z :=
  let body := lstrip s in
  let parsed :=
    match body with
    | String "-" s' => option_map Z.opp (int_digits 0 false s')
    | String "+" s' => int_digits 0 false s'
    | _ => int_digits 0 false body
    end in
  match parsed with
  | Some k => Ok k
  | None => Error ValueError
  end.

(** ** The storage collaborator *)

(** Modelled from the spec: the key-value store behind [z_ls] and [z_del]
    of [ira.utils.nb_functions], which are not part of the sources.  A store
    holds artifacts under hierarchical keys, per host ([None] is the default
    host); [list(prefix)] gives the keys under a prefix and [delete(key)]
    removes the artifact at a key. *)
Definition storage : Type := list (option string * string).

Definition host_eqb (a b : option string) : bool :=
  match a, b with
  | None, None => true
  | Some x, Some y => String.eqb x y
  | _, _ => false
  end.

Definition z_ls (query : string) (host : option string) (st : storage) : list string :=
  map snd (filter (fun hk => host_eqb (fst hk) host && prefix query (snd hk)) st).

(** [z_del(name)]: called without a host, it addresses the default host. *)
Definition z_del (key : string) (st : storage) : storage :=
  filter (fun hk => negb (host_eqb (fst hk) None && String.eqb (snd hk) key)) st.

(** ** The index of runs *)

(** [mstruct(runid=.., symbol=.., path=..)] *)
Record mstruct : Type := mk_mstruct {
  runid : string;
  symbol : string;
  path : string
}.

(** The records of one run, by sequence number. *)
Definition run_dict : Type := list (Z * mstruct).

(** project -> run id -> sequence number -> record *)
Definition index : Type := list (string * list (string * run_dict)).

(** [d[k]] on a [defaultdict] whose factory gives an empty container. *)
Definition get_or_empty {V} (k : string) (d : list (string * list V)) : list V :=
  match Dict.get String.eqb k d with
  | Some v => v
  | None => []
  end.

(** The target of [for p, s, r, path in ...]: exactly four items. *)
Definition unpack4 (l : list string) : result (string * string * string * string) :=
  match l with
  | [p; s; r; path] => Ok (p, s, r, path)
  | _ => Error ValueError
  end.

(** One key of the listing read as [(p, r, k, symbol, path)], as one pass
    of the loop of [_collect_data] does. *)
Definition parse_key (rec : string)
  : result (string * string * Z * string * string) :=
  x <- unpack4 (tl (split "/" rec) ++ [rec])%list ;;
  let '(p, s, r, path) := x in
  let sinf := split "." s in
  s1 <- item sinf 1 ;;
  k <- int s1 ;;
  s2 <- item sinf 2 ;;
  Ok (p, r, k, s2, path).

(** What one pass of the loop does to [prj_data] with a parsed key. *)
Definition add_record (prj_data : index)
           (e : string * string * Z * string * string) : index :=
  let '(p, r, k, sym, path) := e in
  let runs := get_or_empty p prj_data in
  let ra := get_or_empty r runs in
  let ra := Dict.set Z.eqb k (mk_mstruct r sym path) ra in
  let ra := sort_keyed ra in
  Dict.set String.eqb p (Dict.set String.eqb r ra runs) prj_data.

(** The loop over the listing.  A key that fails to parse raises; the
    entries that [prj_data[p][r]] may have created just before are lost with
    [prj_data], which is local. *)
Fixpoint collect_loop (recs : list string) (prj_data : index) : result index :=
  match recs with
  | [] => Ok prj_data
  | s :: recs' =>
      e <- parse_key s ;;
      collect_loop recs' (add_record prj_data e)
  end.

(** [SimulationsManager._collect_data(self, host)], as the value it returns. *)
Definition _collect_data (st : storage) (host : option string) : result index :=
  let recs := z_ls "runs/" host st in
  collect_loop recs [].

(** ** Objects *)

(** The dict of a run is an object shared between the manager, whose index
    refers to it, and the [SimulationRunData] handed out for the run.  The
    heap holds these dicts by address. *)
Definition loc : Type := nat.
Definition heap : Type := list run_dict.

Record world : Type := mk_world {
  w_heap : heap;
  w_storage : storage
}.

(** The index as the manager holds it: references to the run dicts. *)
Definition ref_index : Type := list (string * list (string * loc)).

Record SimulationsManager : Type := mk_SimulationsManager {
  sm_host : option string;
  sm_p : ref_index
}.

(** The attribute [p] of a [SimulationRunData]: the run's dict, or a list. *)
Inductive run_p : Type :=
| PDict (l : loc)
| PList (items : list mstruct).

Record SimulationRunData : Type := mk_SimulationRunData {
  srd_p : run_p;
  srd_prj : string;
  srd_run_id : string;
  srd_host : option string
}.

(** Every run dict of a freshly built index is an object of its own. *)
Fixpoint alloc_runs (runs : list (string * run_dict)) (h : heap)
  : list (string * loc) * heap :=
  match runs with
  | [] => ([], h)
  | (r, d) :: runs' =>
      let '(refs, h') := alloc_runs runs' (h ++ [d])%list in
      ((r, List.length h) :: refs, h')
  end.

Fixpoint alloc_index (idx : index) (h : heap) : ref_index * heap :=
  match idx with
  | [] => ([], h)
  | (p, runs) :: idx' =>
      let '(refs, h1) := alloc_runs runs h in
      let '(rest, h2) := alloc_index idx' h1 in
      ((p, refs) :: rest, h2)
  end.

(** [SimulationsManager.__init__(self, host)] *)
Definition SimulationsManager_init (host : option string) (w : world)
  : result (SimulationsManager * world) :=
  idx <- _collect_data (w_storage w) host ;;
  let '(refs, h) := alloc_index idx (w_heap w) in
  Ok (mk_SimulationsManager host refs, mk_world h (w_storage w)).

(** [SimulationsManager.projects(self)] *)
Definition projects (self : SimulationsManager) : list string * SimulationsManager :=
  (Dict.keys (sm_p self), self).

(** [SimulationsManager.runs_for(self, prj)]: [self.p] is a [defaultdict],
    so [self.p[prj]] inserts an empty entry for a missing project. *)
Definition runs_for (self : SimulationsManager) (prj : string)
  : list string * SimulationsManager :=
  match Dict.get String.eqb prj (sm_p self) with
  | Some runs => (Dict.keys runs, self)
  | None =>
      ([], mk_SimulationsManager (sm_host self)
                                 (Dict.set String.eqb prj [] (sm_p self)))
  end.

(** [SimulationsManager.run_data(self, prj, run_id)] *)
Definition run_data (self : SimulationsManager) (prj run_id : string)
  : result SimulationRunData :=
  if negb (Dict.mem String.eqb prj (sm_p self)) then Error ValueError
  else
    let runs := get_or_empty prj (sm_p self) in
    match Dict.get String.eqb run_id runs with
    | None => Error ValueError
    | Some l => Ok (mk_SimulationRunData (PDict l) prj run_id None)
    end.

(** [self.p.items()].  An address outside the heap does not occur for a
    [SimulationRunData] handed out by a manager (see [manager_wf]); a list
    has no [items]. *)
Definition items_of (p : run_p) (h : heap) : result run_dict :=
  match p with
  | PDict l =>
      match nth_error h l with
      | Some d => Ok d
      | None => Error KeyError
      end
  | PList _ => Error AttributeError
  end.

(** [SimulationRunData.delete(self)] *)
Definition delete (self : SimulationRunData) (w : world)
  : result (SimulationRunData * world) :=
  items <- items_of (srd_p self) (w_heap w) ;;
  let st := fold_left (fun st kr => z_del (path (snd kr)) st) items (w_storage w) in
  Ok (mk_SimulationRunData (PList []) (srd_prj self) (srd_run_id self) (srd_host self),
      mk_world (w_heap w) st).

(** The index the manager sees: its references followed into the heap. *)
Definition deref_runs (h : heap) (runs : list (string * loc))
  : list (string * option run_dict) :=
  map (fun rl => (fst rl, nth_error h (snd rl))) runs.

Definition manager_index (self : SimulationsManager) (w : world)
  : list (string * list (string * option run_dict)) :=
  map (fun pr => (fst pr, deref_runs (w_heap w) (snd pr))) (sm_p self).

(** Every reference held by the manager is an address of the heap. *)
Definition manager_wf (self : SimulationsManager) (w : world) : bool :=
  forallb (fun pr => forallb (fun rl => Nat.ltb (snd rl) (List.length (w_heap w)))
                             (snd pr))
          (sm_p self).

(** ** Vocabulary of the properties *)

Definition entry : Type := (string * string * Z * string * string)%type.

(** [idx[p][r][k]], when present. *)
Definition lookup (idx : index) (p r : string) (k : Z) : option mstruct :=
  Dict.get Z.eqb k (get_or_empty r (get_or_empty p idx)).

(** The record of the entry listed last for project [p], run [r] and
    sequence number [k]. *)
Fixpoint last_record (es : list entry) (p r : string) (k : Z) : option mstruct :=
  match es with
  | [] => None
  | (p', r', k', sym, pth) :: es' =>
      match last_record es' p r k with
      | Some m => Some m
      | None =>
          if String.eqb p' p && String.eqb r' r && (k' =? k)%Z
          then Some (mk_mstruct r' sym pth)
          else None
      end
  end.

(** Projects and runs are listed once, and the records of a run are in
    increasing order of their sequence numbers. *)
Definition index_ordered (idx : index) : Prop :=
  NoDup (Dict.keys idx) /\
  forall p runs, Dict.get String.eqb p idx = Some runs ->
    NoDup (Dict.keys runs) /\
    forall r d, Dict.get String.eqb r runs = Some d -> Sorted Z.lt (Dict.keys d).

Fixpoint has_char (c : ascii) (s : string) : bool :=
  match s with
  | EmptyString => false
  | String x s' => Ascii.eqb x c || has_char c s'
  end.

(** The key [runs/{p}/{a}.{ks}.{sym}/{r}], where [ks] reads as the
    integer [k]. *)
Definition run_key (p a ks sym r : string) : string :=
  "runs/" ++ p ++ "/" ++ a ++ "." ++ ks ++ "." ++ sym ++ "/" ++ r.

Definition plain (s : string) : Prop :=
  has_char "/" s = false /\ has_char "." s = false.

Inductive key_form : string -> entry -> Prop :=
| key_form_intro (p a ks sym r : string) (k : Z) :
    has_char "/" p = false -> plain a -> plain ks -> plain sym ->
    has_char "/" r = false ->
    int ks = Ok k ->
    key_form (run_key p a ks sym r) (p, r, k, sym, run_key p a ks sym r).

(** The index as a value, in the shape of [manager_index]. *)
Definition index_view (idx : index) : list (string * list (string * option run_dict)) :=
  map (fun pr => (fst pr, map (fun rd => (fst rd, Some (snd rd))) (snd pr))) idx.

Definition refs_below (n : nat) (refs : list (string * loc)) : bool :=
  forallb (fun rl => Nat.ltb (snd rl) n) refs.

Definition demo_storage : storage :=
  [ (None, "runs/prj/sim.2.EURUSD/run1");
    (None, "runs/prj/sim.0.GBPUSD/run1");
    (None, "runs/prj/sim.1.EURUSD/run2");
    (Some "remote", "runs/prj/sim.7.EURUSD/run1") ].

Definition demo_entries : list entry :=
  [ ("prj", "run1", 2%Z, "EURUSD", "runs/prj/sim.2.EURUSD/run1");
    ("prj", "run1", 0%Z, "GBPUSD", "runs/prj/sim.0.GBPUSD/run1");
    ("prj", "run2", 1%Z, "EURUSD", "runs/prj/sim.1.EURUSD/run2") ].

(** The key as the specification words it: [runs/{project}/{run_id}/
    {sequence_index}.{symbol}], the last segment split on ['.']. *)
Definition claimed_parse_key (rec : string) : result entry :=
  x <- unpack4 (tl (split "/" rec) ++ [rec])%list ;;
  let '(p, r, s, pth) := x in
  match split "." s with
  | [ks; sym] => k <- int ks ;; Ok (p, r, k, sym, pth)
  | _ => Error ValueError
  end.

Fixpoint claimed_loop (recs : list string) (prj_data : index) : result index :=
  match recs with
  | [] => Ok prj_data
  | s :: recs' =>
      e <- claimed_parse_key s ;;
      claimed_loop recs' (add_record prj_data e)
  end.

Definition claimed_collect_data (st : storage) (host : option string) : result index :=
  claimed_loop (z_ls "runs/" host st) [].

Definition demo_world : world := mk_world [] demo_storage.

Definition demo_manager : SimulationsManager :=
  match SimulationsManager_init None demo_world with
  | Ok (m, _) => m
  | Error _ => mk_SimulationsManager None []
  end.

Definition demo_world' : world :=
  match SimulationsManager_init None demo_world with
  | Ok (_, w) => w
  | Error _ => demo_world
  end.

Definition demo_run : SimulationRunData :=
  mk_SimulationRunData (PDict 0%nat) "prj" "run1" None.

(** ** Artifacts *)

(** The key read by [SimulationRunData.load(self, t_id)]:
    [f'runs/{self.prj}/{t_id}/{self.run_id}']. *)
Definition load_key (self : SimulationRunData) (t_id : string) : string :=
  "runs/" ++ srd_prj self ++ "/" ++ t_id ++ "/" ++ srd_run_id self.

(** Modelled from the spec: what [z_load] and [z_save] of
    [ira.utils.nb_functions] keep under a key of a host, [load(key) ->
    artifact|null] and [save(key, artifact)].  Of an artifact the run data
    looks at its result object and at whether it carries a performance
    summary; both are kept as tokens. *)
Record artifact : Type := mk_artifact {
  art_result : nat;
  art_performance : option nat
}.

Definition artifacts : Type := list ((option string * string) * artifact).

Definition place_eqb (a b : option string * string) : bool :=
  host_eqb (fst a) (fst b) && String.eqb (snd a) (snd b).

Definition z_load (key : string) (host : option string) (arts : artifacts)
  : option artifact :=
  Dict.get place_eqb (host, key) arts.

Definition z_save (key : string) (a : artifact) (host : option string)
           (arts : artifacts) : artifacts :=
  Dict.set place_eqb (host, key) a arts.

Section Performance.

(** The summary built from [sd.result.performance(init_cash, commissions)],
    [sd.result.equity(commissions)] and [sd.result.executions] is computed
    by the external backtest result object: a parameter, which may raise. *)
Variable summary : nat -> result nat.

(** One pass of the loop of [calc_performance]: the artifact is loaded; a
    missing one is skipped; the summary is computed when forced or absent and
    the artifact saved back; an exception raised on the way is printed and
    the loop goes on. *)
Definition calc_step (host : option string) (force_calc : bool)
           (arts : artifacts) (kr : Z * mstruct) : artifacts :=
  match z_load (path (snd kr)) host arts with
  | None => arts
  | Some sd =>
      if force_calc || match art_performance sd with
                       | None => true
                       | Some _ => false
                       end
      then match summary (art_result sd) with
           | Ok prf => z_save (path (snd kr))
                              (mk_artifact (art_result sd) (Some prf)) host arts
           | Error _ => arts
           end
      else arts
  end.

(** [SimulationRunData.calc_performance(self, init_cash, commissions,
    force_calc)], as its effect on the stored artifacts. *)
Definition calc_performance (self : SimulationRunData) (force_calc : bool)
           (h : heap) (arts : artifacts) : result artifacts :=
  items <- items_of (srd_p self) h ;;
  Ok (fold_left (calc_step (srd_host self) force_calc) items arts).

(** A stored artifact needs no further pass: it is missing, carries a
    summary, or its summary cannot be computed. *)
Definition settled (host : option string) (arts : artifacts) (key : string) : Prop :=
  match z_load key host arts with
  | None => True
  | Some sd => art_performance sd <> None \/ exists e, summary (art_result sd) = Error e
  end.

End Performance.

(** [SimulationRunData.results(self)]: the result objects of the records
    whose artifact is there, in the order of the records. *)
Fixpoint loaded_results (host : option string) (arts : artifacts)
         (items : run_dict) : list nat :=
  match items with
  | [] => []
  | (_, r) :: items' =>
      match z_load (path r) host arts with
      | Some sd => art_result sd :: loaded_results host arts items'
      | None => loaded_results host arts items'
      end
  end.

Definition results (self : SimulationRunData) (h : heap) (arts : artifacts)
  : result (list nat * string) :=
  items <- items_of (srd_p self) h ;;
  Ok (loaded_results (srd_host self) arts items, srd_prj self).

(** The project, run id and sequence number of an entry. *)
Definition entry_place (e : entry) : string * string * Z :=
  (fst (fst (fst (fst e))), snd (fst (fst (fst e))), snd (fst (fst e))).

Definition entry_path (e : entry) : string := snd e.

(** A key that the loop of [_collect_data] can read. *)
Definition parses (s : string) : Prop := exists e, parse_key s = Ok e.

(** What follows the first item in [sep.join(l)]. *)
Fixpoint join_tail (sep : string) (l : list string) : string :=
  match l with
  | [] => ""
  | a :: l' => sep ++ a ++ join_tail sep l'
  end.

(** The run dict of [idx[p][r]], when both keys are there. *)
Definition run_of (idx : index) (p r : string) : option run_dict :=
  match Dict.get String.eqb p idx with
  | Some runs => Dict.get String.eqb r runs
  | None => None
  end.

(** The entries of the keys that parse, in the order of the listing. *)
Definition parsed_entries (recs : list string) : list entry :=
  flat_map (fun s => match parse_key s with
                     | Ok e => [e]
                     | Error _ => []
                     end) recs.

(** [s in paths] *)
Definition listed (paths : list string) (s : string) : bool :=
  existsb (String.eqb s) paths.

(** The storage paths of the records of a run. *)
Definition paths_of (d : run_dict) : list string := map (fun kr => path (snd kr)) d.

(** ** Examples for the run data *)

Definition demo_index : index :=
  match _collect_data demo_storage None with
  | Ok idx => idx
  | Error _ => []
  end.

Definition demo_items : run_dict :=
  match items_of (srd_p demo_run) (w_heap demo_world') with
  | Ok d => d
  | Error _ => []
  end.

(** The manager of the host [remote] over the same store. *)
Definition demo_remote : SimulationsManager * world :=
  match SimulationsManager_init (Some "remote") demo_world with
  | Ok mw => mw
  | Error _ => (mk_SimulationsManager (Some "remote") [], demo_world)
  end.

Definition demo_remote_run : SimulationRunData :=
  mk_SimulationRunData (PDict 0%nat) "prj" "run1" None.

(** A store in which the default host and the host [remote] keep an
    artifact under the same key, and the manager of [remote] over it. *)
Definition twin_storage : storage :=
  [ (Some "remote", "runs/prj/sim.7.EURUSD/run1");
    (None, "runs/prj/sim.7.EURUSD/run1");
    (None, "runs/prj/sim.0.GBPUSD/run2") ].

Definition twin_remote : SimulationsManager * world :=
  match SimulationsManager_init (Some "remote") (mk_world [] twin_storage) with
  | Ok mw => mw
  | Error _ => (mk_SimulationsManager (Some "remote") [], mk_world [] twin_storage)
  end.

Definition demo_deleted : SimulationRunData * world :=
  match delete demo_run demo_world' with
  | Ok rw => rw
  | Error _ => (demo_run, demo_world')
  end.

(** Artifacts for the records of [run1]: one without summary, one whose
    summary cannot be computed; and one of [run2] that has its summary. *)
Definition demo_artifacts : artifacts :=
  [ ((None, "runs/prj/sim.2.EURUSD/run1"), mk_artifact 1 None);
    ((None, "runs/prj/sim.0.GBPUSD/run1"), mk_artifact 0 None);
    ((None, "runs/prj/sim.1.EURUSD/run2"), mk_artifact 5 (Some 3%nat)) ].

Definition demo_summary (res : nat) : result nat :=
  match res with
  | O => Error ValueError
  | S _ => Ok (2 * res)%nat
  end.

Definition demo_summarised : artifacts :=
  match calc_performance demo_summary demo_run false (w_heap demo_world')
                         demo_artifacts with
  | Ok arts => arts
  | Error _ => []
  end.

End Management.

(* ================================================================== *)
(** * Properties *)

(* ------------------------------------------------------------------ *)

Module FloatFacts.

Local Open Scope Z_scope.

Lemma SFcompare_antisym (a b : float64) :
  SFcompare b a = option_map CompOpp (SFcompare a b).
Proof.
  destruct a as [sa|sa| |sa ma ea], b as [sb|sb| |sb mb eb]; simpl;
    try reflexivity;
    try (destruct sa; reflexivity); try (destruct sb; reflexivity);
    try (destruct sa, sb; reflexivity).
  destruct sa, sb; simpl; try reflexivity.
  - rewrite (Z.compare_antisym ea eb).
    destruct (ea ?= eb) eqn:E; simpl; try reflexivity.
    f_equal. f_equal. 
    change (PosDef.Pos.compare_cont Eq mb ma) with (Pos.compare mb ma).
    change (PosDef.Pos.compare_cont Eq ma mb) with (Pos.compare ma mb).
    apply Pos.compare_antisym.
  - rewrite (Z.compare_antisym ea eb).
    destruct (ea ?= eb) eqn:E; simpl; try reflexivity.
    f_equal.
    change (PosDef.Pos.compare_cont Eq mb ma) with (Pos.compare mb ma).
    change (PosDef.Pos.compare_cont Eq ma mb) with (Pos.compare ma mb).
    apply Pos.compare_antisym.
Qed.

Lemma gt_lt_exclusive (a b : float64) : gt a b = true -> lt a b = false.
Proof.
  unfold gt, lt, SFltb. rewrite (SFcompare_antisym a b).
  destruct (SFcompare a b) as [[]|]; simpl; congruence.
Qed.

Lemma le_nan_l (b : float64) : le nan b = false.
Proof. reflexivity. Qed.
Lemma ge_nan_l (b : float64) : ge nan b = false.
Proof. destruct b; reflexivity. Qed.

End FloatFacts.

(* ------------------------------------------------------------------ *)

Module PandasFacts.

Import Generators FloatFacts.
Local Open Scope Z_scope.

Lemma index_eqb_refl (a : list timestamp) : index_eqb a a = true.
Proof. induction a as [|i a IH]; simpl; [reflexivity|]. now rewrite Z.eqb_refl. Qed.

Lemma index_eqb_eq (a b : list timestamp) : index_eqb a b = true <-> a = b.
Proof.
  split.
  - revert b. induction a as [|i a IH]; intros [|j b] H; simpl in H; try discriminate; auto.
    apply andb_true_iff in H as [H1 H2]. apply Z.eqb_eq in H1. f_equal; auto.
  - intros ->. apply index_eqb_refl.
Qed.

Lemma zip_values_same {A B C} (f : A -> B -> C) a b :
  index a = index b -> zip_values f a b = Ok (zip_pure f a b).
Proof. intros H. unfold zip_values. rewrite H, index_eqb_refl. reflexivity. Qed.

Lemma zip_values_diff {A B C} (f : A -> B -> C) a b :
  index a <> index b -> zip_values f a b = Error ValueError.
Proof.
  intros H. unfold zip_values. destruct (index_eqb (index a) (index b)) eqn:E; [|reflexivity].
  apply index_eqb_eq in E. contradiction.
Qed.

Lemma index_zip_pure {A B C} (f : A -> B -> C) a b :
  index a = index b -> index (zip_pure f a b) = index a.
Proof.
  unfold zip_pure. revert b.
  induction a as [|[i v] a IH]; intros [|[j w] b] H; simpl in *; try discriminate; auto.
  injection H as -> H. f_equal. apply IH, H.
Qed.

Lemma index_shift_from {A} (p : A) (s : Series A) : index (shift_from p s) = index s.
Proof. revert p. induction s as [|[i v] s IH]; intros p; simpl; [reflexivity|]. f_equal. apply IH. Qed.

Lemma index_map_values {A B} (f : A -> B) (s : Series A) : index (map_values f s) = index s.
Proof. induction s as [|[i v] s IH]; simpl; [reflexivity|]. f_equal. apply IH. Qed.

Lemma map_values_as_zip (op : float64 -> float64 -> bool) c (x : Series float64) :
  map_values (fun v => op v c) x = zip_pure op x (map_values (fun _ => c) x).
Proof.
  unfold zip_pure. induction x as [|[i v] x IH]; simpl; [reflexivity|].
  f_equal. apply IH.
Qed.

Lemma shift_from_const (c : float64) (x : Series float64) p :
  map_values (fun _ => c) (shift_from p x) = shift_from c (map_values (fun _ => c) x).
Proof. revert p. induction x as [|[i v] x IH]; intros p; simpl; [reflexivity|]. f_equal. apply IH. Qed.

(** The selection at the heart of both detectors, on identically labelled
    operands, read position by position. *)
Lemma select_scan (now prev : float64 -> float64 -> bool) (x s : Series float64) px pt :
  index x = index s ->
  index (map_values fst
          (filter (fun ivm : timestamp * (float64 * bool) => snd (snd ivm))
             (zip_pure (fun v (m : bool) => (v, m)) x
                (zip_pure andb (zip_pure now x s)
                   (zip_pure prev (shift_from px x) (shift_from pt s))))))
  = cross_scan now prev px pt x (values s).
Proof.
  unfold zip_pure. revert s px pt.
  induction x as [|[i v] x IH]; intros [|[j c] s] px pt H;
    simpl in *; try discriminate; try reflexivity.
  injection H as -> H.
  destruct (now v c && prev px pt); simpl; f_equal; apply IH, H.
Qed.

Lemma cross_chain (now prev : float64 -> float64 -> bool) (x s : Series float64) px pt :
  index x = index s ->
  (a <- zip_values now x s ;;
   b <- zip_values prev (shift_from px x) (shift_from pt s) ;;
   m <- and_ a b ;;
   r <- select x m ;;
   Ok (index r)) = Ok (cross_scan now prev px pt x (values s)).
Proof.
  intros H.
  assert (Hs : index (shift_from px x) = index (shift_from pt s))
    by (now rewrite !index_shift_from).
  assert (Ha : index (zip_pure now x s) = index x)
    by (now apply index_zip_pure).
  assert (Hb : index (zip_pure prev (shift_from px x) (shift_from pt s)) = index x)
    by (rewrite index_zip_pure by exact Hs; apply index_shift_from).
  assert (Hm : index (zip_pure andb (zip_pure now x s)
                        (zip_pure prev (shift_from px x) (shift_from pt s))) = index x)
    by (rewrite index_zip_pure by congruence; exact Ha).
  rewrite (zip_values_same now x s H). simpl.
  rewrite (zip_values_same prev _ _ Hs). simpl.
  unfold and_. rewrite zip_values_same by congruence. simpl.
  unfold select. rewrite zip_values_same by congruence.
  simpl. f_equal. apply select_scan, H.
Qed.

Lemma crossup_series (x s : Series float64) :
  index x = index s ->
  crossup x (Ser s) = Ok (cross_scan gt le nan nan x (values s)).
Proof. intros H. unfold crossup, compare, shift1. apply cross_chain, H. Qed.

Lemma crossdown_series (x s : Series float64) :
  index x = index s ->
  crossdown x (Ser s) = Ok (cross_scan lt ge nan nan x (values s)).
Proof. intros H. unfold crossdown, compare, shift1. apply cross_chain, H. Qed.

Lemma crossup_misaligned (x s : Series float64) :
  index x <> index s -> crossup x (Ser s) = Error ValueError.
Proof. intros H. unfold crossup, compare. now rewrite zip_values_diff. Qed.

Lemma values_const (c : float64) (x : Series float64) :
  values (map_values (fun _ => c) x) = map (fun _ => c) x.
Proof. induction x as [|[i v] x IH]; simpl; [reflexivity|]. f_equal. apply IH. Qed.

Lemma cross_scalar (now prev : float64 -> float64 -> bool) (x : Series float64) c :
  (a <- compare now x (Scalar c) ;;
   b <- compare prev (shift1 x) (Scalar c) ;;
   m <- and_ a b ;;
   r <- select x m ;;
   Ok (index r)) = Ok (cross_scan now prev nan c x (map (fun _ => c) x)).
Proof.
  unfold compare, shift1.
  rewrite <- values_const.
  rewrite <- (cross_chain now prev x (map_values (fun _ => c) x) nan c)
    by (now rewrite index_map_values).
  rewrite !zip_values_same by (rewrite ?index_shift_from, ?index_map_values; auto).
  simpl. rewrite <- shift_from_const with (p := nan).
  rewrite <- !map_values_as_zip. reflexivity.
Qed.

Lemma crossup_scalar (x : Series float64) c :
  crossup x (Scalar c) = Ok (cross_scan gt le nan c x (map (fun _ => c) x)).
Proof. apply cross_scalar. Qed.

Lemma crossdown_scalar (x : Series float64) c :
  crossdown x (Scalar c) = Ok (cross_scan lt ge nan c x (map (fun _ => c) x)).
Proof. apply cross_scalar. Qed.

End PandasFacts.

(* ------------------------------------------------------------------ *)

Module CrossingFacts.

Import Generators FloatFacts PandasFacts.
Local Open Scope Z_scope.

Lemma cross_scan_in_index now prev px pt x t ts :
  In ts (cross_scan now prev px pt x t) -> In ts (index x).
Proof.
  revert px pt t. induction x as [|[i v] x IH]; intros px pt [|c t] H; simpl in *; try contradiction.
  apply in_app_or in H as [H|H].
  - destruct (now v c && prev px pt); simpl in H; [|contradiction].
    destruct H as [H|[]]. now left.
  - right. eapply IH, H.
Qed.

Lemma cross_scan_disjoint px pt qx qt x t ts :
  NoDup (index x) ->
  In ts (cross_scan gt le px pt x t) ->
  In ts (cross_scan lt ge qx qt x t) -> False.
Proof.
  revert px pt qx qt t. induction x as [|[i v] x IH]; intros px pt qx qt [|c t] ND Hu Hd;
    simpl in *; try contradiction.
  inversion ND as [|? ? Hi ND']; subst.
  apply in_app_or in Hu. apply in_app_or in Hd.
  assert (Hhead : forall (b : bool) l, In ts (if b then [i] else []) -> In ts l ->
                  (forall u, In u l -> In u (index x)) -> False).
  { intros b l H1 H2 Hl. destruct b; simpl in H1; [|contradiction].
    destruct H1 as [<-|[]]. apply Hi, Hl, H2. }
  destruct Hu as [Hu|Hu], Hd as [Hd|Hd].
  - destruct (gt v c) eqn:G; simpl in Hu; [|contradiction].
    rewrite (gt_lt_exclusive _ _ G) in Hd. simpl in Hd. contradiction.
  - apply (Hhead _ _ Hu Hd). intros u. apply cross_scan_in_index.
  - apply (Hhead _ _ Hd Hu). intros u. apply cross_scan_in_index.
  - eapply IH; eauto.
Qed.

Lemma cross_scan_first now prev pt i v x t :
  (forall b, prev nan b = false) ->
  ~ In i (index x) ->
  ~ In i (cross_scan now prev nan pt ((i, v) :: x) t).
Proof.
  intros Hp Hi H. destruct t as [|c t]; simpl in H; [contradiction|].
  rewrite Hp, andb_false_r in H. simpl in H.
  apply Hi. eapply cross_scan_in_index, H.
Qed.

(** C1.  For a series [x] with distinct labels and a threshold [t], a
    constant or a series labelled as [x]: [crossup] and [crossdown] both
    return, no timestamp is returned by both, and the first label of [x] is
    returned by neither. *)
Theorem crossup_crossdown_disjoint (x : Series float64) (t : operand) :
  NoDup (index x) ->
  aligned x t ->
  exists up dn,
    crossup x t = Ok up /\ crossdown x t = Ok dn /\
    (forall ts, In ts up -> ~ In ts dn) /\
    (forall t0, hd_error (index x) = Some t0 -> ~ In t0 up /\ ~ In t0 dn).
Proof.
  intros ND Hal.
  assert (Hfirst : forall now prev pt tv t0,
             (forall b, prev nan b = false) ->
             hd_error (index x) = Some t0 ->
             ~ In t0 (cross_scan now prev nan pt x tv)).
  { intros now prev pt tv t0 Hp H0. destruct x as [|[i v] x']; simpl in H0; [discriminate|].
    injection H0 as <-. apply cross_scan_first; [exact Hp|].
    simpl in ND. now inversion ND. }
  destruct t as [c|s]; simpl in Hal.
  - exists (cross_scan gt le nan c x (map (fun _ => c) x)),
           (cross_scan lt ge nan c x (map (fun _ => c) x)).
    split; [apply crossup_scalar|]. split; [apply crossdown_scalar|]. split.
    + intros ts Hu Hd. eapply cross_scan_disjoint; eauto.
    + intros t0 H0. split; apply Hfirst; auto using le_nan_l, ge_nan_l.
  - exists (cross_scan gt le nan nan x (values s)),
           (cross_scan lt ge nan nan x (values s)).
    split; [now apply crossup_series|]. split; [now apply crossdown_series|]. split.
    + intros ts Hu Hd. eapply cross_scan_disjoint; eauto.
    + intros t0 H0. split; apply Hfirst; auto using le_nan_l, ge_nan_l.
Qed.

Lemma crossup_crossdown_disjoint_witness :
  NoDup (index demo_series) /\ aligned demo_series (Scalar half) /\
  exists up dn,
    crossup demo_series (Scalar half) = Ok up /\
    crossdown demo_series (Scalar half) = Ok dn /\
    (forall ts, In ts up -> ~ In ts dn) /\
    (forall t0, hd_error (index demo_series) = Some t0 -> ~ In t0 up /\ ~ In t0 dn).
Proof.
  assert (ND : NoDup (index demo_series)).
  { simpl. repeat constructor; simpl; intuition lia. }
  split; [exact ND|]. split; [exact I|].
  apply (crossup_crossdown_disjoint demo_series (Scalar half) ND I).
Defined.

End CrossingFacts.

(* ------------------------------------------------------------------ *)

Module OhlcScanFacts.

Import Generators FloatFacts PandasFacts.
Local Open Scope Z_scope.

Ltac solve_index :=
  unfold column;
  repeat first [ rewrite index_shift_from
               | rewrite index_map_values
               | rewrite index_zip_pure by solve_index ];
  reflexivity.

Ltac zip_step :=
  match goal with
  | |- context [zip_values ?f ?a ?b] =>
      rewrite (zip_values_same f a b) by solve_index; cbn [bind]
  end.

Section OhlcScan.

Variable self : RangeBreakoutDetector.

Let U (X : Frame) : Series float64 :=
  map_values (fun v => add v (rbd_threshold self)) (column RangeTop X).
Let B (X : Frame) : Series float64 :=
  map_values (fun v => sub v (rbd_threshold self)) (column RangeBot X).
Let picked {A} (X : Series A) (m : Series bool) : list timestamp :=
  index (map_values fst
           (filter (fun ivm : timestamp * (A * bool) => snd (snd ivm))
                   (zip_pure (fun v (b : bool) => (v, b)) X m))).
Let b1_bU ph pU (X : Frame) : Series bool :=
  zip_pure le (shift_from ph (column high X)) (shift_from pU (U X)).
Let b1_aL pl pB (X : Frame) : Series bool :=
  zip_pure ge (shift_from pl (column low X)) (shift_from pB (B X)).
Let l_o ph pU X := zip_pure andb (b1_bU ph pU X) (zip_pure gt (column open X) (U X)).
Let s_o pl pB X := zip_pure andb (b1_aL pl pB X) (zip_pure lt (column open X) (B X)).
Let l_c ph pU X :=
  zip_pure andb (zip_pure orb (b1_bU ph pU X) (zip_pure le (column open X) (U X)))
           (zip_pure gt (column close X) (U X)).
Let s_c pl pB X :=
  zip_pure andb (zip_pure orb (b1_aL pl pB X) (zip_pure ge (column open X) (B X)))
           (zip_pure lt (column close X) (B X)).

Lemma picked_long_open ph pU pl pB X :
  picked X (l_o ph pU X)
  = ohlc_scan self (fun ph pU _ _ r => long_open self ph pU r) ph pU pl pB X.
Proof.
  revert ph pU pl pB. induction X as [|[i r] X IH]; intros; [reflexivity|].
  cbn. unfold long_open, up_band.
  destruct (le ph pU && gt (open r) (add (RangeTop r) (rbd_threshold self)));
    cbn; f_equal; apply IH.
Qed.

Lemma picked_short_open ph pU pl pB X :
  picked X (s_o pl pB X)
  = ohlc_scan self (fun _ _ pl pB r => short_open self pl pB r) ph pU pl pB X.
Proof.
  revert ph pU pl pB. induction X as [|[i r] X IH]; intros; [reflexivity|].
  cbn. unfold short_open, dn_band.
  destruct (ge pl pB && lt (open r) (sub (RangeBot r) (rbd_threshold self)));
    cbn; f_equal; apply IH.
Qed.

Lemma picked_long_close ph pU pl pB X :
  picked X (zip_pure andb (l_c ph pU X) (not_ (l_o ph pU X)))
  = ohlc_scan self (fun ph pU _ _ r =>
                      long_close self ph pU r && negb (long_open self ph pU r))
              ph pU pl pB X.
Proof.
  revert ph pU pl pB. induction X as [|[i r] X IH]; intros; [reflexivity|].
  cbn. unfold long_close, long_open, up_band.
  match goal with |- context [if ?c then _ else _] => destruct c end;
    cbn; f_equal; apply IH.
Qed.

Lemma picked_short_close ph pU pl pB X :
  picked X (zip_pure andb (s_c pl pB X) (not_ (s_o pl pB X)))
  = ohlc_scan self (fun _ _ pl pB r =>
                      short_close self pl pB r && negb (short_open self pl pB r))
              ph pU pl pB X.
Proof.
  revert ph pU pl pB. induction X as [|[i r] X IH]; intros; [reflexivity|].
  cbn. unfold short_close, short_open, dn_band.
  match goal with |- context [if ?c then _ else _] => destruct c end;
    cbn; f_equal; apply IH.
Qed.

Lemma ohlc_streams_scan X :
  ohlc_streams self X =
  Ok (ohlc_scan self (fun ph pU _ _ r => long_open self ph pU r) nan nan nan nan X,
      ohlc_scan self (fun ph pU _ _ r =>
                        long_close self ph pU r && negb (long_open self ph pU r))
                nan nan nan nan X,
      ohlc_scan self (fun _ _ pl pB r => short_open self pl pB r) nan nan nan nan X,
      ohlc_scan self (fun _ _ pl pB r =>
                        short_close self pl pB r && negb (short_open self pl pB r))
                nan nan nan nan X).
Proof.
  unfold ohlc_streams, compare, and_, or_, select, not_, shift1.
  repeat zip_step.
  rewrite <- (picked_long_open nan nan nan nan X).
  rewrite <- (picked_long_close nan nan nan nan X).
  rewrite <- (picked_short_open nan nan nan nan X).
  rewrite <- (picked_short_close nan nan nan nan X).
  reflexivity.
Qed.

End OhlcScan.

End OhlcScanFacts.

(* ------------------------------------------------------------------ *)

Module EventFacts.

Import Generators FloatFacts PandasFacts OhlcScanFacts.
Local Open Scope Z_scope.

Lemma le_not_gt (a b : float64) : le a b = true -> gt a b = false.
Proof.
  unfold le, gt, SFleb, SFltb. rewrite (SFcompare_antisym a b).
  destruct (SFcompare a b) as [[]|]; simpl; congruence.
Qed.

Lemma ge_not_lt (a b : float64) : ge a b = true -> lt a b = false.
Proof.
  unfold ge, lt, SFleb, SFltb. rewrite (SFcompare_antisym a b).
  destruct (SFcompare a b) as [[]|]; simpl; congruence.
Qed.

Section ScanFacts.

Variable self : RangeBreakoutDetector.
Variable sel : float64 -> float64 -> float64 -> float64 -> ohlc -> bool.

Lemma ohlc_scan_in_index ph pU pl pB X t :
  In t (ohlc_scan self sel ph pU pl pB X) -> In t (index X).
Proof.
  revert ph pU pl pB. induction X as [|[i r] X IH]; intros ph pU pl pB H; simpl in *; [contradiction|].
  apply in_app_or in H as [H|H].
  - destruct (sel ph pU pl pB r); simpl in H; [|contradiction].
    destruct H as [H|[]]. now left.
  - right. eapply IH, H.
Qed.

Lemma ohlc_scan_NoDup ph pU pl pB X :
  NoDup (index X) -> NoDup (ohlc_scan self sel ph pU pl pB X).
Proof.
  revert ph pU pl pB. induction X as [|[i r] X IH]; intros ph pU pl pB ND; simpl in *.
  - constructor.
  - inversion ND as [|? ? Hi ND']; subst.
    destruct (sel ph pU pl pB r); simpl; [|now apply IH].
    constructor; [|now apply IH].
    intros H. apply Hi. eapply ohlc_scan_in_index, H.
Qed.

(** What the scan decides at a bar that has a predecessor. *)
Lemma ohlc_scan_at ph pU pl pB pre tp rp tk rk post :
  NoDup (index (pre ++ (tp, rp) :: (tk, rk) :: post)) ->
  (In tk (ohlc_scan self sel ph pU pl pB (pre ++ (tp, rp) :: (tk, rk) :: post))
   <-> sel (high rp) (up_band self rp) (low rp) (dn_band self rp) rk = true).
Proof.
  revert ph pU pl pB. induction pre as [|[i r] pre IH]; intros ph pU pl pB ND.
  - simpl in *.
    inversion ND as [|? ? Hp ND1]; subst. inversion ND1 as [|? ? Hk ND2]; subst.
    assert (Hne : tp <> tk) by (intros ->; apply Hp; now left).
    split.
    + intros H. apply in_app_or in H as [H|H].
      { destruct (sel ph pU pl pB rp); simpl in H; [|contradiction].
        destruct H as [H|[]]; contradiction. }
      apply in_app_or in H as [H|H].
      { destruct (sel _ _ _ _ rk); [reflexivity|contradiction]. }
      exfalso. apply Hk. eapply ohlc_scan_in_index, H.
    + intros H. apply in_or_app. right. apply in_or_app. left.
      rewrite H. now left.
  - simpl in ND. inversion ND as [|? ? Hi ND']; subst.
    simpl. rewrite <- (IH (high r) (up_band self r) (low r) (dn_band self r) ND').
    split.
    + intros H. apply in_app_or in H as [H|H]; [|exact H].
      destruct (sel ph pU pl pB r); simpl in H; [|contradiction].
      destruct H as [<-|[]]. exfalso. apply Hi.
      unfold index. rewrite map_app, in_app_iff. right. simpl. auto.
    + intros H. apply in_or_app. now right.
Qed.

End ScanFacts.

Lemma ohlc_scan_exclusive self sel1 sel2 ph pU pl pB X t :
  (forall a b c d r, sel1 a b c d r = true -> sel2 a b c d r = false) ->
  NoDup (index X) ->
  In t (ohlc_scan self sel1 ph pU pl pB X) ->
  In t (ohlc_scan self sel2 ph pU pl pB X) -> False.
Proof.
  intros Hex. revert ph pU pl pB.
  induction X as [|[i r] X IH]; intros ph pU pl pB ND H1 H2; simpl in *; [contradiction|].
  inversion ND as [|? ? Hi ND']; subst.
  apply in_app_or in H1. apply in_app_or in H2.
  assert (Hhead : forall (b : bool) sel,
             In t (if b then [i] else []) ->
             In t (ohlc_scan self sel (high r) (up_band self r) (low r) (dn_band self r) X) ->
             False).
  { intros b sel Ha Hb. destruct b; simpl in Ha; [|contradiction].
    destruct Ha as [<-|[]]. apply Hi. eapply ohlc_scan_in_index, Hb. }
  destruct H1 as [H1|H1], H2 as [H2|H2].
  - destruct (sel1 ph pU pl pB r) eqn:E; simpl in H1; [|contradiction].
    rewrite (Hex _ _ _ _ _ E) in H2. contradiction.
  - apply (Hhead _ _ H1 H2).
  - apply (Hhead _ _ H2 H1).
  - eapply IH; eauto.
Qed.

(** * Counting events *)

Lemma count_events_app t v a b :
  count_events t v (a ++ b) = (count_events t v a + count_events t v b)%nat.
Proof. unfold count_events. now rewrite filter_app, length_app. Qed.

Lemma count_events_insert t v e l :
  count_events t v (insert_keyed e l) = count_events t v (e :: l).
Proof.
  induction l as [|h l IH]; [reflexivity|].
  simpl. destruct (fst e <=? fst h); [reflexivity|].
  change (h :: insert_keyed e l) with ([h] ++ insert_keyed e l).
  change (e :: h :: l) with ([e] ++ [h] ++ l).
  change (e :: l) with ([e] ++ l) in IH.
  rewrite !count_events_app in *. lia.
Qed.

Lemma count_events_sorted t v l :
  count_events t v (sort_keyed l) = count_events t v l.
Proof.
  unfold sort_keyed. induction l as [|e l IH]; [reflexivity|].
  simpl. rewrite count_events_insert.
  change (e :: fold_right insert_keyed [] l) with ([e] ++ fold_right insert_keyed [] l).
  change (e :: l) with ([e] ++ l).
  now rewrite !count_events_app, IH.
Qed.

Lemma count_events_other t v w idx :
  v <> w -> count_events t v (const_series w idx) = 0%nat.
Proof.
  intros H. unfold count_events.
  induction idx as [|i idx IH]; [reflexivity|].
  simpl. replace (w =? v) with false by (symmetry; apply Z.eqb_neq; congruence).
  now rewrite andb_false_r.
Qed.

Lemma count_events_absent t v idx :
  ~ In t idx -> count_events t v (const_series v idx) = 0%nat.
Proof.
  unfold count_events. induction idx as [|i idx IH]; intros H; [reflexivity|].
  simpl in *. replace (i =? t) with false by (symmetry; apply Z.eqb_neq; tauto).
  simpl. apply IH. tauto.
Qed.

Lemma count_events_once t v idx :
  NoDup idx -> In t idx -> count_events t v (const_series v idx) = 1%nat.
Proof.
  intros ND. induction ND as [|i idx Hi ND IH]; intros H; [contradiction|].
  destruct H as [->|H].
  - change (const_series v (t :: idx)) with ([(t, v)] ++ const_series v idx).
    rewrite count_events_app, (count_events_absent t v idx Hi).
    unfold count_events. simpl. now rewrite !Z.eqb_refl.
  - change (const_series v (i :: idx)) with ([(i, v)] ++ const_series v idx).
    rewrite count_events_app, (IH H).
    unfold count_events. simpl.
    replace (i =? t) with false; [reflexivity|].
    symmetry. apply Z.eqb_neq. intros ->. contradiction.
Qed.

Lemma index_add_NoDup idx d : NoDup idx -> NoDup (index_add idx d).
Proof.
  intros ND. unfold index_add. induction ND as [|i idx Hi ND IH]; simpl; constructor; auto.
  rewrite in_map_iff. intros [j [Hj Hin]]. assert (j = i) by lia. subst. contradiction.
Qed.

Lemma index_add_In idx d t : In (t + d) (index_add idx d) <-> In t idx.
Proof.
  unfold index_add. rewrite in_map_iff. split.
  - intros [j [Hj Hin]]. assert (j = t) by lia. now subst.
  - intros H. now exists t.
Qed.

End EventFacts.

(* ------------------------------------------------------------------ *)

Module BreakoutFacts.

Import Generators FloatFacts PandasFacts OhlcScanFacts EventFacts.
Local Open Scope Z_scope.

Lemma adjacent_bars {A} (X : list A) k a b :
  nth_error X k = Some a -> nth_error X (S k) = Some b ->
  exists pre post, X = pre ++ a :: b :: post.
Proof.
  intros Ha Hb. destruct (nth_error_split X k Ha) as [pre [rest [-> Hlen]]].
  exists pre. subst k.
  replace (S (List.length pre)) with (List.length pre + 1)%nat in Hb by lia.
  rewrite nth_error_app2 in Hb by lia.
  replace (List.length pre + 1 - List.length pre)%nat with 1%nat in Hb by lia.
  destruct rest as [|b' post]; simpl in Hb; [discriminate|].
  injection Hb as ->. now exists post.
Qed.

(** C2.  OHLC mode of the range breakout detector, on bars with distinct
    timestamps and a pre-close shift that is not negative and shorter than
    the distance of any two bars.  A bar that follows a bar whose high is at
    or below its widened top band, opens at or below its own widened top band
    and closes above it, gives exactly one [+1] event timestamped at the
    bar's timestamp plus the pre-close shift.  No bar is selected by both the
    break-on-open and the break-on-close stream, upward or downward. *)
Theorem ohlc_break_on_close (pcs : Frame -> Z) self X k tp rp tk rk :
  NoDup (index X) ->
  pre_close_inside X (pcs X) ->
  nth_error X k = Some (tp, rp) ->
  nth_error X (S k) = Some (tk, rk) ->
  le (high rp) (up_band self rp) = true ->
  le (open rk) (up_band self rk) = true ->
  gt (close rk) (up_band self rk) = true ->
  exists out lo lc so sc,
    ohlc_streams self X = Ok (lo, lc, so, sc) /\
    _ohlc_breaks pcs self X = Ok out /\
    count_events (tk + pcs X) 1 out = 1%nat /\
    (forall t, In t lo -> ~ In t lc) /\
    (forall t, In t so -> ~ In t sc).
Proof.
  intros ND [Hpc0 Hpc] Hp Hk Hhigh Hopen Hclose.
  destruct (adjacent_bars X k _ _ Hp Hk) as [pre [post HX]].
  pose proof (ohlc_streams_scan self X) as Hst.
  set (lo := ohlc_scan self (fun ph pU _ _ r => long_open self ph pU r)
                       nan nan nan nan X) in *.
  set (lc := ohlc_scan self (fun ph pU _ _ r =>
                long_close self ph pU r && negb (long_open self ph pU r))
                       nan nan nan nan X) in *.
  set (so := ohlc_scan self (fun _ _ pl pB r => short_open self pl pB r)
                       nan nan nan nan X) in *.
  set (sc := ohlc_scan self (fun _ _ pl pB r =>
                short_close self pl pB r && negb (short_open self pl pB r))
                       nan nan nan nan X) in *.
  eexists _, lo, lc, so, sc.
  split; [exact Hst|].
  split; [unfold _ohlc_breaks; rewrite Hst; reflexivity|].
  assert (Hin_k : In tk (index X)).
  { rewrite HX. unfold index. rewrite map_app, in_app_iff. right. simpl. auto. }
  assert (Hlo : ~ In (tk + pcs X) lo).
  { intros H.
    assert (Hj : In (tk + pcs X) (index X)) by (eapply ohlc_scan_in_index, H).
    assert (Heq : tk + pcs X = tk).
    { destruct (Z.lt_trichotomy tk (tk + pcs X)) as [Hlt|[Heq|Hgt]]; [|lia|lia].
      specialize (Hpc tk (tk + pcs X) Hin_k Hj Hlt). lia. }
    rewrite Heq in H. unfold lo in H. rewrite HX in H, ND.
    apply (ohlc_scan_at self _ nan nan nan nan pre tp rp tk rk post ND) in H.
    unfold long_open in H. rewrite (le_not_gt _ _ Hopen), andb_false_r in H.
    discriminate. }
  assert (Hlc : In tk lc).
  { unfold lc. rewrite HX. rewrite HX in ND.
    apply (ohlc_scan_at self _ nan nan nan nan pre tp rp tk rk post ND).
    unfold long_close, long_open.
    rewrite Hhigh, Hclose, (le_not_gt _ _ Hopen). reflexivity. }
  split.
  - unfold srows. rewrite count_events_sorted. simpl.
    rewrite !count_events_app.
    rewrite (count_events_absent _ 1 lo Hlo).
    rewrite (count_events_once _ 1 (index_add lc (pcs X))).
    + rewrite !count_events_other by lia. reflexivity.
    + apply index_add_NoDup. now apply ohlc_scan_NoDup.
    + now apply index_add_In.
  - split; intros t H1 H2.
    + eapply (ohlc_scan_exclusive self _ _ nan nan nan nan X t); [| exact ND | exact H1 | exact H2].
      intros a b c d r E. cbv beta in *. rewrite E. apply andb_false_r.
    + eapply (ohlc_scan_exclusive self _ _ nan nan nan nan X t); [| exact ND | exact H1 | exact H2].
      intros a b c d r E. cbv beta in *. rewrite E. apply andb_false_r.
Qed.

Lemma ohlc_break_on_close_witness :
  exists out lo lc so sc,
    ohlc_streams demo_detector demo_frame = Ok (lo, lc, so, sc) /\
    _ohlc_breaks demo_pre_close demo_detector demo_frame = Ok out /\
    count_events (86400 + demo_pre_close demo_frame) 1 out = 1%nat /\
    (forall t, In t lo -> ~ In t lc) /\
    (forall t, In t so -> ~ In t sc).
Proof.
  apply (ohlc_break_on_close demo_pre_close demo_detector demo_frame 0
           0 (bar one zero half one zero half)
           86400 (bar one zero half two half two)).
  - simpl. repeat constructor; simpl; intuition lia.
  - split; [unfold demo_pre_close; lia|].
    simpl. unfold demo_pre_close. intros ta tb Ha Hb Hlt. lia.
  - reflexivity.
  - reflexivity.
  - reflexivity.
  - reflexivity.
  - reflexivity.
Defined.

End BreakoutFacts.

(* ------------------------------------------------------------------ *)

Module ConstructorFacts.

Import Generators FloatFacts.
Local Open Scope Z_scope.

Lemma le_at_most (a b : float64) : le a b = true <-> at_most a b.
Proof.
  unfold le, SFleb, at_most.
  destruct (SFcompare a b) as [[]|]; intuition congruence.
Qed.

Lemma ge_at_least (a b : float64) : ge a b = true <-> at_least a b.
Proof.
  unfold ge, SFleb, at_least. rewrite (SFcompare_antisym a b).
  destruct (SFcompare a b) as [[]|]; simpl; intuition congruence.
Qed.

Lemma gt_exceeds (a b : float64) : gt a b = true <-> exceeds a b.
Proof.
  unfold gt, SFltb, exceeds. rewrite (SFcompare_antisym a b).
  destruct (SFcompare a b) as [[]|]; simpl; intuition congruence.
Qed.

(** C7.  [InternalBarStrength] refuses its threshold exactly when it is at
    most 0 or at least 0.5, so [0.5] and [0] are refused and [0.3] is
    accepted; [OsiMomentum] refuses its threshold exactly when it exceeds 1,
    so [1.5] is refused. *)
Theorem constructor_threshold_checks :
  (forall tf t tz,
      InternalBarStrength_init tf t tz = Error ValueError
      <-> (at_most t zero \/ at_least t half)) /\
  (forall tf t tz,
      ~ (at_most t zero \/ at_least t half) ->
      InternalBarStrength_init tf t tz = Ok (mk_InternalBarStrength tf t tz true)) /\
  (forall tf tz, InternalBarStrength_init tf half tz = Error ValueError) /\
  (forall tf tz, InternalBarStrength_init tf zero tz = Error ValueError) /\
  (forall tf tz, InternalBarStrength_init tf three_tenths tz
                 = Ok (mk_InternalBarStrength tf three_tenths tz true)) /\
  (forall p s t, OsiMomentum_init p s t = Error ValueError <-> exceeds t one) /\
  (forall p s t, ~ exceeds t one ->
                 OsiMomentum_init p s t = Ok (mk_OsiMomentum p s t)) /\
  (forall p s, OsiMomentum_init p s three_halves = Error ValueError).
Proof.
  assert (Hibs : forall tf t tz,
             InternalBarStrength_init tf t tz = Error ValueError
             <-> (at_most t zero \/ at_least t half)).
  { intros tf t tz. unfold InternalBarStrength_init.
    rewrite <- le_at_most, <- ge_at_least.
    destruct (ge t half), (le t zero); simpl; intuition discriminate. }
  assert (Hosi : forall p s t, OsiMomentum_init p s t = Error ValueError <-> exceeds t one).
  { intros p s t. unfold OsiMomentum_init. rewrite <- gt_exceeds.
    destruct (gt t one); intuition discriminate. }
  split; [exact Hibs|]. split.
  { intros tf t tz H. unfold InternalBarStrength_init.
    destruct (ge t half || le t zero) eqn:E; [|reflexivity].
    exfalso. apply H. rewrite <- le_at_most, <- ge_at_least.
    apply orb_true_iff in E. tauto. }
  split; [reflexivity|]. split; [reflexivity|]. split; [reflexivity|].
  split; [exact Hosi|]. split; [|reflexivity].
  intros p s t H. unfold OsiMomentum_init.
  destruct (gt t one) eqn:E; [|reflexivity].
  exfalso. apply H. now apply gt_exceeds.
Qed.

End ConstructorFacts.

(* ------------------------------------------------------------------ *)

Module ResolverFacts.

Import Multisim.
Local Open Scope string_scope.

Lemma append_assoc (a b c : string) : (a ++ b) ++ c = a ++ (b ++ c).
Proof. induction a as [|x a IH]; simpl; [reflexivity|]. now rewrite IH. Qed.

(** C8.  Every unit produced by [_recognize], for every setup, has a signal
    source or a tracker that is not [None]. *)
Theorem recognize_units_nonnull (setup : pyobj) (data : market_data) (name : string) :
  Forall has_source_or_tracker (_recognize setup data name).
Proof.
  revert name. induction setup using setup_ind; intros nm; simpl.
  - constructor.
  - induction H as [|[n v] items Hv _ IH]; [constructor|].
    apply Forall_app. split; [apply Hv | exact IH].
  - assert (Hall : forall j,
      Forall has_source_or_tracker
        ((fix enumerate_ (j : nat) (l : list pyobj) : list SimSetup :=
            match l with
            | [] => []
            | s :: l' =>
                (_recognize s data ((nm ++ "/") ++ str j) ++ enumerate_ (S j) l')%list
            end) j elems)).
    { induction H as [|s elems Hs _ IH]; intros j; [constructor|].
      apply Forall_app. split; [apply Hs | apply IH]. }
    destruct elems as [|s0 [|s1 [|s2 elems]]]; try apply (Hall 0%nat).
    destruct (_is_signal_or_generator s0 && _is_tracker s1) eqn:E; [|apply (Hall 0%nat)].
    apply Forall_cons; [|apply Forall_nil].
    apply andb_true_iff in E as [E _]. left. simpl.
    destruct s0; simpl in E; discriminate.
  - apply Forall_cons; [|apply Forall_nil]. right. discriminate.
  - apply Forall_cons; [|apply Forall_nil]. left. discriminate.
  - apply Forall_cons; [|apply Forall_nil]. left. discriminate.
  - apply Forall_nil.
Qed.

(** C10.  A two-element sequence holding a tracker and then a generator is
    not paired: it is walked element by element and gives a unit with the
    tracker alone, named [name + "/0"], and a unit with the generator alone,
    named [name + "/1"]. *)
Theorem recognize_tracker_then_generator
        (data : market_data) (name : string) (t g : nat) (c : bool) :
  _recognize (PyList [PyTracker t; PyEstimator g c]) data name =
  [ mk_SimSetup PyNone UKNOWN (PyTracker t) (name ++ "/0");
    mk_SimSetup (PyEstimator g c) ESTIMATOR PyNone (name ++ "/1") ].
Proof.
  simpl. unfold SimSetup_init. simpl.
  rewrite !append_assoc. reflexivity.
Qed.


(** C3, amended.  The mapping [{"a": [genX, trackerY], "b": [seriesZ]}] is
    recognised as exactly two units, in insertion order: [genX] paired with
    [trackerY] under the name [name + "/a"], then [seriesZ] without tracker
    under the name [name + "/b/0"], the one-element list being walked element
    by element. *)
Theorem recognize_example_mapping
        (data : market_data) (name : string) (g : nat) (c : bool) (t z : nat) :
  _recognize (PyDict [ ("a", PyList [PyEstimator g c; PyTracker t]);
                       ("b", PyList [PySignal z]) ]) data name =
  [ mk_SimSetup (PyEstimator g c) ESTIMATOR (PyTracker t) (name ++ "/a");
    mk_SimSetup (PySignal z) SIGNAL PyNone (name ++ "/b/0") ].
Proof.
  simpl. unfold SimSetup_init. simpl.
  rewrite !append_assoc. reflexivity.
Qed.

Lemma recognize_example_mapping_counterexample :
  ~ (exists u1 u2,
        _recognize (PyDict [ ("a", PyList [PyEstimator 1 false; PyTracker 2]);
                             ("b", PyList [PySignal 3]) ]) [] "prj" = [u1; u2]
        /\ ends_with (name u1) "/a"
        /\ signals u1 = PyEstimator 1 false /\ trackers u1 = PyTracker 2
        /\ ends_with (name u2) "/b"
        /\ signals u2 = PySignal 3 /\ trackers u2 = PyNone).
Proof.
  intros [u1 [u2 [H [_ [_ [_ [[p Hp] _]]]]]]].
  simpl in H. injection H as <- <-. simpl in Hp.
  repeat (destruct p as [|? p]; simpl in Hp; try discriminate;
          injection Hp as _ Hp).
Qed.

End ResolverFacts.

(* ------------------------------------------------------------------ *)

Module StubFacts.

Import Multisim ResolverFacts.
Local Open Scope string_scope.

Lemma dict_set_fresh (t : timestamp) (v : float64) (ss : Series float64) :
  ~ In t (index ss) -> Dict.set Z.eqb t v ss = (ss ++ [(t, v)])%list.
Proof.
  induction ss as [|[k w] ss IH]; intros H; simpl in *; [reflexivity|].
  destruct (Z.eqb_spec k t) as [->|_]; [tauto|].
  f_equal. apply IH. tauto.
Qed.

Lemma stub_loop_rows (d : DataFrame) (dx : nat) (js : list nat) (ss : Series float64) :
  Forall (fun j => (j * dx < List.length d)%nat) js ->
  NoDup (index ss ++ map (fun j => nth (j * dx) d 0%Z) js) ->
  stub_loop d dx js ss
  = Ok (ss ++ map (fun j => (nth (j * dx) d 0%Z, nan)) js)%list.
Proof.
  revert ss. induction js as [|j js IH]; intros ss Hr ND; simpl.
  - now rewrite app_nil_r.
  - inversion Hr as [|? ? Hj Hr']; subst.
    unfold index_at. rewrite (nth_error_nth' d 0%Z Hj). simpl.
    simpl in ND.
    assert (Hfresh : ~ In (nth (j * dx) d 0%Z) (index ss)).
    { intros Hin. apply NoDup_remove_2 in ND. apply ND.
      apply in_or_app. now left. }
    rewrite (dict_set_fresh _ _ _ Hfresh).
    rewrite IH; [now rewrite <- app_assoc | exact Hr' |].
    unfold index in *. rewrite map_app. simpl. rewrite <- app_assoc. simpl.
    apply NoDup_remove_1 in ND as ND1.
    apply NoDup_remove_2 in ND as ND2.
    clear - ND ND1 ND2.
    revert ND1 ND2. generalize (map (fun j0 : nat => nth (j0 * dx) d 0%Z) js) as l2.
    generalize (map fst ss) as l1. generalize (nth (j * dx) d 0%Z) as a.
    intros a l1. induction l1 as [|b l1 IH]; intros l2 H1 H2; simpl in *.
    + constructor; assumption.
    + inversion H1 as [|? ? Hb H1']; subst.
      constructor.
      * rewrite in_app_iff in *. simpl. intros [H|[H|H]]; [tauto| |tauto].
        subst. apply H2. now left.
      * apply IH; [exact H1'|]. tauto.
Qed.

Lemma stub_rows_NoDup (d : DataFrame) (dx : nat) (js : list nat) :
  NoDup d -> NoDup js -> (1 <= dx)%nat ->
  Forall (fun j => (j * dx < List.length d)%nat) js ->
  NoDup (map (fun j => nth (j * dx) d 0%Z) js).
Proof.
  intros NDd NDj Hdx. induction NDj as [|j js Hj NDj IH]; intros Hr; simpl; [constructor|].
  inversion Hr as [|? ? Hlt Hr']; subst.
  constructor; [|now apply IH].
  rewrite in_map_iff. intros [j' [Heq Hin]].
  assert (Hlt' : (j' * dx < List.length d)%nat)
    by (rewrite Forall_forall in Hr'; now apply Hr').
  rewrite NoDup_nth in NDd. specialize (NDd _ _ Hlt' Hlt Heq).
  assert (j' = j) by nia. subst. contradiction.
Qed.

Lemma index_first_last (d : DataFrame) :
  d <> [] -> index_at d 0 = Ok (hd 0%Z d) /\ index_last d = Ok (last d 0%Z).
Proof.
  destruct d as [|t d]; [congruence|]. intros _. split; [reflexivity|].
  simpl. f_equal. revert t. induction d as [|u d IH]; intros t; [reflexivity|].
  simpl in *. destruct d; [reflexivity|]. apply IH.
Qed.

Lemma start_stop_sigs_rows (i : string) (d : DataFrame) (rest : market_data)
      (start stop : option timestamp) :
  NoDup d ->
  (1 <= stub_step d start stop)%nat ->
  (100 * stub_step d start stop < List.length d)%nat ->
  start_stop_sigs ((i, d) :: rest) start stop
  = Ok (Some [(i, stub_rows d (stub_step d start stop))]).
Proof.
  intros ND Hdx Hlen.
  assert (Hne : d <> []) by (intros ->; simpl in Hlen; lia).
  destruct (index_first_last d Hne) as [Hfirst Hlast].
  unfold start_stop_sigs.
  assert (Hs : match start with None => index_at d 0 | Some s => Ok s end
               = Ok (or_default start (hd 0%Z d)))
    by (destruct start; [reflexivity|exact Hfirst]).
  assert (Ht : match stop with None => index_last d | Some s => Ok s end
               = Ok (or_default stop (last d 0%Z)))
    by (destruct stop; [reflexivity|exact Hlast]).
  rewrite Hs. cbn [bind]. rewrite Ht. cbn [bind].
  fold (stub_step d start stop).
  set (dx := stub_step d start stop) in *.
  assert (Hr : Forall (fun j => (j * dx < List.length d)%nat) (seq 0 101)).
  { apply Forall_forall. intros j Hj. apply in_seq in Hj. nia. }
  rewrite stub_loop_rows; [reflexivity | exact Hr |].
  simpl (index []). rewrite app_nil_l.
  apply stub_rows_NoDup; auto. apply seq_NoDup.
Qed.

(** * The window of an increasing index *)

Lemma increasing_lower (a : timestamp) (d : DataFrame) :
  Sorted Z.lt d -> (a <= hd a d)%Z -> Forall (fun t => (a <= t)%Z) d.
Proof.
  intros Hs. revert a. induction Hs as [|t d Hs IH Hhd]; intros a Ha; [constructor|].
  simpl in Ha. constructor; [exact Ha|].
  destruct d as [|u d]; [constructor|].
  inversion Hhd; subst. apply IH. simpl. lia.
Qed.

Lemma increasing_NoDup (d : DataFrame) : Sorted Z.lt d -> NoDup d.
Proof.
  induction 1 as [|t d Hs IH Hhd]; [constructor|].
  constructor; [|exact IH].
  intros Hin. destruct d as [|u d]; [contradiction|].
  inversion Hhd; subst.
  assert (H : Forall (fun x => (u <= x)%Z) (u :: d))
    by (apply increasing_lower; simpl; [exact Hs|lia]).
  rewrite Forall_forall in H. specialize (H t Hin). lia.
Qed.

(** On an increasing index, the rows up to [b] are the first rows. *)
Lemma upto_prefix (b : timestamp) (d : DataFrame) :
  Sorted Z.lt d ->
  filter (fun t => (t <=? b)%Z) d
  = firstn (List.length (filter (fun t => (t <=? b)%Z) d)) d.
Proof.
  induction 1 as [|t d Hs IH Hhd]; [reflexivity|]. simpl.
  destruct (Z.leb_spec t b) as [Hle|Hgt]; simpl; [now rewrite <- IH|].
  assert (Hnone : filter (fun x => (x <=? b)%Z) d = []).
  { destruct d as [|u d]; [reflexivity|]. inversion Hhd as [|? ? Htu]; subst.
    assert (H : Forall (fun x => (u <= x)%Z) (u :: d))
      by (apply increasing_lower; simpl; [exact Hs|lia]).
    clear - H Hgt Htu. induction H as [|x l Hx _ IHl]; [reflexivity|].
    simpl. destruct (Z.leb_spec x b); [lia|exact IHl]. }
  rewrite Hnone. reflexivity.
Qed.

Lemma slice_rows_upto (a b : timestamp) (d : DataFrame) :
  Forall (fun t => (a <= t)%Z) d ->
  slice_rows d a b = filter (fun t => (t <=? b)%Z) d.
Proof.
  unfold slice_rows. induction 1 as [|x l Hx _ IH]; [reflexivity|]. simpl.
  destruct (Z.leb_spec a x); [|lia]. simpl. now rewrite IH.
Qed.

(** A window that does not start after the first row is made of the first
    rows of the frame. *)
Lemma window_prefix (d : DataFrame) (start stop : option timestamp) :
  Sorted Z.lt d ->
  (or_default start (hd 0 d) <= hd 0 d)%Z ->
  stub_window d start stop = firstn (List.length (stub_window d start stop)) d.
Proof.
  intros Hs Ha. unfold stub_window.
  rewrite slice_rows_upto; [now apply upto_prefix|].
  destruct d as [|u d]; [constructor|]. apply increasing_lower; [exact Hs|].
  simpl in *. exact Ha.
Qed.

Lemma window_bounds (d : DataFrame) (start stop : option timestamp) (t : timestamp) :
  In t (stub_window d start stop) ->
  (or_default start (hd 0 d) <= t /\ t <= or_default stop (last d 0))%Z.
Proof.
  unfold stub_window, slice_rows. intros H. apply filter_In in H as [_ H].
  apply andb_true_iff in H as [H1 H2].
  apply Z.leb_le in H1. apply Z.leb_le in H2. auto.
Qed.

Lemma stub_step_window (d : DataFrame) (start stop : option timestamp) :
  stub_step d start stop = (List.length (stub_window d start stop) / 100)%nat.
Proof. reflexivity. Qed.

(** C4, amended.  For a unit whose signal source is [None], market data of
    one frame [d] with an increasing index, and a window from [start] to
    [stop] that does not start after the first row of [d]: let [n] be the
    number of rows in the window and [dx] be [n // 100].  When [1 <= dx] and
    [n] is no multiple of 100, the call to the backtest engine carries a
    stub with, for every entry of the data, a column of exactly 101
    placeholders, each once and all NaN, labelled within [start] and
    [stop]: the rows [0], [dx], ..., [100 * dx] of the window, from its
    first row on, fewer than a hundred rows of it being left after the last
    placeholder. *)
Theorem null_source_stub (ext outcome : Type)
        (for_interval : pyobj -> option timestamp -> option timestamp -> result pyobj)
        (fit_predict : pyobj -> market_data -> result ext)
        (getitem_slice : pyobj -> timestamp -> timestamp -> result ext)
        (z_backtest : backtest_call ext -> result outcome)
        (s : SimSetup) (i : string) (d : DataFrame)
        (start stop : option timestamp) (broker : string) (spreads : float64) :
  signals s = PyNone ->
  Sorted Z.lt d ->
  (or_default start (hd 0 d) <= hd 0 d)%Z ->
  (1 <= stub_step d start stop)%nat ->
  (100 * stub_step d start stop < List.length (stub_window d start stop))%nat ->
  exists f,
    _proc_run for_interval fit_predict getitem_slice z_backtest
              s [(i, d)] start stop broker spreads
    = z_backtest (mk_backtest_call (Stub (Some f)) [(i, d)]
                                   broker spreads (name s) true (trackers s))
    /\ spanning_stub [(i, d)] start stop f.
Proof.
  intros Hnull Hs Ha Hdx Hn.
  pose proof (increasing_NoDup d Hs) as ND.
  pose proof (window_prefix d start stop Hs Ha) as Hw.
  set (dx := stub_step d start stop) in *.
  set (w := stub_window d start stop) in *.
  assert (Hwd : (List.length w <= List.length d)%nat)
    by (unfold w, stub_window, slice_rows; apply filter_length_le).
  assert (Hlen : (100 * dx < List.length d)%nat) by lia.
  assert (Hrow : forall j, (j <= 100)%nat ->
                   nth_error w (j * dx) = nth_error d (j * dx)).
  { intros j Hj. rewrite Hw, nth_error_firstn.
    destruct (Nat.ltb_spec (j * dx) (List.length w)) as [_|Hge]; [reflexivity|nia]. }
  exists [(i, stub_rows d dx)]. split.
  - unfold _proc_run, get_signals. rewrite Hnull.
    rewrite (start_stop_sigs_rows i d [] start stop ND Hdx Hlen). reflexivity.
  - intros i' d' [E|[]]. injection E as <- <-.
    exists (stub_rows d dx). split; [now left|].
    assert (Hidx : forall j, (j <= 100)%nat ->
                     nth_error (index (stub_rows d dx)) j = nth_error w (j * dx)).
    { intros j Hj. rewrite (Hrow j Hj).
      unfold stub_rows, index. rewrite map_map. cbn [fst].
      rewrite nth_error_map, nth_error_seq.
      destruct (Nat.ltb_spec j 101) as [_|Hge]; [|lia]. simpl.
      symmetry. apply nth_error_nth'. nia. }
    split; [unfold stub_rows; now rewrite length_map, length_seq|].
    split; [|split; [|split; [|split]]].
    + unfold stub_rows, index. rewrite map_map. cbn [fst].
      apply stub_rows_NoDup; auto; [apply seq_NoDup|].
      apply Forall_forall. intros j Hj. apply in_seq in Hj. nia.
    + unfold stub_rows, values. rewrite map_map. cbn [snd].
      apply Forall_forall. intros v Hv. apply in_map_iff in Hv as [j [<- _]].
      reflexivity.
    + apply Forall_forall. intros t Ht.
      apply In_nth_error in Ht as [j Hj].
      assert (Hj100 : (j <= 100)%nat).
      { match type of Hj with
        | nth_error ?l _ = _ =>
            assert (H : (j < List.length l)%nat)
              by (apply nth_error_Some; intros E;
                  discriminate (eq_trans (eq_sym E) Hj))
        end.
        unfold stub_rows, index in H.
        rewrite !length_map, length_seq in H. lia. }
      pose proof (eq_trans (eq_sym (Hidx j Hj100)) Hj) as Hj'.
      apply nth_error_In in Hj'. now apply (window_bounds d start stop).
    + exact Hidx.
    + fold w. fold dx. unfold dx. rewrite stub_step_window. fold w.
      pose proof (Nat.div_mod_eq (List.length w) 100).
      pose proof (Nat.mod_upper_bound (List.length w) 100). lia.
Qed.

Lemma ticks_NoDup n : NoDup (ticks n).
Proof.
  unfold ticks. apply Injective_map_NoDup; [|apply seq_NoDup].
  intros a b H. lia.
Qed.

Lemma ticks_from_increasing (a n : nat) : Sorted Z.lt (map Z.of_nat (seq a n)).
Proof.
  revert a. induction n as [|n IH]; intros a; simpl; [constructor|].
  constructor; [apply IH|]. destruct n; simpl; constructor. lia.
Qed.

Lemma ticks_increasing n : Sorted Z.lt (ticks n).
Proof. apply ticks_from_increasing. Qed.

Lemma null_source_stub_witness :
  exists f,
    _proc_run demo_for_interval demo_fit_predict demo_slice demo_backtest
              demo_unit demo_data None (Some 230%Z) "broker" zero
    = demo_backtest (mk_backtest_call (Stub (Some f)) demo_data
                                      "broker" zero "prj/t" true (PyTracker 0))
    /\ spanning_stub demo_data None (Some 230%Z) f.
Proof.
  apply (null_source_stub unit (backtest_call unit)
           demo_for_interval demo_fit_predict demo_slice demo_backtest
           demo_unit "A" (ticks 250) None (Some 230%Z) "broker" zero).
  - reflexivity.
  - apply ticks_increasing.
  - simpl. lia.
  - vm_compute. lia.
  - vm_compute. lia.
Defined.

(** The claim as it is worded fails on a frame of 250 rows labelled
    [0 .. 249] with the window [0, 249]: the column passed to the engine has
    101 placeholders and ends at the label 200. *)
Lemma null_source_stub_counterexample :
  exists f ss,
    _proc_run demo_for_interval demo_fit_predict demo_slice demo_backtest
              demo_unit demo_data (Some 0%Z) (Some 249%Z) "broker" zero
    = Ok (mk_backtest_call (Stub (Some f)) demo_data
                           "broker" zero "prj/t" true (PyTracker 0))
    /\ f = [("A", ss)]
    /\ List.length ss = 101%nat
    /\ last (index ss) 0%Z = 200%Z
    /\ ~ claimed_stub demo_data 0%Z 249%Z f.
Proof.
  eexists. eexists. split; [vm_compute; reflexivity|]. split; [reflexivity|].
  split; [reflexivity|]. split; [reflexivity|].
  intros H. destruct (H "A" (ticks 250) (or_introl eq_refl)) as [ss [Hin [Hlen _]]].
  destruct Hin as [Heq|[]]. injection Heq as <-. vm_compute in Hlen. discriminate.
Qed.

End StubFacts.

(* ------------------------------------------------------------------ *)

Module DictFacts.

Import Management.
Local Open Scope Z_scope.

(** * Dictionaries *)

Section DictFacts.

Context {K V : Type}.
Variable eqb : K -> K -> bool.
Hypothesis eqb_eq : forall a b, eqb a b = true <-> a = b.

Lemma eqb_refl_ (a : K) : eqb a a = true.
Proof. now apply eqb_eq. Qed.

Lemma eqb_neq_ (a b : K) : a <> b -> eqb a b = false.
Proof. intros H. destruct (eqb a b) eqn:E; [|reflexivity]. apply eqb_eq in E. contradiction. Qed.

Lemma get_set_same (k : K) (v : V) (d : list (K * V)) :
  Dict.get eqb k (Dict.set eqb k v d) = Some v.
Proof.
  induction d as [|[k' v'] d IH]; simpl.
  - now rewrite eqb_refl_.
  - destruct (eqb k' k) eqn:E; simpl; rewrite E; [reflexivity|exact IH].
Qed.

Lemma get_set_other (k k' : K) (v : V) (d : list (K * V)) :
  k <> k' -> Dict.get eqb k' (Dict.set eqb k v d) = Dict.get eqb k' d.
Proof.
  intros Hne. induction d as [|[j w] d IH]; simpl.
  - now rewrite (eqb_neq_ _ _ Hne).
  - destruct (eqb j k) eqn:E; simpl.
    + apply eqb_eq in E. subst j. now rewrite (eqb_neq_ _ _ Hne).
    + destruct (eqb j k'); [reflexivity|exact IH].
Qed.

Lemma get_in_keys (k : K) (v : V) (d : list (K * V)) :
  Dict.get eqb k d = Some v -> In k (Dict.keys d).
Proof.
  induction d as [|[j w] d IH]; simpl; [discriminate|].
  destruct (eqb j k) eqn:E; [apply eqb_eq in E; auto|auto].
Qed.

Lemma get_none_keys (k : K) (d : list (K * V)) :
  Dict.get eqb k d = None -> ~ In k (Dict.keys d).
Proof.
  induction d as [|[j w] d IH]; simpl; [tauto|].
  destruct (eqb j k) eqn:E; [discriminate|].
  intros H [->|Hin]; [rewrite eqb_refl_ in E; discriminate | now apply IH].
Qed.

Lemma keys_set (k : K) (v : V) (d : list (K * V)) :
  Dict.keys (Dict.set eqb k v d)
  = match Dict.get eqb k d with
    | Some _ => Dict.keys d
    | None => (Dict.keys d ++ [k])%list
    end.
Proof.
  induction d as [|[j w] d IH]; simpl; [reflexivity|].
  destruct (eqb j k) eqn:E; simpl; [reflexivity|].
  rewrite IH. now destruct (Dict.get eqb k d).
Qed.

Lemma keys_set_NoDup (k : K) (v : V) (d : list (K * V)) :
  NoDup (Dict.keys d) -> NoDup (Dict.keys (Dict.set eqb k v d)).
Proof.
  intros ND. rewrite keys_set. destruct (Dict.get eqb k d) eqn:G; [exact ND|].
  apply get_none_keys in G.
  apply NoDup_rev in ND. rewrite <- (rev_involutive (Dict.keys d ++ [k])).
  apply NoDup_rev. rewrite rev_app_distr. simpl. constructor; [|exact ND].
  now rewrite <- in_rev.
Qed.

End DictFacts.

Lemma string_eqb_eq (a b : string) : String.eqb a b = true <-> a = b.
Proof. apply String.eqb_eq. Qed.

(** * Sorting by key *)

Section SortFacts.

Context {V : Type}.

Lemma get_insert_keyed (k : Z) (e : Z * V) (l : list (Z * V)) :
  Dict.get Z.eqb k (insert_keyed e l) = Dict.get Z.eqb k (e :: l).
Proof.
  induction l as [|h l IH]; [reflexivity|].
  simpl. destruct (fst e <=? fst h) eqn:E; [reflexivity|].
  destruct e as [ke ve], h as [kh vh]. simpl in *.
  rewrite IH. simpl.
  destruct (Z.eqb_spec kh k) as [->|Hh], (Z.eqb_spec ke k) as [->|He]; try reflexivity.
  rewrite Z.leb_refl in E. discriminate.
Qed.

Lemma get_sort_keyed (k : Z) (d : list (Z * V)) :
  Dict.get Z.eqb k (sort_keyed d) = Dict.get Z.eqb k d.
Proof.
  unfold sort_keyed. induction d as [|[j v] d IH]; [reflexivity|].
  simpl. rewrite get_insert_keyed. simpl. now rewrite IH.
Qed.

Lemma keys_insert_keyed_in (x : Z) (e : Z * V) (l : list (Z * V)) :
  In x (Dict.keys (insert_keyed e l)) <-> x = fst e \/ In x (Dict.keys l).
Proof.
  induction l as [|h l IH]; simpl; [intuition|].
  destruct (fst e <=? fst h); simpl; [intuition|].
  rewrite IH. intuition.
Qed.

Lemma keys_sort_keyed_in (x : Z) (d : list (Z * V)) :
  In x (Dict.keys (sort_keyed d)) <-> In x (Dict.keys d).
Proof.
  unfold sort_keyed. induction d as [|e d IH]; simpl; [tauto|].
  rewrite keys_insert_keyed_in, IH. intuition.
Qed.

Lemma insert_keyed_sorted (e : Z * V) (l : list (Z * V)) :
  Sorted Z.lt (Dict.keys l) -> ~ In (fst e) (Dict.keys l) ->
  Sorted Z.lt (Dict.keys (insert_keyed e l)).
Proof.
  induction l as [|h l IH]; intros Hs Hf; simpl.
  - repeat constructor.
  - simpl in *. destruct (Z.leb_spec (fst e) (fst h)) as [Hle|Hgt]; simpl.
    + constructor; [exact Hs|]. constructor. lia.
    + inversion Hs as [|? ? Hs' Hhd]; subst.
      constructor; [apply IH; tauto|].
      destruct l as [|h' l]; simpl.
      * constructor. exact Hgt.
      * destruct (fst e <=? fst h'); simpl; constructor; [exact Hgt|].
        now inversion Hhd.
Qed.

Lemma sort_keyed_sorted (d : list (Z * V)) :
  NoDup (Dict.keys d) -> Sorted Z.lt (Dict.keys (sort_keyed d)).
Proof.
  induction d as [|e d IH]; intros ND; simpl; [constructor|].
  inversion ND as [|? ? Hf ND']; subst.
  apply insert_keyed_sorted; [now apply IH|].
  fold (sort_keyed d). now rewrite keys_sort_keyed_in.
Qed.

End SortFacts.

Lemma sorted_lt_NoDup (l : list Z) : Sorted Z.lt l -> NoDup l.
Proof.
  intros Hs. apply Sorted_StronglySorted in Hs; [|intros a b c; lia].
  induction Hs as [|a l Hs IH Hall]; constructor; [|exact IH].
  intros Hin. rewrite Forall_forall in Hall. specialize (Hall a Hin). lia.
Qed.

End DictFacts.

(* ------------------------------------------------------------------ *)

Module IndexFacts.

Import Management ResolverFacts DictFacts.
Local Open Scope Z_scope.

Lemma get_or_empty_set_same {V} (k : string) (v : list V) d :
  get_or_empty k (Dict.set String.eqb k v d) = v.
Proof. unfold get_or_empty. now rewrite (get_set_same _ string_eqb_eq). Qed.

Lemma get_or_empty_set_other {V} (k k' : string) (v : list V) d :
  k <> k' -> get_or_empty k' (Dict.set String.eqb k v d) = get_or_empty k' d.
Proof. intros H. unfold get_or_empty. now rewrite (get_set_other _ string_eqb_eq). Qed.

Lemma lookup_add_record (idx : index) p r k sym pth p' r' k' :
  lookup (add_record idx (p, r, k, sym, pth)) p' r' k'
  = if String.eqb p p' && String.eqb r r' && (k =? k')
    then Some (mk_mstruct r sym pth)
    else lookup idx p' r' k'.
Proof.
  unfold lookup, add_record. cbv zeta.
  destruct (String.eqb_spec p p') as [<-|Hp]; cbn [andb].
  - rewrite get_or_empty_set_same.
    destruct (String.eqb_spec r r') as [<-|Hr]; cbn [andb].
    + rewrite get_or_empty_set_same, get_sort_keyed.
      destruct (Z.eqb_spec k k') as [<-|Hk].
      * apply (get_set_same _ Z.eqb_eq).
      * now apply (get_set_other _ Z.eqb_eq).
    + now rewrite get_or_empty_set_other.
  - now rewrite get_or_empty_set_other.
Qed.

Lemma lookup_fold_add (es : list entry) (idx : index) p r k :
  lookup (fold_left add_record es idx) p r k
  = match last_record es p r k with
    | Some m => Some m
    | None => lookup idx p r k
    end.
Proof.
  revert idx. induction es as [|[[[[p' r'] k'] sym] pth] es IH]; intros idx;
    cbn [fold_left last_record].
  - reflexivity.
  - rewrite IH. destruct (last_record es p r k); [reflexivity|].
    rewrite lookup_add_record.
    now destruct (String.eqb p' p && String.eqb r' r && (k' =? k)).
Qed.

Lemma get_or_empty_spec {V} (k : string) (d : list (string * list V)) :
  Dict.get String.eqb k d = Some (get_or_empty k d)
  \/ (Dict.get String.eqb k d = None /\ get_or_empty k d = []).
Proof. unfold get_or_empty. destruct (Dict.get String.eqb k d); auto. Qed.

Lemma index_ordered_add (idx : index) (e : entry) :
  index_ordered idx -> index_ordered (add_record idx e).
Proof.
  destruct e as [[[[p r] k] sym] pth]. intros [NDp Hruns]. unfold add_record.
  cbv zeta.
  assert (Hruns0 : NoDup (Dict.keys (get_or_empty p idx)) /\
            forall r d, Dict.get String.eqb r (get_or_empty p idx) = Some d ->
                        Sorted Z.lt (Dict.keys d)).
  { destruct (get_or_empty_spec p idx) as [G|[_ ->]].
    - exact (Hruns _ _ G).
    - split; [constructor|]. intros ? ? H. discriminate. }
  destruct Hruns0 as [NDr Hd].
  assert (Hra : NoDup (Dict.keys (get_or_empty r (get_or_empty p idx)))).
  { destruct (get_or_empty_spec r (get_or_empty p idx)) as [G|[_ ->]].
    - apply sorted_lt_NoDup. exact (Hd _ _ G).
    - constructor. }
  split; [now apply (keys_set_NoDup _ string_eqb_eq)|].
  intros p' runs' G.
  destruct (String.eqb_spec p p') as [<-|Hp].
  - rewrite (get_set_same _ string_eqb_eq) in G. injection G as <-.
    split; [now apply (keys_set_NoDup _ string_eqb_eq)|].
    intros r' d G.
    destruct (String.eqb_spec r r') as [<-|Hr].
    + rewrite (get_set_same _ string_eqb_eq) in G. injection G as <-.
      apply sort_keyed_sorted. now apply (keys_set_NoDup _ Z.eqb_eq).
    + rewrite (get_set_other _ string_eqb_eq) in G by exact Hr. exact (Hd _ _ G).
  - rewrite (get_set_other _ string_eqb_eq) in G by exact Hp. exact (Hruns _ _ G).
Qed.

Lemma index_ordered_fold (es : list entry) (idx : index) :
  index_ordered idx -> index_ordered (fold_left add_record es idx).
Proof.
  revert idx. induction es as [|e es IH]; intros idx H; simpl; [exact H|].
  apply IH, index_ordered_add, H.
Qed.

Lemma index_ordered_empty : index_ordered [].
Proof. split; [constructor|]. intros ? ? H. discriminate. Qed.

Lemma collect_loop_parsed (recs : list string) (es : list entry) (idx : index) :
  Forall2 (fun s e => parse_key s = Ok e) recs es ->
  collect_loop recs idx = Ok (fold_left add_record es idx).
Proof.
  intros H. revert idx. induction H as [|s e recs es Hs _ IH]; intros idx; simpl.
  - reflexivity.
  - rewrite Hs. simpl. apply IH.
Qed.

(** * Keys *)

Lemma split_plain (c : ascii) (s : string) :
  has_char c s = false -> split c s = [s].
Proof.
  induction s as [|x s IH]; simpl; [reflexivity|].
  intros H. apply orb_false_iff in H as [Hx Hs].
  rewrite Hx, (IH Hs). reflexivity.
Qed.

Lemma split_append (c : ascii) (a b : string) :
  has_char c a = false ->
  split c (a ++ String c b) = a :: split c b.
Proof.
  induction a as [|x a IH]; simpl.
  - intros _. now rewrite Ascii.eqb_refl.
  - intros H. apply orb_false_iff in H as [Hx Ha].
    rewrite Hx, (IH Ha). reflexivity.
Qed.

Local Open Scope string_scope.

Lemma has_char_append c a b :
  has_char c (a ++ b) = has_char c a || has_char c b.
Proof. induction a as [|x a IH]; simpl; [reflexivity|]. now rewrite IH, orb_assoc. Qed.

Lemma parse_key_form (s : string) (e : entry) :
  key_form s e -> parse_key s = Ok e.
Proof.
  intros [p a ks sym r k Hp [Ha1 Ha2] [Hk1 Hk2] [Hs1 Hs2] Hr Hint].
  unfold parse_key.
  assert (Hseg : has_char "/" (a ++ "." ++ ks ++ "." ++ sym) = false).
  { rewrite !has_char_append, Ha1, Hk1, Hs1. reflexivity. }
  assert (Hsplit : split "/" (run_key p a ks sym r)
                   = ["runs"; p; a ++ "." ++ ks ++ "." ++ sym; r]).
  { unfold run_key.
    change ("runs/" ++ p ++ "/" ++ a ++ "." ++ ks ++ "." ++ sym ++ "/" ++ r)
      with ("runs" ++ String "/" (p ++ "/" ++ a ++ "." ++ ks ++ "." ++ sym ++ "/" ++ r)).
    rewrite split_append by reflexivity.
    change ("/" ++ a ++ "." ++ ks ++ "." ++ sym ++ "/" ++ r)
      with (String "/" (a ++ "." ++ ks ++ "." ++ sym ++ "/" ++ r)).
    rewrite split_append by exact Hp.
    replace (a ++ "." ++ ks ++ "." ++ sym ++ "/" ++ r)
      with ((a ++ "." ++ ks ++ "." ++ sym) ++ String "/" r)
      by (rewrite !append_assoc; reflexivity).
    rewrite split_append by exact Hseg.
    rewrite split_plain by exact Hr. reflexivity. }
  rewrite Hsplit. cbn [tl app unpack4 bind].
  assert (Hdot : split "." (a ++ "." ++ ks ++ "." ++ sym) = [a; ks; sym]).
  { change ("." ++ ks ++ "." ++ sym) with (String "." (ks ++ "." ++ sym)).
    rewrite split_append by exact Ha2.
    change ("." ++ sym) with (String "." sym).
    rewrite split_append by exact Hk2.
    rewrite split_plain by exact Hs2. reflexivity. }
  rewrite Hdot. cbn [item nth_error bind]. rewrite Hint. reflexivity.
Qed.

(** C5, amended.  When every listed key has the form
    [runs/{project}/{prefix}.{sequence_index}.{symbol}/{run_id}], the index
    is built without error; under a project and a run id it holds, for each
    sequence index, the record (run id, symbol, key) of the key listed last
    for them, and nothing else; every project and every run is listed once
    and the records of a run are in increasing order of sequence index. *)
Theorem collect_data_index (st : storage) (host : option string) (es : list entry) :
  Forall2 key_form (z_ls "runs/" host st) es ->
  exists idx,
    _collect_data st host = Ok idx /\
    (forall p r k, lookup idx p r k = last_record es p r k) /\
    index_ordered idx.
Proof.
  intros H. exists (fold_left add_record es []).
  split; [|split].
  - unfold _collect_data. apply collect_loop_parsed.
    eapply Forall2_impl; [|exact H]. intros s e. apply parse_key_form.
  - intros p r k. rewrite lookup_fold_add.
    now destruct (last_record es p r k).
  - apply index_ordered_fold, index_ordered_empty.
Qed.

Local Open Scope string_scope.

Lemma collect_data_index_witness :
  exists idx,
    _collect_data demo_storage None = Ok idx /\
    (forall p r k, lookup idx p r k = last_record demo_entries p r k) /\
    index_ordered idx.
Proof.
  apply (collect_data_index demo_storage None demo_entries).
  repeat constructor.
  - apply (key_form_intro "prj" "sim" "2" "EURUSD" "run1" 2); repeat split; reflexivity.
  - apply (key_form_intro "prj" "sim" "0" "GBPUSD" "run1" 0); repeat split; reflexivity.
  - apply (key_form_intro "prj" "sim" "1" "EURUSD" "run2" 1); repeat split; reflexivity.
Defined.

Lemma collect_data_index_counterexample :
  let st := [(None, "runs/prj/run1/0.EURUSD")] in
  claimed_collect_data st None
  = Ok [("prj", [("run1", [(0%Z, mk_mstruct "run1" "EURUSD" "runs/prj/run1/0.EURUSD")])])]
  /\ _collect_data st None = Error IndexError
  /\ _collect_data st None <> claimed_collect_data st None.
Proof. cbv zeta. split; [reflexivity|]. split; [reflexivity|]. discriminate. Qed.

End IndexFacts.

(* ------------------------------------------------------------------ *)

Module ManagerFacts.

Import Management DictFacts IndexFacts.
Local Open Scope string_scope.

(** * Storage *)

Lemma z_del_in (key : string) (st : storage) (hk : option string * string) :
  In hk (z_del key st) <-> In hk st /\ hk <> (None, key).
Proof.
  unfold z_del. rewrite filter_In. destruct hk as [[h|] k]; simpl.
  - intuition discriminate.
  - destruct (String.eqb_spec k key) as [->|Hne]; simpl.
    + intuition discriminate.
    + intuition congruence.
Qed.

Lemma fold_z_del_in (items : run_dict) (st : storage) (hk : option string * string) :
  In hk (fold_left (fun st kr => z_del (path (snd kr)) st) items st)
  <-> In hk st /\ forall k r, In (k, r) items -> hk <> (None, path r).
Proof.
  revert st. induction items as [|[k0 r0] items IH]; intros st; simpl.
  - intuition.
  - rewrite IH, z_del_in. simpl. split.
    + intros [[H1 H2] H3]. split; [exact H1|].
      intros k r [E|Hin]; [injection E as <- <-; exact H2 | eapply H3, Hin].
    + intros [H1 H2]. split; [split; [exact H1|]|].
      * apply (H2 k0 r0). now left.
      * intros k r Hin. apply (H2 k r). now right.
Qed.

Lemma get_In {V} (k : string) (v : V) (d : list (string * V)) :
  Dict.get String.eqb k d = Some v -> In (k, v) d.
Proof.
  induction d as [|[j w] d IH]; simpl; [discriminate|].
  destruct (String.eqb_spec j k) as [->|Hne].
  - intros H. injection H as ->. now left.
  - intros H. right. now apply IH.
Qed.

(** C9.  On the run data that the manager of the host [remote] hands out,
    [delete] does not remove the artifact of the run's record: [run_data]
    passes no host on and [z_del] is called without one, so that the default
    host is addressed.  Over a store that keeps the key on both hosts, the
    artifact of [remote] is still stored afterwards and the one of the
    default host is gone.  The run's own collection is rebound to an empty
    list, and the index the manager sees is what it was. *)
Theorem delete_on_named_host :
  let key := "runs/prj/sim.7.EURUSD/run1" in
  let m := fst twin_remote in
  let w := snd twin_remote in
  SimulationsManager_init (Some "remote") (mk_world [] twin_storage) = Ok (m, w) /\
  sm_host m = Some "remote" /\
  exists run,
    run_data m "prj" "run1" = Ok run /\
    srd_host run = None /\
    items_of (srd_p run) (w_heap w) = Ok [(7%Z, mk_mstruct "run1" "EURUSD" key)] /\
    exists run' w',
      delete run w = Ok (run', w') /\
      srd_p run' = PList [] /\
      w_storage w'
      = [(Some "remote", key); (None, "runs/prj/sim.0.GBPUSD/run2")] /\
      In (Some "remote", key) (w_storage w') /\
      z_ls "runs/" (Some "remote") (w_storage w') = [key] /\
      manager_index m w' = manager_index m w.
Proof.
  cbv zeta. split; [reflexivity|]. split; [reflexivity|].
  eexists. split; [reflexivity|]. split; [reflexivity|]. split; [reflexivity|].
  eexists. eexists. split; [reflexivity|]. split; [reflexivity|].
  split; [reflexivity|]. split; [now left|]. split; reflexivity.
Qed.

(** * Lookups *)

Lemma projects_pure (m : SimulationsManager) : snd (projects m) = m.
Proof. reflexivity. Qed.

Lemma runs_for_known (m : SimulationsManager) (prj : string) runs :
  Dict.get String.eqb prj (sm_p m) = Some runs ->
  runs_for m prj = (Dict.keys runs, m).
Proof. intros H. unfold runs_for. now rewrite H. Qed.

Lemma runs_for_unknown (m : SimulationsManager) (prj : string) :
  Dict.get String.eqb prj (sm_p m) = None ->
  runs_for m prj
  = ([], mk_SimulationsManager (sm_host m) (sm_p m ++ [(prj, [])])%list).
Proof.
  intros H. unfold runs_for. rewrite H. do 2 f_equal.
  induction (sm_p m) as [|[j w] d IH]; simpl in *; [reflexivity|].
  destruct (String.eqb j prj); [discriminate|]. f_equal. apply IH, H.
Qed.

(** C6.  At a project name missing from the index, [runs_for] raises no
    error: it returns an empty list and leaves the name in the index, so that
    [projects] lists it afterwards. *)
Theorem runs_for_unknown_project_inserts :
  Dict.mem String.eqb "nope" (sm_p demo_manager) = false /\
  fst (projects demo_manager) = ["prj"] /\
  fst (runs_for demo_manager "nope") = [] /\
  fst (projects (snd (runs_for demo_manager "nope"))) = ["prj"; "nope"] /\
  snd (runs_for demo_manager "nope") <> demo_manager.
Proof.
  repeat split; try reflexivity. vm_compute. discriminate.
Qed.

Local Open Scope list_scope.

Lemma refs_below_mono (n n' : nat) refs :
  (n <= n')%nat -> refs_below n refs = true -> refs_below n' refs = true.
Proof.
  unfold refs_below. intros Hle H. rewrite forallb_forall in *.
  intros x Hx. specialize (H x Hx). apply Nat.ltb_lt in H. apply Nat.ltb_lt. lia.
Qed.

Lemma alloc_runs_spec (runs : list (string * run_dict)) (h : heap) :
  exists refs,
    alloc_runs runs h = (refs, (h ++ map snd runs)%list) /\
    refs_below (List.length (h ++ map snd runs)) refs = true /\
    forall more,
      deref_runs ((h ++ map snd runs) ++ more) refs
      = map (fun rd => (fst rd, Some (snd rd))) runs.
Proof.
  revert h. induction runs as [|[r d] runs IH]; intros h.
  - exists []. simpl. rewrite app_nil_r. auto.
  - destruct (IH (h ++ [d])%list) as [refs [Ha [Hb Hd]]].
    exists ((r, List.length h) :: refs). simpl.
    rewrite Ha. rewrite <- app_assoc in *. simpl in *.
    split; [reflexivity|]. split.
    + rewrite Hb, andb_true_r. apply Nat.ltb_lt. rewrite length_app. simpl. lia.
    + intros more. rewrite Hd. f_equal. f_equal.
      rewrite <- app_assoc. rewrite nth_error_app2 by lia.
      now rewrite Nat.sub_diag.
Qed.

Lemma alloc_index_spec (idx : index) (h : heap) :
  exists refs h',
    alloc_index idx h = (refs, (h ++ h')%list) /\
    forallb (fun pr => refs_below (List.length (h ++ h')) (snd pr)) refs = true /\
    forall more,
      map (fun pr => (fst pr, deref_runs ((h ++ h') ++ more) (snd pr))) refs
      = index_view idx.
Proof.
  revert h. induction idx as [|[p runs] idx IH]; intros h.
  - exists [], []. simpl. rewrite app_nil_r. auto.
  - destruct (alloc_runs_spec runs h) as [refs [Ha [Hb Hd]]].
    destruct (IH (h ++ map snd runs)%list) as [rest [h' [Ha' [Hb' Hd']]]].
    exists ((p, refs) :: rest), (map snd runs ++ h')%list.
    simpl. rewrite Ha, Ha'. rewrite !app_assoc.
    split; [reflexivity|]. split.
    + simpl. rewrite Hb', andb_true_r.
      eapply refs_below_mono; [|exact Hb]. rewrite !length_app. lia.
    + intros more. simpl. rewrite Hd'. f_equal. f_equal.
      rewrite <- (app_assoc (h ++ map snd runs)). apply Hd.
Qed.

(** A manager is built with every reference allocated, and sees through
    its references the index computed by [_collect_data]. *)
Lemma SimulationsManager_init_index (host : option string) (w w' : world)
      (m : SimulationsManager) :
  SimulationsManager_init host w = Ok (m, w') ->
  manager_wf m w' = true /\
  w_storage w' = w_storage w /\
  exists idx, _collect_data (w_storage w) host = Ok idx /\
              manager_index m w' = index_view idx.
Proof.
  unfold SimulationsManager_init.
  destruct (_collect_data (w_storage w) host) as [idx|e]; simpl; [|discriminate].
  destruct (alloc_index_spec idx (w_heap w)) as [refs [h' [Ha [Hb Hd]]]].
  rewrite Ha. intros H. injection H as <- <-.
  split; [exact Hb|]. split; [reflexivity|].
  exists idx. split; [reflexivity|].
  unfold manager_index. simpl. specialize (Hd []). now rewrite app_nil_r in Hd.
Qed.

End ManagerFacts.

(* ------------------------------------------------------------------ *)

Module FloatOrderFacts.

Import Generators FloatFacts.
Local Open Scope Z_scope.

(** * Order of floats *)

Lemma pos_compare_cont_Eq (a b : positive) :
  PosDef.Pos.compare_cont Eq a b = Pos.compare a b.
Proof. reflexivity. Qed.

Ltac float_step :=
  match goal with
  | s : bool |- _ => destruct s
  | H : context [(?a ?= ?b)%Z] |- _ => destruct (Z.compare_spec a b)
  | |- context [(?a ?= ?b)%Z] => destruct (Z.compare_spec a b)
  | H : context [PosDef.Pos.compare_cont Eq ?a ?b] |- _ =>
      change (PosDef.Pos.compare_cont Eq a b) with (Pos.compare a b) in H;
      destruct (Pos.compare_spec a b)
  | |- context [PosDef.Pos.compare_cont Eq ?a ?b] =>
      change (PosDef.Pos.compare_cont Eq a b) with (Pos.compare a b);
      destruct (Pos.compare_spec a b)
  end; simpl in *; subst; try congruence; try lia.

Ltac float_cases := intros; simpl in *; try congruence; repeat float_step.

Lemma lt_trans (a b c : float64) : lt a b = true -> lt b c = true -> lt a c = true.
Proof.
  unfold lt, SFltb.
  destruct a as [sa|sa| |sa ma ea], b as [sb|sb| |sb mb eb], c as [sc|sc| |sc mc ec];
    simpl; try congruence; float_cases.
Qed.

Lemma le_trans (a b c : float64) : le a b = true -> le b c = true -> le a c = true.
Proof.
  unfold le, SFleb.
  destruct a as [sa|sa| |sa ma ea], b as [sb|sb| |sb mb eb], c as [sc|sc| |sc mc ec];
    simpl; try congruence; float_cases.
Qed.

Lemma lt_le_trans (a b c : float64) : lt a b = true -> le b c = true -> lt a c = true.
Proof.
  unfold le, lt, SFleb, SFltb.
  destruct a as [sa|sa| |sa ma ea], b as [sb|sb| |sb mb eb], c as [sc|sc| |sc mc ec];
    simpl; try congruence; float_cases.
Qed.

Lemma lt_not_le (a b : float64) : lt a b = true -> le b a = false.
Proof.
  unfold lt, le, SFltb, SFleb. rewrite (SFcompare_antisym a b).
  destruct (SFcompare a b) as [[]|]; simpl; congruence.
Qed.

Lemma lt_irrefl (a : float64) : lt a a = false.
Proof.
  destruct (lt a a) eqn:E; [|reflexivity].
  pose proof (gt_lt_exclusive a a) as H. unfold gt in H. unfold lt in *.
  rewrite (H E) in E. discriminate.
Qed.

End FloatOrderFacts.

(* ------------------------------------------------------------------ *)

Module PositionFacts.

Import Generators FloatFacts PandasFacts OhlcScanFacts EventFacts FloatOrderFacts.
Local Open Scope Z_scope.

(** * Series read position by position *)

Lemma nth_error_map_values {A B} (f : A -> B) (s : Series A) (k : nat) :
  nth_error (map_values f s) k
  = option_map (fun iv => (fst iv, f (snd iv))) (nth_error s k).
Proof. unfold map_values. apply nth_error_map. Qed.

Lemma nth_error_zip_pure {A B C} (f : A -> B -> C) (a : Series A) (b : Series B) (k : nat) :
  nth_error (zip_pure f a b) k
  = match nth_error a k, nth_error b k with
    | Some (i, u), Some (_, w) => Some (i, f u w)
    | _, _ => None
    end.
Proof.
  unfold zip_pure. revert b k.
  induction a as [|[i u] a IH]; intros [|[j w] b] [|k]; simpl; try reflexivity.
  - now destruct (nth_error a k) as [[? ?]|].
  - apply IH.
Qed.

Lemma nth_error_shift_from {A} (p : A) (s : Series A) (k : nat) :
  nth_error (shift_from p s) k
  = match nth_error s k with
    | Some (i, _) =>
        Some (i, match k with
                 | O => p
                 | S k' => match nth_error s k' with
                           | Some (_, v) => v
                           | None => p
                           end
                 end)
    | None => None
    end.
Proof.
  revert p k. induction s as [|[i v] s IH]; intros p [|k]; simpl; try reflexivity.
  rewrite IH. destruct (nth_error s k) as [[j w]|] eqn:E; [|reflexivity].
  destruct k as [|k']; [reflexivity|].
  cbn [nth_error]. destruct (nth_error s k') as [[? ?]|] eqn:E'; [reflexivity|].
  apply nth_error_None in E'.
  assert (H : nth_error s (S k') <> None) by (rewrite E; discriminate).
  apply nth_error_Some in H. lia.
Qed.

(** The labels selected by a mask labelled as the series. *)
Lemma where_labels (x : Series float64) (m : Series bool) :
  index m = index x ->
  exists l,
    where_ x m = Ok l /\
    (forall t, In t l <->
       exists k v, nth_error x k = Some (t, v) /\ nth_error m k = Some (t, true)).
Proof.
  intros Hidx. unfold where_, select.
  rewrite zip_values_same by (symmetry; exact Hidx). cbn [bind].
  eexists. split; [reflexivity|].
  intros t. unfold index, map_values. rewrite map_map. cbn [fst].
  rewrite in_map_iff. split.
  - intros [[i [v b]] [<- Hin]]. apply filter_In in Hin as [Hin Hb].
    simpl in Hb. subst b. apply In_nth_error in Hin as [k Hk].
    rewrite nth_error_zip_pure in Hk.
    destruct (nth_error x k) as [[i' v']|] eqn:Ex; [|discriminate].
    destruct (nth_error m k) as [[j b]|] eqn:Em; [|discriminate].
    injection Hk as -> -> ->. exists k, v. simpl. split; [exact Ex|].
    assert (Hj : nth_error (index m) k = Some j)
      by (unfold index; rewrite nth_error_map, Em; reflexivity).
    rewrite Hidx in Hj. unfold index in Hj. rewrite nth_error_map, Ex in Hj.
    simpl in Hj. congruence.
  - intros [k [v [Hx Hm]]]. exists (t, (v, true)). split; [reflexivity|].
    apply filter_In. split; [|reflexivity].
    apply (nth_error_In _ k). rewrite nth_error_zip_pure, Hx, Hm. reflexivity.
Qed.

Lemma label_position {A} (x : Series A) (k k' : nat) (t : timestamp) (v v' : A) :
  NoDup (index x) ->
  nth_error x k = Some (t, v) -> nth_error x k' = Some (t, v') -> k = k'.
Proof.
  intros ND H H'.
  assert (Hk : nth_error (index x) k = Some t)
    by (unfold index; now rewrite nth_error_map, H).
  assert (Hk' : nth_error (index x) k' = Some t)
    by (unfold index; now rewrite nth_error_map, H').
  rewrite NoDup_nth_error in ND. apply ND; [|congruence].
  apply nth_error_Some. congruence.
Qed.

(** * Merged events *)

Lemma insert_keyed_In {V} (e x : Z * V) (l : list (Z * V)) :
  In x (insert_keyed e l) <-> x = e \/ In x l.
Proof.
  induction l as [|h l IH]; simpl; [intuition|].
  destruct (fst e <=? fst h); simpl; [intuition|]. rewrite IH. intuition.
Qed.

Lemma sort_keyed_In {V} (x : Z * V) (l : list (Z * V)) :
  In x (sort_keyed l) <-> In x l.
Proof.
  unfold sort_keyed. induction l as [|e l IH]; simpl; [tauto|].
  rewrite insert_keyed_In, IH. intuition.
Qed.

Lemma events_of_srows (v : Z) (t : timestamp) (xs : list (Series Z)) :
  In t (events_of v (srows xs)) <-> exists s, In s xs /\ In (t, v) s.
Proof.
  unfold events_of, srows, index. rewrite in_map_iff. split.
  - intros [[t' v'] [<- Hin]]. apply filter_In in Hin as [Hin Hv].
    simpl in Hv. apply Z.eqb_eq in Hv. subst v'.
    apply sort_keyed_In, in_concat in Hin as [s [Hs Hin]]. now exists s.
  - intros [s [Hs Hin]]. exists (t, v). split; [reflexivity|].
    apply filter_In. split; [|simpl; apply Z.eqb_refl].
    apply sort_keyed_In, in_concat. now exists s.
Qed.

Lemma const_series_In (v w : Z) (t : timestamp) (idx : list timestamp) :
  In (t, v) (const_series w idx) <-> v = w /\ In t idx.
Proof.
  unfold const_series. rewrite in_map_iff. split.
  - intros [i [E Hi]]. injection E as -> ->. auto.
  - intros [-> Hi]. now exists t.
Qed.

(** The events of the two-stream merge every generator ends with. *)
Lemma events_of_long_short (longs shorts : list timestamp) (t : timestamp) :
  (In t (events_of 1 (srows [const_series 1 longs; const_series (-1) shorts]))
   <-> In t longs) /\
  (In t (events_of (-1) (srows [const_series 1 longs; const_series (-1) shorts]))
   <-> In t shorts).
Proof.
  split; rewrite events_of_srows; split.
  - intros [s [[<-|[<-|[]]] Hin]]; apply const_series_In in Hin as [E Hin];
      [exact Hin|discriminate].
  - intros H. exists (const_series 1 longs). split; [now left|].
    now apply const_series_In.
  - intros [s [[<-|[<-|[]]] Hin]]; apply const_series_In in Hin as [E Hin];
      [discriminate|exact Hin].
  - intros H. exists (const_series (-1) shorts). split; [right; now left|].
    now apply const_series_In.
Qed.

End PositionFacts.

(* ------------------------------------------------------------------ *)

Module EntryFacts.

Import Generators FloatFacts PandasFacts OhlcScanFacts EventFacts CrossingFacts FloatOrderFacts PositionFacts.
Local Open Scope Z_scope.

(** * Entries of the indicator generators *)

Lemma nth_error_shift1 (x : Series float64) (k : nat) (t : timestamp) (v : float64) :
  nth_error x k = Some (t, v) ->
  nth_error (shift1 x) k = Some (t, lag1 x k).
Proof.
  intros H. unfold shift1. rewrite nth_error_shift_from, H.
  destruct k as [|k']; [reflexivity|]. unfold lag1, value_at.
  now destruct (nth_error x k') as [[? ?]|].
Qed.

Lemma nth_error_shift2 (x : Series float64) (k : nat) (t : timestamp) (v : float64) :
  nth_error x k = Some (t, v) ->
  nth_error (shift2 x) k = Some (t, lag2 x k).
Proof.
  intros H. unfold shift2.
  rewrite (nth_error_shift1 (shift1 x) k t (lag1 x k))
    by (now apply nth_error_shift1 with (v := v)).
  f_equal. f_equal. destruct k as [|[|k']]; try reflexivity.
  - simpl. unfold value_at.
    destruct (nth_error (shift1 x) 0) as [[? ?]|] eqn:E; [|reflexivity].
    unfold shift1 in E. rewrite nth_error_shift_from in E.
    destruct (nth_error x 0) as [[? ?]|]; [|discriminate]. now injection E as _ <-.
  - simpl. unfold value_at at 1.
    assert (Hlt : (S k' < List.length x)%nat).
    { assert (Hs : nth_error x (S (S k')) <> None) by (rewrite H; discriminate).
      apply nth_error_Some in Hs. lia. }
    destruct (nth_error x (S k')) as [[i w]|] eqn:E;
      [|apply nth_error_None in E; lia].
    now rewrite (nth_error_shift1 x (S k') i w E).
Qed.

Ltac mask_at Hx :=
  repeat first
    [ rewrite nth_error_zip_pure
    | rewrite nth_error_map_values
    | rewrite (nth_error_shift2 _ _ _ _ Hx)
    | rewrite (nth_error_shift1 _ _ _ _ Hx)
    | rewrite Hx ];
  cbn [option_map fst snd].

Ltac index_goal :=
  unfold shift2, shift1, column;
  repeat first [ rewrite index_shift_from
               | rewrite index_map_values
               | rewrite index_zip_pure by index_goal ];
  reflexivity.

Ltac zip_pure_step :=
  match goal with
  | |- context [zip_values ?f ?a ?b] =>
      rewrite (zip_values_same f a b) by index_goal; cbn [bind]
  end.

Section OsiFacts.

Variable outstretched : Series float64 -> Z -> Z -> result (Series float64).

Lemma OsiMomentum_predict_reading (self : OsiMomentum) (price osi : Series float64) :
  outstretched price (osi_period self) (osi_smoothing self) = Ok osi ->
  exists longs shorts,
    OsiMomentum_predict outstretched self price
    = Ok (srows [const_series 1 longs; const_series (-1) shorts]) /\
    (forall t, In t longs <->
       exists k v, nth_error osi k = Some (t, v) /\
                   gt (lag2 osi k) (opp (osi_kt self))
                   && gt (lag1 osi k) (opp (osi_kt self))
                   && le v (opp (osi_kt self)) = true) /\
    (forall t, In t shorts <->
       exists k v, nth_error osi k = Some (t, v) /\
                   lt (lag2 osi k) (osi_kt self)
                   && lt (lag1 osi k) (osi_kt self)
                   && ge v (osi_kt self) = true).
Proof.
  intros Hosi. unfold OsiMomentum_predict. rewrite Hosi. cbn [bind].
  fold (osi_kt self). set (kt := osi_kt self).
  unfold compare, and_. cbn [bind].
  zip_pure_step. zip_pure_step.
  match goal with
  | |- context [where_ osi ?m] =>
      destruct (where_labels osi m ltac:(index_goal)) as [longs [Hl Hlong]];
      rewrite Hl; cbn [bind]
  end.
  zip_pure_step. zip_pure_step.
  match goal with
  | |- context [where_ osi ?m] =>
      destruct (where_labels osi m ltac:(index_goal)) as [shorts [Hs Hshort]];
      rewrite Hs; cbn [bind]
  end.
  exists longs, shorts. split; [reflexivity|]. split.
  - intros t. rewrite Hlong. split; intros [k [v [Hx Hm]]]; exists k, v;
      (split; [exact Hx|]); revert Hm; mask_at Hx; intros Hm.
    + now injection Hm.
    + now rewrite Hm.
  - intros t. rewrite Hshort. split; intros [k [v [Hx Hm]]]; exists k, v;
      (split; [exact Hx|]); revert Hm; mask_at Hx; intros Hm.
    + now injection Hm.
    + now rewrite Hm.
Qed.

End OsiFacts.

Lemma firstn_index_position {A} (n : nat) (x : Series A) (t : timestamp) :
  In t (firstn n (index x)) ->
  exists j v, (j < n)%nat /\ nth_error x j = Some (t, v).
Proof.
  revert x. induction n as [|n IH]; intros x H; [destruct (index x); contradiction|].
  destruct x as [|[i v] x]; simpl in H; [contradiction|].
  destruct H as [<-|H].
  - exists 0%nat, v. split; [lia|reflexivity].
  - destruct (IH x H) as [j [w [Hj Hx]]]. exists (S j), w. split; [lia|exact Hx].
Qed.

Lemma nth_error_label {A} (x : Series A) (k : nat) (t : timestamp) (v : A) :
  nth_error x k = Some (t, v) -> In t (index x).
Proof.
  intros H. unfold index. apply in_map_iff. exists (t, v).
  split; [reflexivity|]. eapply nth_error_In, H.
Qed.

Lemma gt_nan_l (b : float64) : gt nan b = false.
Proof. destruct b; reflexivity. Qed.

Lemma lt_nan_l (b : float64) : lt nan b = false.
Proof. reflexivity. Qed.

Section OsiEntries.

Variable outstretched : Series float64 -> Z -> Z -> result (Series float64).

(** X6.  [OsiMomentum.predict], when the indicator is computed over
    distinct labels: it succeeds; no timestamp carries both a [+1] and a
    [-1], whatever the threshold; the first two labels carry no event; and
    every event is on a label of the indicator. *)
Theorem OsiMomentum_entries (self : OsiMomentum) (price osi : Series float64) :
  outstretched price (osi_period self) (osi_smoothing self) = Ok osi ->
  NoDup (index osi) ->
  exists out,
    OsiMomentum_predict outstretched self price = Ok out /\
    (forall t, In t (events_of 1 out) -> ~ In t (events_of (-1) out)) /\
    (forall t, In t (firstn 2 (index osi)) ->
               ~ In t (events_of 1 out) /\ ~ In t (events_of (-1) out)) /\
    (forall t, In t (events_of 1 out) \/ In t (events_of (-1) out) ->
               In t (index osi)).
Proof.
  intros Hosi ND.
  destruct (OsiMomentum_predict_reading outstretched self price osi Hosi)
    as [longs [shorts [Hp [Hlong Hshort]]]].
  eexists. split; [exact Hp|].
  set (kt := osi_kt self) in *.
  split; [|split].
  - intros t H1 H2.
    apply events_of_long_short, Hlong in H1 as [k [v [Hx Hc]]].
    apply events_of_long_short, Hshort in H2 as [k' [v' [Hx' Hc']]].
    assert (k = k') by (eapply label_position; eauto). subst k'.
    rewrite Hx in Hx'. injection Hx' as <-.
    apply andb_true_iff in Hc as [Hc Hc0]. apply andb_true_iff in Hc as [_ Hc1].
    apply andb_true_iff in Hc' as [Hc' Hc0']. apply andb_true_iff in Hc' as [_ Hc1'].
    assert (Hlt : lt (opp kt) kt = true) by (eapply lt_trans; [exact Hc1|exact Hc1']).
    assert (Hle : le kt (opp kt) = true) by (eapply le_trans; [exact Hc0'|exact Hc0]).
    rewrite (lt_not_le _ _ Hlt) in Hle. discriminate.
  - intros t Hf. destruct (firstn_index_position 2 osi t Hf) as [j [w [Hj Hxj]]].
    assert (Hnan : lag2 osi j = nan) by (destruct j as [|[|j]]; [reflexivity|reflexivity|lia]).
    split; intros H.
    + apply events_of_long_short, Hlong in H as [k [v [Hx Hc]]].
      assert (k = j) by (eapply label_position; eauto). subst k.
      rewrite Hnan, gt_nan_l in Hc. discriminate.
    + apply events_of_long_short, Hshort in H as [k [v [Hx Hc]]].
      assert (k = j) by (eapply label_position; eauto). subst k.
      rewrite Hnan, lt_nan_l in Hc. discriminate.
  - intros t [H|H].
    + apply events_of_long_short, Hlong in H as [k [v [Hx _]]].
      eapply nth_error_label, Hx.
    + apply events_of_long_short, Hshort in H as [k [v [Hx _]]].
      eapply nth_error_label, Hx.
Qed.

End OsiEntries.


Lemma OsiMomentum_entries_witness :
  exists out,
    OsiMomentum_predict (fun p _ _ => Ok p) demo_osi demo_indicator = Ok out /\
    (forall t, In t (events_of 1 out) -> ~ In t (events_of (-1) out)) /\
    (forall t, In t (firstn 2 (index demo_indicator)) ->
               ~ In t (events_of 1 out) /\ ~ In t (events_of (-1) out)) /\
    (forall t, In t (events_of 1 out) \/ In t (events_of (-1) out) ->
               In t (index demo_indicator)).
Proof.
  apply (OsiMomentum_entries (fun p _ _ => Ok p) demo_osi demo_indicator demo_indicator).
  - reflexivity.
  - simpl. repeat constructor; simpl; intuition lia.
Defined.

Lemma events_of_short_long (shorts longs : list timestamp) (t : timestamp) :
  (In t (events_of 1 (srows [const_series (-1) shorts; const_series 1 longs]))
   <-> In t longs) /\
  (In t (events_of (-1) (srows [const_series (-1) shorts; const_series 1 longs]))
   <-> In t shorts).
Proof.
  split; rewrite events_of_srows; split.
  - intros [s [[<-|[<-|[]]] Hin]]; apply const_series_In in Hin as [E Hin];
      [discriminate|exact Hin].
  - intros H. exists (const_series 1 longs). split; [right; now left|].
    now apply const_series_In.
  - intros [s [[<-|[<-|[]]] Hin]]; apply const_series_In in Hin as [E Hin];
      [exact Hin|discriminate].
  - intros H. exists (const_series (-1) shorts). split; [now left|].
    now apply const_series_In.
Qed.

Section EquilibriumEntries.

Variable deviation : Series float64 -> string -> Z -> result (Series float64).

Lemma Equilibrium_predict_reading (self : Equilibrium) (price dK : Series float64) :
  deviation price (eq_smoother self) (eq_period self) = Ok dK ->
  exists shorts longs,
    Equilibrium_predict deviation self price
    = Ok (srows [const_series (-1) shorts; const_series 1 longs]) /\
    (forall t, In t shorts <->
       exists k v, nth_error dK k = Some (t, v) /\
                   lt (lag2 dK k) (eq_threshold self)
                   && (lt (lag1 dK k) (eq_threshold self)
                       && gt v (eq_threshold self)) = true) /\
    (forall t, In t longs <->
       exists k v, nth_error dK k = Some (t, v) /\
                   gt (lag2 dK k) (opp (eq_threshold self))
                   && (gt (lag1 dK k) (opp (eq_threshold self))
                       && lt v (opp (eq_threshold self))) = true).
Proof.
  intros HdK. unfold Equilibrium_predict. rewrite HdK. cbn [bind].
  unfold compare, and_. cbn [bind].
  zip_pure_step. zip_pure_step.
  match goal with
  | |- context [where_ dK ?m] =>
      destruct (where_labels dK m ltac:(index_goal)) as [shorts [Hs Hshort]];
      rewrite Hs; cbn [bind]
  end.
  zip_pure_step. zip_pure_step.
  match goal with
  | |- context [where_ dK ?m] =>
      destruct (where_labels dK m ltac:(index_goal)) as [longs [Hl Hlong]];
      rewrite Hl; cbn [bind]
  end.
  exists shorts, longs. split; [reflexivity|]. split.
  - intros t. rewrite Hshort. split; intros [k [v [Hx Hm]]]; exists k, v;
      (split; [exact Hx|]); revert Hm; mask_at Hx; intros Hm.
    + now injection Hm.
    + now rewrite Hm.
  - intros t. rewrite Hlong. split; intros [k [v [Hx Hm]]]; exists k, v;
      (split; [exact Hx|]); revert Hm; mask_at Hx; intros Hm.
    + now injection Hm.
    + now rewrite Hm.
Qed.

(** X8.  [Equilibrium.predict], when the deviation series is computed over
    distinct labels: it succeeds; no timestamp carries both a [+1] and a
    [-1], whatever the threshold; the first two labels carry no event; and
    every event is on a label of the deviation series. *)
Theorem Equilibrium_entries (self : Equilibrium) (price dK : Series float64) :
  deviation price (eq_smoother self) (eq_period self) = Ok dK ->
  NoDup (index dK) ->
  exists out,
    Equilibrium_predict deviation self price = Ok out /\
    (forall t, In t (events_of 1 out) -> ~ In t (events_of (-1) out)) /\
    (forall t, In t (firstn 2 (index dK)) ->
               ~ In t (events_of 1 out) /\ ~ In t (events_of (-1) out)) /\
    (forall t, In t (events_of 1 out) \/ In t (events_of (-1) out) ->
               In t (index dK)).
Proof.
  intros HdK ND.
  destruct (Equilibrium_predict_reading self price dK HdK)
    as [shorts [longs [Hp [Hshort Hlong]]]].
  eexists. split; [exact Hp|].
  set (thr := eq_threshold self) in *.
  split; [|split].
  - intros t H1 H2.
    apply events_of_short_long, Hlong in H1 as [k [v [Hx Hc]]].
    apply events_of_short_long, Hshort in H2 as [k' [v' [Hx' Hc']]].
    assert (k = k') by (eapply label_position; eauto). subst k'.
    rewrite Hx in Hx'. injection Hx' as <-.
    apply andb_true_iff in Hc as [_ Hc]. apply andb_true_iff in Hc as [Hc1 Hc0].
    apply andb_true_iff in Hc' as [_ Hc']. apply andb_true_iff in Hc' as [Hc1' Hc0'].
    (* thr < v < -thr and -thr < lag < thr *)
    assert (Ha : lt thr (opp thr) = true) by (eapply lt_trans; [exact Hc0'|exact Hc0]).
    assert (Hb : lt (opp thr) thr = true) by (eapply lt_trans; [exact Hc1|exact Hc1']).
    pose proof (gt_lt_exclusive _ _ Ha) as Hx2. unfold lt in Hb. unfold lt in Hx2.
    congruence.
  - intros t Hf. destruct (firstn_index_position 2 dK t Hf) as [j [w [Hj Hxj]]].
    assert (Hnan : lag2 dK j = nan) by (destruct j as [|[|j]]; [reflexivity|reflexivity|lia]).
    split; intros H.
    + apply events_of_short_long, Hlong in H as [k [v [Hx Hc]]].
      assert (k = j) by (eapply label_position; eauto). subst k.
      rewrite Hnan, gt_nan_l in Hc. discriminate.
    + apply events_of_short_long, Hshort in H as [k [v [Hx Hc]]].
      assert (k = j) by (eapply label_position; eauto). subst k.
      rewrite Hnan, lt_nan_l in Hc. discriminate.
  - intros t [H|H].
    + apply events_of_short_long, Hlong in H as [k [v [Hx _]]].
      eapply nth_error_label, Hx.
    + apply events_of_short_long, Hshort in H as [k [v [Hx _]]].
      eapply nth_error_label, Hx.
Qed.

End EquilibriumEntries.


Lemma Equilibrium_entries_witness :
  exists out,
    Equilibrium_predict (fun p _ _ => Ok p) demo_equilibrium demo_indicator = Ok out /\
    (forall t, In t (events_of 1 out) -> ~ In t (events_of (-1) out)) /\
    (forall t, In t (firstn 2 (index demo_indicator)) ->
               ~ In t (events_of 1 out) /\ ~ In t (events_of (-1) out)) /\
    (forall t, In t (events_of 1 out) \/ In t (events_of (-1) out) ->
               In t (index demo_indicator)).
Proof.
  apply (Equilibrium_entries (fun p _ _ => Ok p) demo_equilibrium
           demo_indicator demo_indicator).
  - reflexivity.
  - simpl. repeat constructor; simpl; intuition lia.
Defined.

(** * The edge detectors read position by position *)

Lemma nth_error_value_at (s : Series float64) (k : nat) (t : timestamp) (v : float64) :
  nth_error s k = Some (t, v) -> value_at s k = v.
Proof. intros H. unfold value_at. now rewrite H. Qed.

Lemma nth_error_same_index {A B} (x : Series A) (s : Series B) (k : nat)
      (t : timestamp) (v : A) :
  index s = index x -> nth_error x k = Some (t, v) ->
  exists w, nth_error s k = Some (t, w).
Proof.
  intros Hidx Hx.
  assert (H : nth_error (index s) k = Some t)
    by (rewrite Hidx; unfold index; now rewrite nth_error_map, Hx).
  unfold index in H. rewrite nth_error_map in H.
  destruct (nth_error s k) as [[i w]|]; [|discriminate].
  simpl in H. injection H as ->. now exists w.
Qed.

Lemma cross_reading (now prev : float64 -> float64 -> bool)
      (x : Series float64) (t : operand) :
  aligned x t ->
  exists l,
    (a <- compare now x t ;;
     b <- compare prev (shift1 x)
            (match t with Ser s => Ser (shift1 s) | Scalar c => Scalar c end) ;;
     m <- and_ a b ;;
     r <- select x m ;;
     Ok (index r)) = Ok l /\
    (forall ts, In ts l <->
       exists k v, nth_error x k = Some (ts, v) /\
                   now v (threshold_at t k)
                   && prev (lag1 x k) (threshold_before t k) = true).
Proof.
  intros Hal. destruct t as [c|s]; simpl in Hal; unfold compare, and_; cbn [bind].
  - zip_pure_step.
    match goal with
    | |- context [select x ?m] =>
        destruct (where_labels x m ltac:(index_goal)) as [l [Hl Hin]]
    end.
    unfold where_ in Hl. exists l. split; [exact Hl|].
    intros ts. rewrite Hin. split; intros [k [v [Hx Hm]]]; exists k, v;
      (split; [exact Hx|]); revert Hm; mask_at Hx; simpl; intros Hm.
    + now injection Hm.
    + now rewrite Hm.
  - rewrite (zip_values_same now x s) by (symmetry; exact Hal). cbn [bind].
    rewrite (zip_values_same prev (shift1 x) (shift1 s))
      by (unfold shift1; rewrite !index_shift_from; symmetry; exact Hal).
    cbn [bind].
    assert (Ha : index (zip_pure now x s) = index x)
      by (apply index_zip_pure; symmetry; exact Hal).
    assert (Hb : index (zip_pure prev (shift1 x) (shift1 s)) = index x).
    { unfold shift1. rewrite index_zip_pure; [apply index_shift_from|].
      rewrite !index_shift_from. symmetry. exact Hal. }
    rewrite zip_values_same by congruence. cbn [bind].
    assert (Hm : index (zip_pure andb (zip_pure now x s)
                          (zip_pure prev (shift1 x) (shift1 s))) = index x)
      by (rewrite index_zip_pure by congruence; exact Ha).
    destruct (where_labels x _ Hm) as [l [Hl Hin]].
    unfold where_ in Hl. exists l. split; [exact Hl|].
    intros ts. rewrite Hin. split; intros [k [v [Hx Hk]]]; exists k, v;
      (split; [exact Hx|]);
      destruct (nth_error_same_index x s k ts v Hal Hx) as [w Hs];
      revert Hk; rewrite !nth_error_zip_pure, Hx, Hs,
                   (nth_error_shift1 x k ts v Hx), (nth_error_shift1 s k ts w Hs);
      simpl; rewrite (nth_error_value_at s k ts w Hs); intros Hk.
    + now injection Hk.
    + now rewrite Hk.
Qed.

Lemma crossup_reading (x : Series float64) (t : operand) :
  aligned x t ->
  exists up,
    crossup x t = Ok up /\
    (forall ts, In ts up <->
       exists k v, nth_error x k = Some (ts, v) /\
                   gt v (threshold_at t k)
                   && le (lag1 x k) (threshold_before t k) = true).
Proof. apply (cross_reading gt le). Qed.

Lemma crossdown_reading (x : Series float64) (t : operand) :
  aligned x t ->
  exists dn,
    crossdown x t = Ok dn /\
    (forall ts, In ts dn <->
       exists k v, nth_error x k = Some (ts, v) /\
                   lt v (threshold_at t k)
                   && ge (lag1 x k) (threshold_before t k) = true).
Proof. apply (cross_reading lt ge). Qed.

(** X1.  For a scalar threshold, or a series threshold labelled as [x] is,
    [crossup] and [crossdown] succeed and return exactly the labels of the
    samples that are above (below) their threshold while the sample before
    was at or below (at or above) the threshold before; the first sample
    has NaN before it. *)
Theorem crossings_adjacent_samples (x : Series float64) (t : operand) :
  aligned x t ->
  exists up dn,
    crossup x t = Ok up /\
    crossdown x t = Ok dn /\
    (forall ts, In ts up <->
       exists k v, nth_error x k = Some (ts, v) /\
                   gt v (threshold_at t k)
                   && le (lag1 x k) (threshold_before t k) = true) /\
    (forall ts, In ts dn <->
       exists k v, nth_error x k = Some (ts, v) /\
                   lt v (threshold_at t k)
                   && ge (lag1 x k) (threshold_before t k) = true).
Proof.
  intros Ha.
  destruct (crossup_reading x t Ha) as [up [Hu Hup]].
  destruct (crossdown_reading x t Ha) as [dn [Hd Hdn]].
  exists up, dn. auto.
Qed.

Lemma crossings_adjacent_samples_witness :
  exists up dn,
    crossup demo_series (Scalar half) = Ok up /\
    crossdown demo_series (Scalar half) = Ok dn /\
    (forall ts, In ts up <->
       exists k v, nth_error demo_series k = Some (ts, v) /\
                   gt v (threshold_at (Scalar half) k)
                   && le (lag1 demo_series k) (threshold_before (Scalar half) k) = true) /\
    (forall ts, In ts dn <->
       exists k v, nth_error demo_series k = Some (ts, v) /\
                   lt v (threshold_at (Scalar half) k)
                   && ge (lag1 demo_series k) (threshold_before (Scalar half) k) = true).
Proof.
  apply (crossings_adjacent_samples demo_series (Scalar half)).
  simpl. exact I.
Defined.

Section RsiEntries.

Variable rsi : Series float64 -> Z -> string -> result (Series float64).

(** X5.  [Rsi.predict], when the RSI series is computed over distinct
    labels: it succeeds; no timestamp carries both a [+1] and a [-1]; the
    first label carries no event; [+1] sits exactly where the RSI crosses
    up [lower], and [-1] exactly where it crosses down [upper]. *)
Theorem Rsi_entries (self : Rsi) (price r : Series float64) :
  rsi price (rsi_period self) (rsi_smoother self) = Ok r ->
  NoDup (index r) ->
  exists out,
    Rsi_predict rsi self price = Ok out /\
    (forall t, In t (events_of 1 out) -> ~ In t (events_of (-1) out)) /\
    (forall t, hd_error (index r) = Some t ->
               ~ In t (events_of 1 out) /\ ~ In t (events_of (-1) out)) /\
    (forall t, In t (events_of 1 out) <->
       exists k v, nth_error r k = Some (t, v) /\
                   gt v (rsi_lower self) && le (lag1 r k) (rsi_lower self) = true) /\
    (forall t, In t (events_of (-1) out) <->
       exists k v, nth_error r k = Some (t, v) /\
                   lt v (rsi_upper self) && ge (lag1 r k) (rsi_upper self) = true).
Proof.
  intros Hr ND.
  destruct (crossup_reading r (Scalar (rsi_lower self)) I) as [up [Hup Hu]].
  destruct (crossdown_reading r (Scalar (rsi_upper self)) I) as [dn [Hdn Hd]].
  simpl in Hu, Hd.
  exists (srows [const_series 1 up; const_series (-1) dn]).
  split; [unfold Rsi_predict; rewrite Hr; cbn [bind]; rewrite Hup; cbn [bind];
          rewrite Hdn; reflexivity|].
  assert (Hlong : forall t, In t (events_of 1 (srows [const_series 1 up; const_series (-1) dn]))
                            <-> In t up) by (intros t; apply events_of_long_short).
  assert (Hshort : forall t, In t (events_of (-1) (srows [const_series 1 up; const_series (-1) dn]))
                             <-> In t dn) by (intros t; apply events_of_long_short).
  split; [|split; [|split]].
  - intros t H1 H2.
    apply Hlong, Hu in H1 as [k [v [Hx Hc]]].
    apply Hshort, Hd in H2 as [k' [v' [Hx' Hc']]].
    assert (k = k') by (eapply label_position; eauto). subst k'.
    rewrite Hx in Hx'. injection Hx' as <-.
    apply andb_true_iff in Hc as [Hc0 Hc1].
    apply andb_true_iff in Hc' as [Hc0' Hc1'].
    assert (Ha : lt (rsi_lower self) (rsi_upper self) = true)
      by (eapply lt_trans; [exact Hc0|exact Hc0']).
    assert (Hb : le (rsi_upper self) (rsi_lower self) = true)
      by (eapply le_trans; [exact Hc1'|exact Hc1]).
    rewrite (lt_not_le _ _ Ha) in Hb. discriminate.
  - intros t Hh.
    assert (Hx0 : exists w, nth_error r 0 = Some (t, w)).
    { destruct r as [|[i w] r']; simpl in Hh; [discriminate|].
      injection Hh as ->. now exists w. }
    destruct Hx0 as [w Hx0]. split; intros H.
    + apply Hlong, Hu in H as [k [v [Hx Hc]]].
      assert (k = 0%nat) by (eapply label_position; eauto). subst k.
      simpl in Hc. rewrite andb_false_r in Hc. discriminate.
    + apply Hshort, Hd in H as [k [v [Hx Hc]]].
      assert (k = 0%nat) by (eapply label_position; eauto). subst k.
      simpl in Hc. rewrite ge_nan_l, andb_false_r in Hc. discriminate.
  - intros t. rewrite Hlong. apply Hu.
  - intros t. rewrite Hshort. apply Hd.
Qed.

End RsiEntries.


Lemma Rsi_entries_witness :
  exists out,
    Rsi_predict (fun p _ _ => Ok p) demo_rsi demo_series = Ok out /\
    (forall t, In t (events_of 1 out) -> ~ In t (events_of (-1) out)) /\
    (forall t, hd_error (index demo_series) = Some t ->
               ~ In t (events_of 1 out) /\ ~ In t (events_of (-1) out)) /\
    (forall t, In t (events_of 1 out) <->
       exists k v, nth_error demo_series k = Some (t, v) /\
                   gt v (rsi_lower demo_rsi)
                   && le (lag1 demo_series k) (rsi_lower demo_rsi) = true) /\
    (forall t, In t (events_of (-1) out) <->
       exists k v, nth_error demo_series k = Some (t, v) /\
                   lt v (rsi_upper demo_rsi)
                   && ge (lag1 demo_series k) (rsi_upper demo_rsi) = true).
Proof.
  apply (Rsi_entries (fun p _ _ => Ok p) demo_rsi demo_series demo_series).
  - reflexivity.
  - simpl. repeat constructor; simpl; intuition lia.
Defined.

Section CrossingMovingsEntries.

Variable smooth : Series float64 -> string -> Z -> result (Series float64).

(** X4.  [CrossingMovings.predict], when both averages are computed over
    the same distinct labels: it succeeds; no timestamp carries both a [+1]
    and a [-1]; the first label carries no event; and [+1] ([-1]) sits
    exactly where the fast average is above (below) the slow one while it
    was at or below (at or above) it one sample before. *)
Theorem CrossingMovings_entries (self : CrossingMovings)
        (price fast_ma slow_ma : Series float64) :
  smooth price (cm_fast_type self) (cm_fast self) = Ok fast_ma ->
  smooth price (cm_slow_type self) (cm_slow self) = Ok slow_ma ->
  index slow_ma = index fast_ma ->
  NoDup (index fast_ma) ->
  exists out,
    CrossingMovings_predict smooth self price = Ok out /\
    (forall t, In t (events_of 1 out) -> ~ In t (events_of (-1) out)) /\
    (forall t, hd_error (index fast_ma) = Some t ->
               ~ In t (events_of 1 out) /\ ~ In t (events_of (-1) out)) /\
    (forall t, In t (events_of 1 out) <->
       exists k f s, nth_error fast_ma k = Some (t, f) /\
                     nth_error slow_ma k = Some (t, s) /\
                     gt f s && le (lag1 fast_ma k) (lag1 slow_ma k) = true) /\
    (forall t, In t (events_of (-1) out) <->
       exists k f s, nth_error fast_ma k = Some (t, f) /\
                     nth_error slow_ma k = Some (t, s) /\
                     lt f s && ge (lag1 fast_ma k) (lag1 slow_ma k) = true).
Proof.
  intros Hf Hs Hidx ND.
  destruct (crossup_reading fast_ma (Ser slow_ma) Hidx) as [up [Hup Hu]].
  destruct (crossdown_reading fast_ma (Ser slow_ma) Hidx) as [dn [Hdn Hd]].
  simpl in Hu, Hd.
  exists (srows [const_series 1 up; const_series (-1) dn]).
  split; [unfold CrossingMovings_predict; rewrite Hf; cbn [bind]; rewrite Hs;
          cbn [bind]; rewrite Hup; cbn [bind]; rewrite Hdn; reflexivity|].
  assert (Hlong : forall t, In t (events_of 1 (srows [const_series 1 up; const_series (-1) dn]))
                            <-> In t up) by (intros t; apply events_of_long_short).
  assert (Hshort : forall t, In t (events_of (-1) (srows [const_series 1 up; const_series (-1) dn]))
                             <-> In t dn) by (intros t; apply events_of_long_short).
  split; [|split; [|split]].
  - intros t H1 H2.
    apply Hlong, Hu in H1 as [k [v [Hx Hc]]].
    apply Hshort, Hd in H2 as [k' [v' [Hx' Hc']]].
    assert (k = k') by (eapply label_position; eauto). subst k'.
    rewrite Hx in Hx'. injection Hx' as <-.
    apply andb_true_iff in Hc as [Hc0 _].
    apply andb_true_iff in Hc' as [Hc0' _].
    rewrite (gt_lt_exclusive _ _ Hc0) in Hc0'. discriminate.
  - intros t Hh.
    assert (Hx0 : exists w, nth_error fast_ma 0 = Some (t, w)).
    { destruct fast_ma as [|[i w] r']; simpl in Hh; [discriminate|].
      injection Hh as ->. now exists w. }
    destruct Hx0 as [w Hx0]. split; intros H.
    + apply Hlong, Hu in H as [k [v [Hx Hc]]].
      assert (k = 0%nat) by (eapply label_position; eauto). subst k.
      simpl in Hc. rewrite andb_false_r in Hc. discriminate.
    + apply Hshort, Hd in H as [k [v [Hx Hc]]].
      assert (k = 0%nat) by (eapply label_position; eauto). subst k.
      simpl in Hc. rewrite ge_nan_l, andb_false_r in Hc. discriminate.
  - intros t. rewrite Hlong, Hu. split.
    + intros [k [f [Hx Hc]]].
      destruct (nth_error_same_index fast_ma slow_ma k t f Hidx Hx) as [s Hsl].
      exists k, f, s. rewrite (nth_error_value_at _ _ _ _ Hsl) in Hc. auto.
    + intros [k [f [s [Hx [Hsl Hc]]]]]. exists k, f. split; [exact Hx|].
      now rewrite (nth_error_value_at _ _ _ _ Hsl).
  - intros t. rewrite Hshort, Hd. split.
    + intros [k [f [Hx Hc]]].
      destruct (nth_error_same_index fast_ma slow_ma k t f Hidx Hx) as [s Hsl].
      exists k, f, s. rewrite (nth_error_value_at _ _ _ _ Hsl) in Hc. auto.
    + intros [k [f [s [Hx [Hsl Hc]]]]]. exists k, f. split; [exact Hx|].
      now rewrite (nth_error_value_at _ _ _ _ Hsl).
Qed.

End CrossingMovingsEntries.


Lemma CrossingMovings_entries_witness :
  let slow_ma := map_values (fun _ => half) demo_series in
  exists out,
    CrossingMovings_predict demo_smooth demo_movings demo_series = Ok out /\
    (forall t, In t (events_of 1 out) -> ~ In t (events_of (-1) out)) /\
    (forall t, hd_error (index demo_series) = Some t ->
               ~ In t (events_of 1 out) /\ ~ In t (events_of (-1) out)) /\
    (forall t, In t (events_of 1 out) <->
       exists k f s, nth_error demo_series k = Some (t, f) /\
                     nth_error slow_ma k = Some (t, s) /\
                     gt f s && le (lag1 demo_series k) (lag1 slow_ma k) = true) /\
    (forall t, In t (events_of (-1) out) <->
       exists k f s, nth_error demo_series k = Some (t, f) /\
                     nth_error slow_ma k = Some (t, s) /\
                     lt f s && ge (lag1 demo_series k) (lag1 slow_ma k) = true).
Proof.
  apply (CrossingMovings_entries demo_smooth demo_movings demo_series demo_series
           (map_values (fun _ => half) demo_series)).
  - reflexivity.
  - reflexivity.
  - reflexivity.
  - simpl. repeat constructor; simpl; intuition lia.
Defined.

Section BarStrengthEntries.

Variable ohlc_resample : Series candle -> string -> string -> result (Series candle).

Lemma InternalBarStrength_predict_reading (self : InternalBarStrength)
      (x xf : Series candle) :
  ohlc_resample x (ibs_timeframe self) (ibs_tz self) = Ok xf ->
  exists longs shorts,
    InternalBarStrength_predict ohlc_resample self x
    = Ok (srows [const_series 1 longs; const_series (-1) shorts]) /\
    (forall t, In t longs <->
       exists k r, nth_error xf k = Some (t, r) /\
                   lt (lag1 (map_values bar_strength xf) k) (ibs_threshold self) = true) /\
    (forall t, In t shorts <->
       exists k r, nth_error xf k = Some (t, r) /\
                   gt (lag1 (map_values bar_strength xf) k)
                      (sub one (ibs_threshold self)) = true).
Proof.
  intros Hxf. unfold InternalBarStrength_predict. rewrite Hxf. cbn [bind].
  unfold compare. cbn [bind].
  set (raw := map_values bar_strength xf).
  match goal with
  | |- context [where_ (shift1 raw) ?m] =>
      destruct (where_labels (shift1 raw) m ltac:(index_goal)) as [longs [Hl Hlong]];
      rewrite Hl; cbn [bind]
  end.
  match goal with
  | |- context [where_ (shift1 raw) ?m] =>
      destruct (where_labels (shift1 raw) m ltac:(index_goal)) as [shorts [Hs Hshort]];
      rewrite Hs; cbn [bind]
  end.
  exists longs, shorts. split; [reflexivity|].
  assert (Hraw : forall k t, (exists r, nth_error xf k = Some (t, r)) <->
                             (exists v, nth_error raw k = Some (t, v))).
  { intros k t. unfold raw. rewrite nth_error_map_values. split.
    - intros [r Hr]. rewrite Hr. simpl. eauto.
    - intros [v Hv]. destruct (nth_error xf k) as [[i r]|]; [|discriminate].
      simpl in Hv. injection Hv as -> _. eauto. }
  assert (Hsh : forall k t, (exists v, nth_error raw k = Some (t, v)) <->
                            (exists v, nth_error (shift1 raw) k = Some (t, v))).
  { intros k t. split.
    - intros [v Hv]. rewrite (nth_error_shift1 raw k t v Hv). eauto.
    - intros [v Hv]. unfold shift1 in Hv. rewrite nth_error_shift_from in Hv.
      destruct (nth_error raw k) as [[i w]|]; [|discriminate].
      injection Hv as -> _. eauto. }
  split.
  - intros t. rewrite Hlong. split.
    + intros [k [v [Hx Hm]]].
      destruct (proj2 (Hsh k t) (ex_intro _ v Hx)) as [w Hw].
      destruct (proj2 (Hraw k t) (ex_intro _ w Hw)) as [r Hr].
      exists k, r. split; [exact Hr|].
      rewrite nth_error_map_values, (nth_error_shift1 raw k t w Hw) in Hm.
      simpl in Hm. now injection Hm.
    + intros [k [r [Hr Hc]]].
      destruct (proj1 (Hraw k t) (ex_intro _ r Hr)) as [w Hw].
      exists k, (lag1 raw k). split; [now apply nth_error_shift1 with (v := w)|].
      rewrite nth_error_map_values, (nth_error_shift1 raw k t w Hw).
      cbn [option_map fst snd]. do 2 f_equal. exact Hc.
  - intros t. rewrite Hshort. split.
    + intros [k [v [Hx Hm]]].
      destruct (proj2 (Hsh k t) (ex_intro _ v Hx)) as [w Hw].
      destruct (proj2 (Hraw k t) (ex_intro _ w Hw)) as [r Hr].
      exists k, r. split; [exact Hr|].
      rewrite nth_error_map_values, (nth_error_shift1 raw k t w Hw) in Hm.
      simpl in Hm. now injection Hm.
    + intros [k [r [Hr Hc]]].
      destruct (proj1 (Hraw k t) (ex_intro _ r Hr)) as [w Hw].
      exists k, (lag1 raw k). split; [now apply nth_error_shift1 with (v := w)|].
      rewrite nth_error_map_values, (nth_error_shift1 raw k t w Hw).
      cbn [option_map fst snd]. do 2 f_equal. exact Hc.
Qed.

(** X7.  [InternalBarStrength.predict], when the bars are resampled to
    distinct labels: it succeeds; the first bar carries no event; and every
    later bar carries [+1] exactly when the strength of the bar before it is
    below the threshold, [-1] exactly when that strength is above
    [1 - threshold]: the signal is given on the opening of the next bar. *)
Theorem InternalBarStrength_entries (self : InternalBarStrength)
        (x xf : Series candle) :
  ohlc_resample x (ibs_timeframe self) (ibs_tz self) = Ok xf ->
  NoDup (index xf) ->
  exists out,
    InternalBarStrength_predict ohlc_resample self x = Ok out /\
    (forall t, hd_error (index xf) = Some t ->
               ~ In t (events_of 1 out) /\ ~ In t (events_of (-1) out)) /\
    (forall k tp rp tk rk,
        nth_error xf k = Some (tp, rp) ->
        nth_error xf (S k) = Some (tk, rk) ->
        (In tk (events_of 1 out)
         <-> lt (bar_strength rp) (ibs_threshold self) = true) /\
        (In tk (events_of (-1) out)
         <-> gt (bar_strength rp) (sub one (ibs_threshold self)) = true)).
Proof.
  intros Hxf ND.
  destruct (InternalBarStrength_predict_reading self x xf Hxf)
    as [longs [shorts [Hp [Hlong Hshort]]]].
  eexists. split; [exact Hp|].
  split.
  - intros t Hh.
    assert (Hx0 : exists w, nth_error xf 0 = Some (t, w)).
    { destruct xf as [|[i w] r']; simpl in Hh; [discriminate|].
      injection Hh as ->. now exists w. }
    destruct Hx0 as [w Hx0]. split; intros H.
    + apply events_of_long_short, Hlong in H as [k [r [Hx Hc]]].
      assert (k = 0%nat) by (eapply label_position; eauto). subst k.
      simpl in Hc. discriminate.
    + apply events_of_long_short, Hshort in H as [k [r [Hx Hc]]].
      assert (k = 0%nat) by (eapply label_position; eauto). subst k.
      simpl in Hc. rewrite gt_nan_l in Hc. discriminate.
  - intros k tp rp tk rk Hp0 Hk.
    assert (Hlag : lag1 (map_values bar_strength xf) (S k) = bar_strength rp).
    { simpl. unfold value_at. now rewrite nth_error_map_values, Hp0. }
    split; split.
    + intros H. apply events_of_long_short, Hlong in H as [j [r [Hx Hc]]].
      assert (j = S k) by (eapply label_position; eauto). subst j.
      now rewrite Hlag in Hc.
    + intros H. apply events_of_long_short, Hlong. exists (S k), rk.
      split; [exact Hk|]. now rewrite Hlag.
    + intros H. apply events_of_long_short, Hshort in H as [j [r [Hx Hc]]].
      assert (j = S k) by (eapply label_position; eauto). subst j.
      now rewrite Hlag in Hc.
    + intros H. apply events_of_long_short, Hshort. exists (S k), rk.
      split; [exact Hk|]. now rewrite Hlag.
Qed.

End BarStrengthEntries.


Lemma InternalBarStrength_entries_witness :
  exists out,
    InternalBarStrength_predict (fun x _ _ => Ok x) demo_ibs demo_candles = Ok out /\
    (forall t, hd_error (index demo_candles) = Some t ->
               ~ In t (events_of 1 out) /\ ~ In t (events_of (-1) out)) /\
    (forall k tp rp tk rk,
        nth_error demo_candles k = Some (tp, rp) ->
        nth_error demo_candles (S k) = Some (tk, rk) ->
        (In tk (events_of 1 out)
         <-> lt (bar_strength rp) (ibs_threshold demo_ibs) = true) /\
        (In tk (events_of (-1) out)
         <-> gt (bar_strength rp) (sub one (ibs_threshold demo_ibs)) = true)).
Proof.
  apply (InternalBarStrength_entries (fun x _ _ => Ok x) demo_ibs
           demo_candles demo_candles).
  - reflexivity.
  - simpl. repeat constructor; simpl; intuition lia.
Defined.

End EntryFacts.

(* ------------------------------------------------------------------ *)

Module RangeFacts.

Import Generators FloatFacts PandasFacts OhlcScanFacts EventFacts CrossingFacts FloatOrderFacts PositionFacts EntryFacts.
Local Open Scope Z_scope.

(** * Range breakouts: tick mode and the first bar *)

Lemma tick_pick (now prev : float64 -> float64 -> bool)
      (side band : quote -> float64) (X : TickFrame) (pa pu : float64) :
  index (map_values fst
           (filter (fun ivm : timestamp * (quote * bool) => snd (snd ivm))
              (zip_pure (fun v (m : bool) => (v, m)) X
                 (zip_pure andb
                    (zip_pure prev (shift_from pa (map_values side X))
                              (shift_from pu (map_values band X)))
                    (zip_pure now (map_values side X) (map_values band X))))))
  = cross_scan now prev pa pu (map_values side X) (values (map_values band X)).
Proof.
  unfold zip_pure. revert pa pu. induction X as [|[i r] X IH]; intros pa pu;
    [reflexivity|].
  cbn. rewrite (andb_comm (now (side r) (band r))).
  destruct (prev pa pu && now (side r) (band r)); cbn; f_equal; apply IH.
Qed.

Lemma map_values_compose {A B C} (f : A -> B) (g : B -> C) (s : Series A) :
  map_values g (map_values f s) = map_values (fun v => g (f v)) s.
Proof. unfold map_values. rewrite map_map. reflexivity. Qed.

(** X3.  Tick mode never raises, and its events are crossings: [+1] where
    the ask crosses up [RangeTop + threshold], [-1] where the bid crosses
    down [RangeBot - threshold], as [crossup] and [crossdown] compute
    them. *)
Theorem ticks_breaks_are_crossings (self : RangeBreakoutDetector) (X : TickFrame) :
  exists up dn,
    crossup (map_values ask X)
            (Ser (map_values (fun v => add v (rbd_threshold self))
                             (map_values tick_RangeTop X))) = Ok up /\
    crossdown (map_values bid X)
              (Ser (map_values (fun v => sub v (rbd_threshold self))
                               (map_values tick_RangeBot X))) = Ok dn /\
    _ticks_breaks self X
    = Ok (srows [const_series 1 up; const_series (-1) dn]).
Proof.
  eexists. eexists. split; [|split].
  - apply crossup_series. now rewrite !index_map_values.
  - apply crossdown_series. now rewrite !index_map_values.
  - unfold _ticks_breaks, compare, and_, select, shift1.
    repeat zip_pure_step.
    rewrite !map_values_compose.
    rewrite (tick_pick gt le ask (fun r => add (tick_RangeTop r) (rbd_threshold self))).
    rewrite (tick_pick lt ge bid (fun r => sub (tick_RangeBot r) (rbd_threshold self))).
    reflexivity.
Qed.

(** X2.  OHLC mode on a frame whose bars have distinct timestamps: the
    first bar is never a break on open; it is an upward break on close
    exactly when it opens at or below the upper band and closes above it,
    and a downward one exactly when it opens at or above the lower band and
    closes below it, there being no bar before it to disqualify it. *)
Theorem ohlc_first_bar (self : RangeBreakoutDetector) (t0 : timestamp) (r0 : ohlc)
        (X' : Frame) :
  NoDup (index ((t0, r0) :: X')) ->
  exists lo lc so sc,
    ohlc_streams self ((t0, r0) :: X') = Ok (lo, lc, so, sc) /\
    ~ In t0 lo /\ ~ In t0 so /\
    (In t0 lc <-> le (open r0) (up_band self r0)
                  && gt (close r0) (up_band self r0) = true) /\
    (In t0 sc <-> ge (open r0) (dn_band self r0)
                  && lt (close r0) (dn_band self r0) = true).
Proof.
  intros ND. simpl in ND. inversion ND as [|? ? Hi ND']; subst.
  eexists _, _, _, _. split; [apply ohlc_streams_scan|].
  assert (Hrest : forall sel a b c d,
             ~ In t0 (ohlc_scan self sel a b c d X')).
  { intros sel a b c d H. apply Hi. eapply ohlc_scan_in_index, H. }
  cbn [ohlc_scan]. unfold long_open, short_open, long_close, short_close.
  rewrite le_nan_l, ge_nan_l. cbn [andb orb negb].
  rewrite !andb_true_r.
  split; [|split; [|split]].
  - intros H. apply in_app_or in H as [[]|H]. eapply Hrest, H.
  - intros H. apply in_app_or in H as [[]|H]. eapply Hrest, H.
  - split.
    + intros H. apply in_app_or in H as [H|H]; [|exfalso; eapply Hrest, H].
      destruct (le (open r0) (up_band self r0) && gt (close r0) (up_band self r0));
        [reflexivity|contradiction].
    + intros ->. apply in_or_app. left. now left.
  - split.
    + intros H. apply in_app_or in H as [H|H]; [|exfalso; eapply Hrest, H].
      destruct (ge (open r0) (dn_band self r0) && lt (close r0) (dn_band self r0));
        [reflexivity|contradiction].
    + intros ->. apply in_or_app. left. now left.
Qed.

Lemma ohlc_first_bar_witness :
  let r0 := bar one zero half one zero half in
  exists lo lc so sc,
    ohlc_streams demo_detector demo_frame = Ok (lo, lc, so, sc) /\
    ~ In 0 lo /\ ~ In 0 so /\
    (In 0 lc <-> le (open r0) (up_band demo_detector r0)
                 && gt (close r0) (up_band demo_detector r0) = true) /\
    (In 0 sc <-> ge (open r0) (dn_band demo_detector r0)
                 && lt (close r0) (dn_band demo_detector r0) = true).
Proof.
  apply (ohlc_first_bar demo_detector 0 (bar one zero half one zero half)
           [(86400, bar one zero half two half two)]).
  simpl. repeat constructor; simpl; intuition lia.
Defined.

End RangeFacts.

(* ------------------------------------------------------------------ *)

Module SetupFacts.

Import Multisim ResolverFacts StubFacts.
Local Open Scope string_scope.

(** * Recognised units *)

(** A property of every unit of [_recognize] follows from its holding for
    the four ways a unit is built. *)
Lemma recognize_Forall (P : string -> SimSetup -> Prop) :
  (forall nm s0 s1, _is_signal_or_generator s0 = true -> _is_tracker s1 = true ->
                    P nm (SimSetup_init s0 s1 nm)) ->
  (forall nm id, P nm (SimSetup_init PyNone (PyTracker id) nm)) ->
  (forall nm id, P nm (SimSetup_init (PySignal id) PyNone nm)) ->
  (forall nm id c, P nm (SimSetup_init (PyEstimator id c) PyNone nm)) ->
  (forall nm sfx u, P (nm ++ sfx) u -> P nm u) ->
  forall setup data nm, Forall (P nm) (_recognize setup data nm).
Proof.
  intros Hpair Htr Hsig Hest Hext setup data.
  induction setup using setup_ind; intros nm; simpl.
  - constructor.
  - induction H as [|[n v] items Hv _ IH]; [constructor|].
    apply Forall_app. split; [|exact IH].
    eapply Forall_impl; [|apply Hv]. intros u Hu.
    apply (Hext nm ("/" ++ n)). now rewrite <- append_assoc.
  - assert (Hall : forall j,
      Forall (P nm)
        ((fix enumerate_ (j : nat) (l : list pyobj) : list SimSetup :=
            match l with
            | [] => []
            | s :: l' =>
                (_recognize s data ((nm ++ "/") ++ str j) ++ enumerate_ (S j) l')%list
            end) j elems)).
    { induction H as [|s elems Hs _ IH]; intros j; [constructor|].
      apply Forall_app. split; [|apply IH].
      eapply Forall_impl; [|apply Hs]. intros u Hu.
      apply (Hext nm ("/" ++ str j)). now rewrite <- append_assoc. }
    destruct elems as [|s0 [|s1 [|s2 elems]]]; try apply (Hall 0%nat).
    destruct (_is_signal_or_generator s0 && _is_tracker s1) eqn:E; [|apply (Hall 0%nat)].
    apply andb_true_iff in E as [E0 E1].
    apply Forall_cons; [|apply Forall_nil]. now apply Hpair.
  - apply Forall_cons; [|apply Forall_nil]. apply Htr.
  - apply Forall_cons; [|apply Forall_nil]. apply Hsig.
  - apply Forall_cons; [|apply Forall_nil]. apply Hest.
  - apply Forall_nil.
Qed.

Lemma recognize_units_well_typed_aux (setup : pyobj) (data : market_data) (nm : string) :
  Forall well_typed_unit (_recognize setup data nm).
Proof.
  apply (recognize_Forall (fun _ u => well_typed_unit u)); unfold well_typed_unit;
    simpl; auto.
Qed.

(** X9.  Every unit that [_recognize] emits is well typed: its tracker is
    [None] or a tracker, its source is [None], a series or a generator, its
    recorded type is the type of its source; and [get_signals] takes the
    stub for it exactly when it has no source. *)
Theorem recognize_units_well_typed (setup : pyobj) (data : market_data) (nm : string) :
  Forall (fun u => well_typed_unit u /\ uses_stub u = negb (_is_signal_or_generator (signals u)))
         (_recognize setup data nm).
Proof.
  eapply Forall_impl; [|apply (recognize_units_well_typed_aux setup data nm)].
  intros u H. split; [exact H|]. destruct H as [_ [[Hn|Hs] Ht]].
  - unfold uses_stub. now rewrite Hn.
  - unfold uses_stub. rewrite Ht, Hs.
    destruct (signals u); simpl in *; try discriminate; reflexivity.
Qed.

(** X10.  The qualified name of every unit that [_recognize] emits starts
    with the name the recognition was started with. *)
Theorem recognize_names_extend_prefix (setup : pyobj) (data : market_data) (nm : string) :
  Forall (fun u => exists sfx, name u = nm ++ sfx) (_recognize setup data nm).
Proof.
  apply (recognize_Forall (fun n u => exists sfx, name u = n ++ sfx)).
  - intros n s0 s1 _ _. exists "". simpl. clear. induction n; simpl; congruence.
  - intros n id. exists "". simpl. clear. induction n; simpl; congruence.
  - intros n id. exists "". simpl. clear. induction n; simpl; congruence.
  - intros n id c. exists "". simpl. clear. induction n; simpl; congruence.
  - intros n sfx u [sfx' H]. exists (sfx ++ sfx'). now rewrite <- append_assoc.
Qed.

End SetupFacts.

(* ------------------------------------------------------------------ *)

Module SimulationFacts.

Import Multisim ResolverFacts StubFacts SetupFacts.
Local Open Scope string_scope.

(** * Simulation runs *)

Lemma recognized_source_no_stub (setup : pyobj) (data : market_data) (nm : string) :
  Forall (fun u => signals u <> PyNone -> uses_stub u = false)
         (_recognize setup data nm).
Proof.
  eapply Forall_impl; [|apply (recognize_units_well_typed_aux setup data nm)].
  intros u [_ [[Hn|Hs] Ht]] Hne; [contradiction|].
  unfold uses_stub. rewrite Ht.
  destruct (signals u); simpl in *; try discriminate; reflexivity.
Qed.

Section EngineFacts.

Variable ext : Type.
Variable outcome : Type.
Variable for_interval : pyobj -> option timestamp -> option timestamp -> result pyobj.
Variable fit_predict : pyobj -> market_data -> result ext.
Variable getitem_slice : pyobj -> timestamp -> timestamp -> result ext.
Variable z_backtest : backtest_call ext -> result outcome.

Lemma get_signals_stub (s : SimSetup) (data : market_data)
      (start stop : option timestamp) :
  uses_stub s = true ->
  get_signals for_interval fit_predict getitem_slice s data start stop
  = (r <- start_stop_sigs data start stop ;; Ok (Stub r)).
Proof.
  unfold uses_stub, get_signals. destruct (signals s); try reflexivity;
    intros ->; reflexivity.
Qed.

(** With a source, the stub is not called for. *)
Lemma get_signals_source (s : SimSetup) (data : market_data)
      (start stop : option timestamp) :
  uses_stub s = false ->
  get_signals for_interval fit_predict getitem_slice s data start stop
  = if _Types_eqb (signal_type s) ESTIMATOR
    then sx' <- match signals s with
                | PyEstimator _ true => for_interval (signals s) start stop
                | _ => Ok (signals s)
                end ;;
         v <- fit_predict sx' data ;;
         Ok (Computed v)
    else match start, stop with
         | Some a, Some b => v <- getitem_slice (signals s) a b ;; Ok (Computed v)
         | _, _ => Ok (Given (signals s))
         end.
Proof.
  unfold uses_stub, get_signals.
  destruct (signals s); try discriminate; intros ->; reflexivity.
Qed.

Lemma get_signals_source_runs (s : SimSetup) (data : market_data)
      (start stop : option timestamp) :
  (forall sx a b, exists sx', for_interval sx a b = Ok sx') ->
  (forall sx, exists v, fit_predict sx data = Ok v) ->
  (forall sx a b, exists v, getitem_slice sx a b = Ok v) ->
  uses_stub s = false ->
  exists sigs,
    get_signals for_interval fit_predict getitem_slice s data start stop = Ok sigs /\
    forall f, sigs <> Stub f.
Proof.
  intros Hf Hp Hg Hu. rewrite (get_signals_source s data start stop Hu).
  destruct (_Types_eqb (signal_type s) ESTIMATOR).
  - assert (Hsx : exists sx',
               match signals s with
               | PyEstimator _ true => for_interval (signals s) start stop
               | _ => Ok (signals s)
               end = Ok sx').
    { destruct (signals s) as [| | | | |id [|]|]; eauto. }
    destruct Hsx as [sx' ->]. cbn [bind].
    destruct (Hp sx') as [v ->]. cbn [bind].
    eexists. split; [reflexivity|discriminate].
  - destruct start as [a|], stop as [b|];
      try (eexists; split; [reflexivity|discriminate]).
    destruct (Hg (signals s) a b) as [v ->]. cbn [bind].
    eexists. split; [reflexivity|discriminate].
Qed.

Lemma proc_run_Ok (s : SimSetup) (data : market_data)
      (start stop : option timestamp) (broker : string) (spreads : float64)
      (r : outcome) :
  _proc_run for_interval fit_predict getitem_slice z_backtest
            s data start stop broker spreads = Ok r
  <-> exists sigs,
        get_signals for_interval fit_predict getitem_slice s data start stop = Ok sigs /\
        z_backtest (call_for sigs data broker spreads s) = Ok r.
Proof.
  unfold _proc_run, call_for.
  destruct (get_signals for_interval fit_predict getitem_slice s data start stop)
    as [sigs|e]; cbn [bind].
  - split; [intros H; exists sigs; auto|].
    intros [sigs' [E H]]. injection E as <-. exact H.
  - split; [discriminate|]. intros [sigs' [E _]]. discriminate.
Qed.

Lemma run_all_Ok (sims : list SimSetup) (data : market_data)
      (start stop : option timestamp) (broker : string) (spreads : float64)
      (rs : list outcome) :
  run_all for_interval fit_predict getitem_slice z_backtest
          sims data start stop broker spreads = Ok rs
  <-> Forall2 (fun u r => _proc_run for_interval fit_predict getitem_slice z_backtest
                                    u data start stop broker spreads = Ok r) sims rs.
Proof.
  revert rs. induction sims as [|s sims IH]; intros rs; simpl.
  - split; [intros H; injection H as <-; constructor|].
    intros H. inversion H. reflexivity.
  - destruct (_proc_run for_interval fit_predict getitem_slice z_backtest
                        s data start stop broker spreads) as [b|e] eqn:E; cbn [bind].
    + destruct (run_all for_interval fit_predict getitem_slice z_backtest
                        sims data start stop broker spreads) as [bs|e]; cbn [bind].
      * split.
        -- intros H. injection H as <-. constructor; [exact E|now apply IH].
        -- intros H. inversion H as [|? r ? rs' Hr Hrs]; subst.
           rewrite E in Hr. injection Hr as <-.
           apply IH in Hrs. injection Hrs as <-. reflexivity.
      * split; [discriminate|].
        intros H. inversion H as [|? r ? rs' Hr Hrs]; subst.
        apply IH in Hrs. discriminate.
    + split; [discriminate|].
      intros H. inversion H as [|? r ? rs' Hr Hrs]; subst.
      rewrite E in Hr. discriminate.
Qed.

Lemma run_all_Error (sims : list SimSetup) (data : market_data)
      (start stop : option timestamp) (broker : string) (spreads : float64)
      (e : exn) :
  run_all for_interval fit_predict getitem_slice z_backtest
          sims data start stop broker spreads = Error e ->
  exists before u after,
    sims = (before ++ u :: after)%list /\
    Forall (fun v => exists r,
                _proc_run for_interval fit_predict getitem_slice z_backtest
                          v data start stop broker spreads = Ok r) before /\
    _proc_run for_interval fit_predict getitem_slice z_backtest
              u data start stop broker spreads = Error e.
Proof.
  induction sims as [|s sims IH]; simpl; [discriminate|].
  destruct (_proc_run for_interval fit_predict getitem_slice z_backtest
                      s data start stop broker spreads) as [b|e'] eqn:E; cbn [bind].
  - destruct (run_all for_interval fit_predict getitem_slice z_backtest
                      sims data start stop broker spreads) as [bs|e'']; cbn [bind];
      [discriminate|].
    intros H. injection H as ->.
    destruct (IH eq_refl) as [before [u [after [-> [Hb Hu]]]]].
    exists (s :: before), u, after. split; [reflexivity|].
    split; [constructor; eauto|exact Hu].
  - intros H. injection H as ->. exists [], s, sims. auto.
Qed.

(** X11.  [simulation] returns exactly when, for every recognised unit in
    turn, the unit's signals resolve and the engine answers the call made
    with them, the data, the broker, the spreads, the unit's name and
    tracker, and the execution logger switched on; it then returns the
    engine's answers, one per unit, in the order of the units.  When
    it raises, it raises what the first failing unit raised, the units
    before it having run. *)
Theorem simulation_calls (setup : pyobj) (data : market_data) (broker project : string)
        (start stop : option timestamp) (spreads : float64) :
  (forall rs,
      simulation for_interval fit_predict getitem_slice z_backtest
                 setup data broker project start stop spreads = Ok rs
      <-> Forall2 (fun u r =>
                     exists sigs,
                       get_signals for_interval fit_predict getitem_slice
                                   u data start stop = Ok sigs /\
                       z_backtest (call_for sigs data broker spreads u) = Ok r)
                  (_recognize setup data project) rs) /\
  (forall e,
      simulation for_interval fit_predict getitem_slice z_backtest
                 setup data broker project start stop spreads = Error e ->
      exists before u after,
        _recognize setup data project = (before ++ u :: after)%list /\
        Forall (fun v => exists r,
                    _proc_run for_interval fit_predict getitem_slice z_backtest
                              v data start stop broker spreads = Ok r) before /\
        _proc_run for_interval fit_predict getitem_slice z_backtest
                  u data start stop broker spreads = Error e).
Proof.
  unfold simulation. split.
  - intros rs. rewrite run_all_Ok. split; intros H.
    + eapply Forall2_impl; [|exact H]. intros u r Hr. now apply proc_run_Ok.
    + eapply Forall2_impl; [|exact H]. intros u r Hr. now apply proc_run_Ok.
  - intros e. apply run_all_Error.
Qed.

Lemma run_all_sources (sims : list SimSetup) (data : market_data)
      (start stop : option timestamp) (broker : string) (spreads : float64) :
  (forall sx a b, exists sx', for_interval sx a b = Ok sx') ->
  (forall sx, exists v, fit_predict sx data = Ok v) ->
  (forall sx a b, exists v, getitem_slice sx a b = Ok v) ->
  (forall c, exists r, z_backtest c = Ok r) ->
  Forall (fun u => uses_stub u = false) sims ->
  exists rs,
    run_all for_interval fit_predict getitem_slice z_backtest
            sims data start stop broker spreads = Ok rs /\
    Forall2 (fun u r =>
               exists sigs,
                 get_signals for_interval fit_predict getitem_slice
                             u data start stop = Ok sigs /\
                 (forall f, sigs <> Stub f) /\
                 z_backtest (call_for sigs data broker spreads u) = Ok r)
            sims rs.
Proof.
  intros Hf Hp Hg Hz. induction 1 as [|s sims Hs _ [rs [IH1 IH2]]]; simpl.
  - exists []. split; [reflexivity|constructor].
  - destruct (get_signals_source_runs s data start stop Hf Hp Hg Hs) as [sigs [E Hn]].
    destruct (Hz (call_for sigs data broker spreads s)) as [r Hr].
    exists (r :: rs). unfold _proc_run. rewrite E. cbn [bind].
    unfold call_for in Hr. rewrite Hr. cbn [bind]. rewrite IH1. cbn [bind].
    split; [reflexivity|]. constructor; [|exact IH2].
    exists sigs. auto.
Qed.

(** X12.  When every recognised unit has a signal source and the calls
    into the other libraries succeed, [simulation] succeeds whatever the
    market data: no unit is given a stub, and none is computed, so that a
    frame on which [start_stop_sigs] raises does no harm. *)
Theorem simulation_with_sources (setup : pyobj) (data : market_data)
        (broker project : string) (start stop : option timestamp) (spreads : float64) :
  (forall sx a b, exists sx', for_interval sx a b = Ok sx') ->
  (forall sx, exists v, fit_predict sx data = Ok v) ->
  (forall sx a b, exists v, getitem_slice sx a b = Ok v) ->
  (forall c, exists r, z_backtest c = Ok r) ->
  Forall (fun u => signals u <> PyNone) (_recognize setup data project) ->
  exists rs,
    simulation for_interval fit_predict getitem_slice z_backtest
               setup data broker project start stop spreads = Ok rs /\
    Forall2 (fun u r =>
               exists sigs,
                 get_signals for_interval fit_predict getitem_slice
                             u data start stop = Ok sigs /\
                 (forall f, sigs <> Stub f) /\
                 z_backtest (call_for sigs data broker spreads u) = Ok r)
            (_recognize setup data project) rs.
Proof.
  intros Hf Hp Hg Hz H. unfold simulation. apply run_all_sources; auto.
  pose proof (recognized_source_no_stub setup data project) as Hs.
  rewrite Forall_forall in *. intros s Hin. now apply Hs, H.
Qed.

Lemma proc_run_stub_error (s : SimSetup) (data : market_data)
      (start stop : option timestamp) (broker : string) (spreads : float64) (e : exn) :
  start_stop_sigs data start stop = Error e ->
  signals s = PyNone ->
  _proc_run for_interval fit_predict getitem_slice z_backtest
            s data start stop broker spreads = Error e.
Proof.
  intros He Hn. unfold _proc_run, get_signals. rewrite Hn, He. reflexivity.
Qed.

Lemma run_all_stub_raises (sims : list SimSetup) (data : market_data)
      (start stop : option timestamp) (broker : string) (spreads : float64) (e : exn) :
  start_stop_sigs data start stop = Error e ->
  Exists (fun s => signals s = PyNone) sims ->
  exists e', run_all for_interval fit_predict getitem_slice z_backtest
                     sims data start stop broker spreads = Error e'.
Proof.
  intros He. induction 1 as [s sims Hn|s sims _ [e' IH]]; simpl.
  - rewrite (proc_run_stub_error s data start stop broker spreads e He Hn).
    cbn [bind]. eauto.
  - destruct (_proc_run for_interval fit_predict getitem_slice z_backtest
                        s data start stop broker spreads) as [b|e'']; cbn [bind];
      [rewrite IH; cbn [bind]|]; eauto.
Qed.

Lemma run_all_stub_error (sims : list SimSetup) (data : market_data)
      (start stop : option timestamp) (broker : string) (spreads : float64) (e : exn) :
  start_stop_sigs data start stop = Error e ->
  Exists (fun s => signals s = PyNone) sims ->
  (forall u, In u sims -> signals u <> PyNone ->
             exists r, _proc_run for_interval fit_predict getitem_slice z_backtest
                                 u data start stop broker spreads = Ok r) ->
  run_all for_interval fit_predict getitem_slice z_backtest
          sims data start stop broker spreads = Error e.
Proof.
  intros He. induction sims as [|s sims IH]; intros Hex Hok; [inversion Hex|].
  simpl. destruct (signals s) eqn:Hs;
    try (rewrite (proc_run_stub_error s data start stop broker spreads e He Hs);
         reflexivity);
    (destruct (Hok s (or_introl eq_refl)) as [r ->]; [rewrite Hs; discriminate|];
     cbn [bind]; rewrite IH;
     [ reflexivity
     | inversion Hex as [? ? H|? ? H]; subst; [congruence|exact H]
     | intros u Hu; apply Hok; now right ]).
Qed.

(** X13.  When the stub cannot be computed and some recognised unit has no
    signal source, [simulation] returns nothing: it raises; and what it
    raises is the error of the stub when the units that have a source run
    without error. *)
Theorem simulation_stub_error (setup : pyobj) (data : market_data)
        (broker project : string) (start stop : option timestamp) (spreads : float64)
        (e : exn) :
  start_stop_sigs data start stop = Error e ->
  Exists (fun u => signals u = PyNone) (_recognize setup data project) ->
  (exists e', simulation for_interval fit_predict getitem_slice z_backtest
                         setup data broker project start stop spreads = Error e') /\
  ((forall u, In u (_recognize setup data project) -> signals u <> PyNone ->
              exists r, _proc_run for_interval fit_predict getitem_slice z_backtest
                                  u data start stop broker spreads = Ok r) ->
   simulation for_interval fit_predict getitem_slice z_backtest
              setup data broker project start stop spreads = Error e).
Proof.
  intros He Hex. unfold simulation. split.
  - now apply (run_all_stub_raises _ data start stop broker spreads e).
  - now apply run_all_stub_error.
Qed.

End EngineFacts.

Lemma simulation_with_sources_witness :
  exists rs,
    simulation demo_for_interval demo_fit_predict demo_slice demo_backtest
               demo_sources empty_data "broker" "prj" None None zero = Ok rs /\
    Forall2 (fun u r =>
               exists sigs,
                 get_signals demo_for_interval demo_fit_predict demo_slice
                             u empty_data None None = Ok sigs /\
                 (forall f, sigs <> Stub f) /\
                 demo_backtest (call_for sigs empty_data "broker" zero u) = Ok r)
            (_recognize demo_sources empty_data "prj") rs.
Proof.
  apply (simulation_with_sources unit (backtest_call unit)
           demo_for_interval demo_fit_predict demo_slice demo_backtest
           demo_sources empty_data "broker" "prj" None None zero).
  - intros sx a b. eexists. reflexivity.
  - intros sx. eexists. reflexivity.
  - intros sx a b. eexists. reflexivity.
  - intros c. eexists. reflexivity.
  - vm_compute. repeat constructor; discriminate.
Defined.

Lemma simulation_stub_error_witness :
  (exists e', simulation demo_for_interval demo_fit_predict demo_slice demo_backtest
                         demo_setup empty_data "broker" "prj" None None zero
              = Error e') /\
  ((forall u, In u (_recognize demo_setup empty_data "prj") -> signals u <> PyNone ->
              exists r, _proc_run demo_for_interval demo_fit_predict demo_slice
                                  demo_backtest u empty_data None None "broker" zero
                        = Ok r) ->
   simulation demo_for_interval demo_fit_predict demo_slice demo_backtest
              demo_setup empty_data "broker" "prj" None None zero
   = Error IndexError).
Proof.
  apply (simulation_stub_error unit (backtest_call unit)
           demo_for_interval demo_fit_predict demo_slice demo_backtest
           demo_setup empty_data "broker" "prj" None None zero IndexError).
  - vm_compute. reflexivity.
  - vm_compute. right. left. reflexivity.
Defined.

End SimulationFacts.

(* ------------------------------------------------------------------ *)

Module StubEdgeFacts.

Import Multisim ResolverFacts StubFacts SetupFacts SimulationFacts.
Local Open Scope string_scope.

(** * The stub loop *)

Lemma dict_set_stub_like (d : DataFrame) (t : timestamp) (ss : Series float64) :
  In t d -> stub_like d ss -> stub_like d (Dict.set Z.eqb t nan ss).
Proof.
  intros Ht [Hin [Hv ND]].
  assert (Hcases : Dict.set Z.eqb t nan ss = ss \/
                   (~ In t (index ss) /\ Dict.set Z.eqb t nan ss = (ss ++ [(t, nan)])%list)).
  { clear Hin ND. induction ss as [|[k w] ss IH]; simpl.
    - right. split; [tauto|reflexivity].
    - unfold values in Hv. simpl in Hv.
      inversion Hv as [|? ? Hw Hv']; subst.
      destruct (Z.eqb_spec k t) as [->|Hne]; [now left|].
      destruct (IH Hv') as [E|[Hn E]].
      + left. now rewrite E.
      + right. split; [simpl; tauto|]. now rewrite E. }
  destruct Hcases as [->|[Hn ->]]; [now repeat split|].
  unfold stub_like, index, values. rewrite !map_app. simpl. split; [|split].
  - intros u Hu. apply in_app_or in Hu as [Hu|[<-|[]]]; auto.
  - apply Forall_app. split; [exact Hv|]. now constructor.
  - apply NoDup_rev in ND. rewrite <- (rev_involutive (map fst ss ++ [t])).
    apply NoDup_rev. rewrite rev_app_distr. simpl. constructor; [|exact ND].
    now rewrite <- in_rev.
Qed.

Lemma stub_loop_ok (d : DataFrame) (dx : nat) (js : list nat) (ss : Series float64) :
  Forall (fun j => (j * dx < List.length d)%nat) js ->
  stub_like d ss ->
  exists ss', stub_loop d dx js ss = Ok ss' /\ stub_like d ss'.
Proof.
  revert ss. induction js as [|j js IH]; intros ss Hr Hs; simpl.
  - now exists ss.
  - inversion Hr as [|? ? Hj Hr']; subst.
    unfold index_at. rewrite (nth_error_nth' d 0%Z Hj). cbn [bind].
    apply IH; [exact Hr'|]. apply dict_set_stub_like; [|exact Hs].
    now apply nth_In.
Qed.

Lemma stub_loop_error (d : DataFrame) (dx : nat) (js : list nat) (ss : Series float64) :
  Exists (fun j => (List.length d <= j * dx)%nat) js ->
  stub_loop d dx js ss = Error IndexError.
Proof.
  revert ss. induction js as [|j js IH]; intros ss Hex; [inversion Hex|].
  simpl. unfold index_at.
  destruct (nth_error d (j * dx)) as [t|] eqn:E; [|reflexivity].
  cbn [bind]. apply IH.
  inversion Hex as [? ? H|? ? H]; subst; [|exact H].
  apply nth_error_None in H. congruence.
Qed.

Lemma stub_like_empty (d : DataFrame) : stub_like d [].
Proof. repeat split; try constructor. intros t []. Qed.

Lemma start_stop_resolve (d : DataFrame) (start stop : option timestamp) :
  d <> [] ->
  match start with None => index_at d 0 | Some s => Ok s end
  = Ok (or_default start (hd 0%Z d)) /\
  match stop with None => index_last d | Some s => Ok s end
  = Ok (or_default stop (last d 0%Z)).
Proof.
  intros Hne. destruct (index_first_last d Hne) as [H1 H2].
  split; [destruct start|destruct stop]; auto.
Qed.

Lemma stub_loop_first (t0 : timestamp) (d' : DataFrame) (dx : nat) (js : list nat) :
  stub_loop (t0 :: d') dx (0%nat :: js) []
  = stub_loop (t0 :: d') dx js [(t0, nan)].
Proof. reflexivity. Qed.

(** The loop never removes a key. *)
Lemma stub_loop_keeps (d : DataFrame) (dx : nat) (js : list nat)
      (s0 s1 : Series float64) :
  s0 <> [] -> stub_loop d dx js s0 = Ok s1 -> s1 <> [].
Proof.
  revert s0 s1. induction js as [|j js IH]; intros s0 s1 Hn Hl; simpl in Hl.
  - injection Hl as <-. exact Hn.
  - destruct (index_at d (j * dx)) as [t|]; [|discriminate].
    cbn [bind] in Hl. eapply IH; [|exact Hl].
    destruct s0 as [|[k w] s0]; [congruence|]. simpl.
    destruct (Z.eqb k t); discriminate.
Qed.

(** X14.  On non-empty market data, [start_stop_sigs] raises exactly when
    the first frame has no row at position [100 * dx], [dx] being the hundredth
    of the number of rows between [start] and [stop], rounded down; and what
    it raises then is an [IndexError]. *)
Theorem start_stop_sigs_index_error (i : string) (d : DataFrame) (rest : market_data)
        (start stop : option timestamp) :
  ((exists e, start_stop_sigs ((i, d) :: rest) start stop = Error e)
   <-> (List.length d <= 100 * stub_step d start stop)%nat) /\
  (forall e, start_stop_sigs ((i, d) :: rest) start stop = Error e -> e = IndexError).
Proof.
  destruct d as [|t0 d'].
  - assert (H : start_stop_sigs ((i, []) :: rest) start stop = Error IndexError)
      by (destruct start, stop; reflexivity).
    split; [split; [intros _; simpl; lia|intros _; exists IndexError; exact H]|].
    intros e He. pose proof (eq_trans (eq_sym H) He) as E. now injection E.
  - set (d := t0 :: d') in *.
    assert (Hne : d <> []) by discriminate.
    destruct (start_stop_resolve d start stop Hne) as [Hs Ht].
    unfold start_stop_sigs. rewrite Hs. cbn [bind]. rewrite Ht. cbn [bind].
    fold (stub_step d start stop). set (dx := stub_step d start stop).
    destruct (Nat.le_gt_cases (List.length d) (100 * dx)) as [Hle|Hgt].
    + rewrite stub_loop_error.
      * cbn [bind]. split; [split; [intros _; exact Hle|intros _; eauto]|].
        intros e He. now injection He.
      * apply Exists_exists. exists 100%nat. split; [apply in_seq; lia|lia].
    + destruct (stub_loop_ok d dx (seq 0 101) []) as [ss [Hok _]].
      * apply Forall_forall. intros j Hj. apply in_seq in Hj. nia.
      * apply stub_like_empty.
      * rewrite Hok. cbn [bind]. split; [split|]; [intros [e He]; discriminate|lia|].
        intros e He. discriminate.
Qed.

(** X15.  [start_stop_sigs] returns [None] exactly for empty market data;
    any frame it returns has one column, named after the first entry of the
    data, not empty, whose labels are labels of that entry's frame, each
    once, all under NaN: the other entries are never looked at. *)
Theorem start_stop_sigs_shape (data : market_data) (start stop : option timestamp) :
  (start_stop_sigs data start stop = Ok None <-> data = []) /\
  (forall f, start_stop_sigs data start stop = Ok (Some f) ->
     exists i d rest ss,
       data = (i, d) :: rest /\ f = [(i, ss)] /\
       ss <> [] /\
       (forall t, In t (index ss) -> In t d) /\
       Forall (fun v => v = nan) (values ss) /\
       NoDup (index ss)).
Proof.
  destruct data as [|[i d] rest].
  - split; [split; reflexivity|]. intros f H. discriminate.
  - split.
    + split; [|discriminate]. unfold start_stop_sigs.
      destruct (match start with None => index_at d 0 | Some s => Ok s end);
        [|discriminate]. cbn [bind].
      destruct (match stop with None => index_last d | Some s => Ok s end);
        [|discriminate]. cbn [bind].
      destruct (stub_loop _ _ _ _); discriminate.
    + intros f H.
      destruct d as [|t0 d'].
      { exfalso. destruct start, stop; discriminate. }
      assert (Hne : t0 :: d' <> []) by discriminate.
      destruct (start_stop_resolve (t0 :: d') start stop Hne) as [Hs Ht].
      unfold start_stop_sigs in H. rewrite Hs in H. cbn [bind] in H.
      rewrite Ht in H. cbn [bind] in H.
      fold (stub_step (t0 :: d') start stop) in H.
      set (dx := stub_step (t0 :: d') start stop) in *.
      destruct (Nat.le_gt_cases (List.length (t0 :: d')) (100 * dx)) as [Hle|Hgt].
      { rewrite stub_loop_error in H; [discriminate|].
        apply Exists_exists. exists 100%nat. split; [apply in_seq; lia|lia]. }
      change (seq 0 101) with (0%nat :: seq 1 100) in H.
      rewrite stub_loop_first in H.
      destruct (stub_loop_ok (t0 :: d') dx (seq 1 100) [(t0, nan)])
        as [ss [Hok [Hin [Hv ND]]]].
      * apply Forall_forall. intros j Hj. apply in_seq in Hj. nia.
      * split; [intros t [<-|[]]; now left|].
        split; [repeat constructor|]. simpl. constructor; [tauto|constructor].
      * rewrite Hok in H. cbn [bind] in H. injection H as <-.
        exists i, (t0 :: d'), rest, ss. repeat split; auto.
        intros ->.
        eapply (stub_loop_keeps (t0 :: d') dx (seq 1 100) [(t0, nan)] []);
          [discriminate|exact Hok|reflexivity].
Qed.

(** X16.  When fewer than a hundred rows of the first frame lie between
    [start] and [stop], the stub is the single placeholder at the first
    label of the frame. *)
Theorem start_stop_sigs_short (i : string) (t0 : timestamp) (d' : DataFrame)
        (rest : market_data) (start stop : option timestamp) :
  (List.length (slice_rows (t0 :: d') (or_default start t0)
                           (or_default stop (last d' t0))) < 100)%nat ->
  start_stop_sigs ((i, t0 :: d') :: rest) start stop
  = Ok (Some [(i, [(t0, nan)])]).
Proof.
  intros Hlen.
  assert (Hs : match start with None => index_at (t0 :: d') 0 | Some s => Ok s end
               = Ok (or_default start t0)) by (destruct start; reflexivity).
  assert (Ht : match stop with None => index_last (t0 :: d') | Some s => Ok s end
               = Ok (or_default stop (last d' t0))) by (destruct stop; reflexivity).
  unfold start_stop_sigs. rewrite Hs. cbn [bind]. rewrite Ht. cbn [bind].
  rewrite (Nat.div_small _ 100 Hlen).
  assert (Hloop : forall js ss,
             ss = [] \/ ss = [(t0, nan)] -> js <> [] \/ ss <> [] ->
             stub_loop (t0 :: d') 0 js ss = Ok [(t0, nan)]).
  { induction js as [|j js IH]; intros ss Hss Hne; simpl.
    - destruct Hne as [Hne|Hne]; [congruence|].
      destruct Hss as [->| ->]; [congruence|reflexivity].
    - rewrite Nat.mul_0_r. cbn [index_at nth_error bind].
      apply IH; [|right].
      + right. destruct Hss as [->| ->]; simpl; [reflexivity|].
        now rewrite Z.eqb_refl.
      + destruct Hss as [->| ->]; simpl; [discriminate|].
        rewrite Z.eqb_refl. discriminate. }
  rewrite Hloop; [reflexivity|now left|left; discriminate].
Qed.

Lemma start_stop_sigs_short_witness :
  start_stop_sigs [("A", 0%Z :: map Z.of_nat (seq 1 49))] None None
  = Ok (Some [("A", [(0%Z, nan)])]).
Proof.
  apply (start_stop_sigs_short "A" 0%Z (map Z.of_nat (seq 1 49)) [] None None).
  vm_compute. lia.
Defined.

End StubEdgeFacts.

(* ------------------------------------------------------------------ *)

Module KeyFacts.

Import Management ResolverFacts DictFacts IndexFacts ManagerFacts.
Local Open Scope string_scope.

(** * Keys *)

Lemma parse_key_path (s : string) (p r : string) (k : Z) (sym pth : string) :
  parse_key s = Ok (p, r, k, sym, pth) -> pth = s.
Proof.
  unfold parse_key.
  destruct (tl (split "/" s) ++ [s])%list as [|a [|b [|c [|d [|? ?]]]]] eqn:E;
    simpl; try discriminate.
  destruct (item (split "." b) 1) as [s1|]; simpl; [|discriminate].
  destruct (int s1) as [k'|]; simpl; [|discriminate].
  destruct (item (split "." b) 2) as [s2|]; simpl; [|discriminate].
  intros H. injection H as <- <- <- <- <-.
  destruct (tl (split "/" s)) as [|x [|y [|z [|? ?]]]]; simpl in E; try discriminate;
    try (injection E as _ _ _ E; congruence).
  injection E as _ _ _ E. destruct l; discriminate.
Qed.

Lemma split_join (c : ascii) (s h : string) (t : list string) :
  split c s = h :: t -> s = h ++ join_tail (String c "") t.
Proof.
  revert h t. induction s as [|x s IH]; intros h t H; simpl in H.
  - now injection H as <- <-.
  - destruct (Ascii.eqb_spec x c) as [->|Hne].
    + injection H as <- <-.
      destruct (split c s) as [|h' t'] eqn:E; simpl.
      * exfalso. clear -E. induction s as [|y s IH]; simpl in E; [discriminate|].
        destruct (Ascii.eqb y c); [discriminate|].
        destruct (split c s); [auto|discriminate].
      * now rewrite (IH h' t' eq_refl).
    + destruct (split c s) as [|h' t'] eqn:E.
      * injection H as <- <-. exfalso. clear -E.
        induction s as [|y s IH]; simpl in E; [discriminate|].
        destruct (Ascii.eqb y c); [discriminate|].
        destruct (split c s); [auto|discriminate].
      * injection H as <- <-. simpl. now rewrite (IH h' t' eq_refl).
Qed.

Lemma append_nil_r (s : string) : s ++ "" = s.
Proof. induction s; simpl; congruence. Qed.

Lemma parse_key_segments (s : string) (p r : string) (k : Z) (sym pth : string) :
  parse_key s = Ok (p, r, k, sym, pth) ->
  exists x t, split "/" s = [x; p; t; r] /\
              s = x ++ "/" ++ p ++ "/" ++ t ++ "/" ++ r.
Proof.
  intros H.
  assert (Hj : forall h t, split "/" s = h :: t -> s = h ++ join_tail "/" t)
    by (intros h t; apply split_join).
  revert H. unfold parse_key.
  destruct (split "/" s) as [|x [|a [|b [|c [|? ?]]]]] eqn:E;
    simpl; try discriminate.
  - destruct (item (split "." b) 1) as [s1|]; simpl; [|discriminate].
    destruct (int s1) as [k'|]; simpl; [|discriminate].
    destruct (item (split "." b) 2) as [s2|]; simpl; [|discriminate].
    intros H. injection H as <- <- <- <- <-.
    exists x, b. split; [reflexivity|].
    rewrite (Hj _ _ eq_refl) at 1. simpl. now rewrite append_nil_r.
  - destruct l; discriminate.
Qed.

Lemma prefix_append (a s : string) :
  prefix a s = true -> exists s', s = a ++ s'.
Proof.
  revert s. induction a as [|c a IH]; intros s H.
  - now exists s.
  - destruct s as [|c' s]; simpl in H; [discriminate|].
    destruct (ascii_dec c c') as [->|]; [|discriminate].
    destruct (IH s H) as [s' ->]. now exists s'.
Qed.

Lemma prefix_first_segment (s x : string) (rest : list string) :
  prefix "runs/" s = true -> split "/" s = x :: rest -> x = "runs".
Proof.
  intros Hp Hs. destruct (prefix_append _ _ Hp) as [s' ->].
  change ("runs/" ++ s') with ("runs" ++ String "/" s') in Hs.
  rewrite split_append in Hs by reflexivity. now injection Hs as <- _.
Qed.

End KeyFacts.

(* ------------------------------------------------------------------ *)

Module ListingFacts.

Import Management ResolverFacts DictFacts IndexFacts ManagerFacts KeyFacts.
Local Open Scope string_scope.

(** * The index and the listing *)

Lemma collect_loop_succeeds (recs : list string) (idx0 : index) :
  (exists idx, collect_loop recs idx0 = Ok idx) <-> Forall parses recs.
Proof.
  revert idx0. induction recs as [|s recs IH]; intros idx0; simpl.
  - split; [constructor|eauto].
  - destruct (parse_key s) as [e|err] eqn:E; simpl.
    + rewrite IH. split; [intros H; constructor; [now exists e|exact H]|].
      intros H. now inversion H.
    + split; [intros [idx H]; discriminate|].
      intros H. inversion H as [|? ? [e He] _]; subst. congruence.
Qed.

Lemma collect_loop_entries (recs : list string) (idx0 idx : index) :
  collect_loop recs idx0 = Ok idx ->
  exists es, Forall2 (fun s e => parse_key s = Ok e) recs es /\
             idx = fold_left add_record es idx0.
Proof.
  revert idx0. induction recs as [|s recs IH]; intros idx0 H; simpl in H.
  - injection H as <-. exists []. split; [constructor|reflexivity].
  - destruct (parse_key s) as [e|err] eqn:E; simpl in H; [|discriminate].
    destruct (IH _ H) as [es [HF ->]]. exists (e :: es).
    split; [now constructor|reflexivity].
Qed.

Lemma item_error {A} (l : list A) (n : nat) (e : exn) :
  item l n = Error e -> e = IndexError.
Proof. unfold item. destruct (nth_error l n); congruence. Qed.

Lemma int_error (s : string) (e : exn) : int s = Error e -> e = ValueError.
Proof.
  unfold int.
  match goal with
  | |- match ?o with Some k => Ok k | None => Error ValueError end = _ -> _ =>
      destruct o; congruence
  end.
Qed.

Lemma parse_key_error (s : string) (e : exn) :
  parse_key s = Error e -> e = ValueError \/ e = IndexError.
Proof.
  unfold parse_key, unpack4.
  destruct (tl (split "/" s) ++ [s])%list as [|a [|b [|c [|d [|? ?]]]]];
    cbn [bind]; try (intros H; injection H as <-; now left).
  destruct (item (split "." b) 1) as [s1|e1] eqn:E1; cbn [bind];
    [|intros H; injection H as <-; right; now apply item_error in E1].
  destruct (int s1) as [k|e2] eqn:E2; cbn [bind];
    [|intros H; injection H as <-; left; now apply int_error in E2].
  destruct (item (split "." b) 2) as [s2|e3] eqn:E3; cbn [bind];
    [discriminate|intros H; injection H as <-; right; now apply item_error in E3].
Qed.

Lemma collect_loop_error (recs : list string) (idx0 : index) (e : exn) :
  collect_loop recs idx0 = Error e ->
  exists s, In s recs /\ parse_key s = Error e.
Proof.
  revert idx0. induction recs as [|s recs IH]; intros idx0; simpl; [discriminate|].
  destruct (parse_key s) as [x|err] eqn:E; simpl.
  - intros H. destruct (IH _ H) as [s' [Hin Hs]]. exists s'. auto.
  - intros H. injection H as <-. exists s. auto.
Qed.

(** X17.  [_collect_data] succeeds exactly when every key listed under
    [runs/] for the host can be read; otherwise it raises the error of a
    listed key, a [ValueError] or an [IndexError], and returns no index
    at all. *)
Theorem collect_data_succeeds (st : storage) (host : option string) :
  ((exists idx, _collect_data st host = Ok idx)
   <-> Forall parses (z_ls "runs/" host st)) /\
  (forall e, _collect_data st host = Error e ->
             (e = ValueError \/ e = IndexError) /\
             exists s, In (host, s) st /\ parse_key s = Error e).
Proof.
  unfold _collect_data. split; [apply collect_loop_succeeds|].
  intros e H. destruct (collect_loop_error _ _ _ H) as [s [Hin Hs]].
  split; [now apply (parse_key_error s)|].
  exists s. split; [|exact Hs].
  unfold z_ls in Hin. apply in_map_iff in Hin as [[h k] [<- Hin]].
  apply filter_In in Hin as [Hin Hc]. simpl in *.
  apply andb_true_iff in Hc as [Hh _].
  destruct h, host; simpl in Hh; try discriminate; [|exact Hin].
  apply String.eqb_eq in Hh. now subst.
Qed.

Lemma last_record_entry (es : list entry) (p r : string) (k : Z) (m : mstruct) :
  last_record es p r k = Some m ->
  exists sym pth, In (p, r, k, sym, pth) es /\ m = mk_mstruct r sym pth.
Proof.
  induction es as [|[[[[p' r'] k'] sym] pth] es IH]; simpl; [discriminate|].
  destruct (last_record es p r k) as [m'|].
  - intros H. destruct (IH H) as [s [q [Hin E]]]. exists s, q. auto.
  - destruct (String.eqb_spec p' p) as [->|]; simpl; [|discriminate].
    destruct (String.eqb_spec r' r) as [->|]; simpl; [|discriminate].
    destruct (Z.eqb_spec k' k) as [->|]; [|discriminate].
    intros H. injection H as <-. exists sym, pth. auto.
Qed.

Lemma Forall2_In_r {A B} (R : A -> B -> Prop) (l : list A) (l' : list B) (b : B) :
  Forall2 R l l' -> In b l' -> exists a, In a l /\ R a b.
Proof.
  induction 1 as [|x y l l' Hxy _ IH]; intros Hin; [contradiction|].
  destruct Hin as [<-|Hin]; [exists x; simpl; auto|].
  destruct (IH Hin) as [a [Ha HR]]. exists a. simpl. auto.
Qed.

Lemma z_ls_In (q : string) (host : option string) (st : storage) (s : string) :
  In s (z_ls q host st) <-> In (host, s) st /\ prefix q s = true.
Proof.
  unfold z_ls. rewrite in_map_iff. split.
  - intros [[h k] [<- Hin]]. apply filter_In in Hin as [Hin Hc]. simpl in *.
    apply andb_true_iff in Hc as [Hh Hp]. split; [|exact Hp].
    destruct h, host; simpl in Hh; try discriminate; [|exact Hin].
    apply String.eqb_eq in Hh. now subst.
  - intros [Hin Hp]. exists (host, s). split; [reflexivity|].
    apply filter_In. split; [exact Hin|]. simpl. rewrite Hp, andb_true_r.
    destruct host; simpl; [apply String.eqb_refl|reflexivity].
Qed.

Lemma lookup_record_stored (st : storage) (host : option string) (idx : index)
      (p r : string) (k : Z) (rec : mstruct) :
  _collect_data st host = Ok idx ->
  lookup idx p r k = Some rec ->
  runid rec = r /\
  In (host, path rec) st /\
  parse_key (path rec) = Ok (p, r, k, symbol rec, path rec).
Proof.
  unfold _collect_data. intros Hc Hl.
  destruct (collect_loop_entries _ _ _ Hc) as [es [HF ->]].
  rewrite lookup_fold_add in Hl.
  destruct (last_record es p r k) as [m|] eqn:E; [|discriminate].
  injection Hl as <-.
  destruct (last_record_entry es p r k m E) as [sym [pth [Hin ->]]].
  destruct (Forall2_In_r _ _ _ _ HF Hin) as [s [Hs Hp]].
  pose proof (parse_key_path _ _ _ _ _ _ Hp) as ->.
  apply z_ls_In in Hs as [Hst _].
  simpl. repeat split; auto.
Qed.

(** X18.  Every record of the index built by [_collect_data] is filed
    where its own key says: its path is a stored key of the host that reads
    back as the project, run, sequence number and symbol it is filed under,
    and it is the key that [load] builds for the run from some task id. *)
Theorem index_records_parse_back (st : storage) (host : option string) (idx : index)
        (p r : string) (k : Z) (rec : mstruct) :
  _collect_data st host = Ok idx ->
  lookup idx p r k = Some rec ->
  runid rec = r /\
  In (host, path rec) st /\
  parse_key (path rec) = Ok (p, r, k, symbol rec, path rec) /\
  exists t_id, forall run, srd_prj run = p -> srd_run_id run = r ->
                           path rec = load_key run t_id.
Proof.
  intros Hc Hl.
  destruct (lookup_record_stored _ _ _ _ _ _ _ Hc Hl) as [Hr [Hst Hp]].
  split; [exact Hr|]. split; [exact Hst|]. split; [exact Hp|].
  assert (Hpre : prefix "runs/" (path rec) = true).
  { unfold _collect_data in Hc.
    destruct (collect_loop_entries _ _ _ Hc) as [es [HF ->]].
    rewrite lookup_fold_add in Hl.
    destruct (last_record es p r k) as [m|] eqn:E; [|discriminate].
    injection Hl as <-.
    destruct (last_record_entry es p r k m E) as [sym [pth [Hin ->]]].
    destruct (Forall2_In_r _ _ _ _ HF Hin) as [s [Hs Hp']].
    pose proof (parse_key_path _ _ _ _ _ _ Hp') as ->.
    now apply z_ls_In in Hs as [_ Hpre]. }
  destruct (parse_key_segments _ _ _ _ _ _ Hp) as [x [t [Hsp Hs]]].
  pose proof (prefix_first_segment _ _ _ Hpre Hsp) as ->.
  exists t. intros run <- <-. unfold load_key. exact Hs.
Qed.

Lemma index_records_parse_back_witness :
  let rec := mk_mstruct "run1" "EURUSD" "runs/prj/sim.2.EURUSD/run1" in
  runid rec = "run1" /\
  In (None, path rec) demo_storage /\
  parse_key (path rec) = Ok ("prj", "run1", 2%Z, symbol rec, path rec) /\
  exists t_id, forall run, srd_prj run = "prj" -> srd_run_id run = "run1" ->
                           path rec = load_key run t_id.
Proof.
  apply (index_records_parse_back demo_storage None demo_index "prj" "run1" 2%Z
           (mk_mstruct "run1" "EURUSD" "runs/prj/sim.2.EURUSD/run1")).
  - vm_compute. reflexivity.
  - vm_compute. reflexivity.
Defined.

End ListingFacts.

(* ------------------------------------------------------------------ *)

Module LookupFacts.

Import Management ResolverFacts DictFacts IndexFacts ManagerFacts KeyFacts ListingFacts.
Local Open Scope string_scope.

(** * Lookups of a manager *)

Lemma get_map_values {A B} (f : A -> B) (k : string) (d : list (string * A)) :
  Dict.get String.eqb k (map (fun kv => (fst kv, f (snd kv))) d)
  = option_map f (Dict.get String.eqb k d).
Proof.
  induction d as [|[j v] d IH]; simpl; [reflexivity|].
  destruct (String.eqb j k); [reflexivity|exact IH].
Qed.

Lemma run_of_lookup (idx : index) (p r : string) (d : run_dict) (k : Z) :
  run_of idx p r = Some d -> lookup idx p r k = Dict.get Z.eqb k d.
Proof.
  unfold run_of, lookup, get_or_empty.
  destruct (Dict.get String.eqb p idx) as [runs|]; [|discriminate].
  unfold run_dict in *.
  destruct (Dict.get String.eqb r runs) as [d'|]; [|discriminate].
  intros H. injection H as ->. reflexivity.
Qed.

Lemma fresh_manager_run (m : SimulationsManager) (w : world) (idx : index)
      (p r : string) :
  manager_index m w = index_view idx ->
  match run_of idx p r with
  | Some d =>
      exists l, run_data m p r = Ok (mk_SimulationRunData (PDict l) p r None) /\
                nth_error (w_heap w) l = Some d
  | None => run_data m p r = Error ValueError
  end.
Proof.
  intros Hv.
  assert (Hp : option_map (deref_runs (w_heap w)) (Dict.get String.eqb p (sm_p m))
               = option_map (map (fun rd => (fst rd, Some (snd rd))))
                            (Dict.get String.eqb p idx)).
  { rewrite <- !get_map_values. unfold manager_index, index_view in Hv.
    now rewrite Hv. }
  unfold run_of, run_data, Dict.mem, get_or_empty.
  destruct (Dict.get String.eqb p idx) as [druns|];
    destruct (Dict.get String.eqb p (sm_p m)) as [runs|]; simpl in Hp;
    try discriminate; simpl; [|reflexivity].
  injection Hp as Hp.
  assert (Hr : option_map (nth_error (w_heap w)) (Dict.get String.eqb r runs)
               = option_map Some (Dict.get String.eqb r druns)).
  { rewrite <- !get_map_values. unfold deref_runs in Hp. now rewrite Hp. }
  destruct (Dict.get String.eqb r druns) as [d|];
    destruct (Dict.get String.eqb r runs) as [l|]; simpl in Hr;
    try discriminate; [|reflexivity].
  injection Hr as Hr. exists l. split; [reflexivity|exact Hr].
Qed.

Lemma keys_index_view (m : SimulationsManager) (w : world) (idx : index) :
  manager_index m w = index_view idx -> Dict.keys (sm_p m) = Dict.keys idx.
Proof.
  intros Hv. apply (f_equal (map fst)) in Hv.
  unfold manager_index, index_view in Hv. rewrite !map_map in Hv. exact Hv.
Qed.

(** X19.  A manager as [ls_simulations] builds it answers from the index of
    [_collect_data]: [projects] lists its projects, [runs_for] the runs of
    a listed project, both leaving the manager as it is; [run_data] returns
    the run with its records for a listed project and run, addressed to the
    default host, and raises [ValueError] otherwise. *)
Theorem fresh_manager_lookups (host : option string) (w w' : world)
        (m : SimulationsManager) :
  SimulationsManager_init host w = Ok (m, w') ->
  exists idx,
    _collect_data (w_storage w) host = Ok idx /\
    projects m = (Dict.keys idx, m) /\
    (forall p runs, Dict.get String.eqb p idx = Some runs ->
                    runs_for m p = (Dict.keys runs, m)) /\
    forall p r,
      match run_of idx p r with
      | Some d =>
          exists run, run_data m p r = Ok run /\
                      srd_prj run = p /\ srd_run_id run = r /\ srd_host run = None /\
                      items_of (srd_p run) (w_heap w') = Ok d
      | None => run_data m p r = Error ValueError
      end.
Proof.
  intros Hi. destruct (SimulationsManager_init_index _ _ _ _ Hi) as [_ [_ [idx [Hc Hv]]]].
  exists idx. split; [exact Hc|]. split; [|split].
  - unfold projects. f_equal. eapply keys_index_view, Hv.
  - intros p runs Hg.
    assert (Hp : option_map (deref_runs (w_heap w')) (Dict.get String.eqb p (sm_p m))
                 = option_map (map (fun rd => (fst rd, Some (snd rd))))
                              (Dict.get String.eqb p idx)).
    { rewrite <- !get_map_values. unfold manager_index, index_view in Hv.
      now rewrite Hv. }
    rewrite Hg in Hp. unfold runs_for.
    destruct (Dict.get String.eqb p (sm_p m)) as [refs|]; [|discriminate].
    simpl in Hp. injection Hp as Hp. f_equal.
    apply (f_equal (map fst)) in Hp. unfold deref_runs in Hp.
    rewrite !map_map in Hp. exact Hp.
  - intros p r. pose proof (fresh_manager_run m w' idx p r Hv) as H.
    destruct (run_of idx p r) as [d|]; [|exact H].
    destruct H as [l [Hr Hn]]. eexists. split; [exact Hr|]. simpl.
    rewrite Hn. auto.
Qed.

Lemma fresh_manager_lookups_witness :
  exists idx,
    _collect_data (w_storage demo_world) None = Ok idx /\
    projects demo_manager = (Dict.keys idx, demo_manager) /\
    (forall p runs, Dict.get String.eqb p idx = Some runs ->
                    runs_for demo_manager p = (Dict.keys runs, demo_manager)) /\
    forall p r,
      match run_of idx p r with
      | Some d =>
          exists run, run_data demo_manager p r = Ok run /\
                      srd_prj run = p /\ srd_run_id run = r /\ srd_host run = None /\
                      items_of (srd_p run) (w_heap demo_world') = Ok d
      | None => run_data demo_manager p r = Error ValueError
      end.
Proof.
  apply (fresh_manager_lookups None demo_world demo_world' demo_manager).
  vm_compute. reflexivity.
Defined.

End LookupFacts.

(* ------------------------------------------------------------------ *)

Module DeleteFacts.

Import Management ResolverFacts DictFacts IndexFacts ManagerFacts KeyFacts ListingFacts LookupFacts.
Local Open Scope string_scope.

(** * Run dicts *)

Lemma In_get_Z {V} (k : Z) (v : V) (d : list (Z * V)) :
  NoDup (Dict.keys d) -> In (k, v) d -> Dict.get Z.eqb k d = Some v.
Proof.
  induction d as [|[j u] d IH]; simpl; [contradiction|].
  intros ND [E|Hin].
  - injection E as -> ->. now rewrite Z.eqb_refl.
  - inversion ND as [|? ? Hn ND']; subst.
    destruct (Z.eqb_spec j k) as [->|_].
    + exfalso. apply Hn. change k with (fst (k, v)). now apply in_map.
    + now apply IH.
Qed.

Lemma get_Z_In {V} (k : Z) (v : V) (d : list (Z * V)) :
  Dict.get Z.eqb k d = Some v -> In (k, v) d.
Proof.
  induction d as [|[j u] d IH]; simpl; [discriminate|].
  destruct (Z.eqb_spec j k) as [->|_].
  - intros H. injection H as ->. now left.
  - intros H. right. now apply IH.
Qed.

Lemma run_of_get (idx : index) (p r : string) :
  run_of idx p r = Dict.get String.eqb r (get_or_empty p idx).
Proof.
  unfold run_of, get_or_empty.
  now destruct (Dict.get String.eqb p idx).
Qed.

Lemma run_of_sorted (idx : index) (p r : string) (d : run_dict) :
  index_ordered idx -> run_of idx p r = Some d -> Sorted Z.lt (Dict.keys d).
Proof.
  intros [_ H]. unfold run_of.
  destruct (Dict.get String.eqb p idx) as [runs|] eqn:G; [|discriminate].
  intros Hr. destruct (H p runs G) as [_ Hs]. now apply (Hs r).
Qed.

(** * Listings *)

Lemma parsed_entries_Forall2 (recs : list string) (es : list entry) :
  Forall2 (fun s e => parse_key s = Ok e) recs es -> parsed_entries recs = es.
Proof.
  induction 1 as [|s e recs es H _ IH]; simpl; [reflexivity|].
  now rewrite H, IH.
Qed.

Lemma collect_loop_value (recs : list string) (idx0 idx : index) :
  collect_loop recs idx0 = Ok idx ->
  Forall parses recs /\ idx = fold_left add_record (parsed_entries recs) idx0.
Proof.
  intros H. split; [apply (collect_loop_succeeds recs idx0); eauto|].
  destruct (collect_loop_entries _ _ _ H) as [es [HF ->]].
  now rewrite (parsed_entries_Forall2 _ _ HF).
Qed.

Lemma collect_loop_total (recs : list string) (idx0 : index) :
  Forall parses recs ->
  collect_loop recs idx0 = Ok (fold_left add_record (parsed_entries recs) idx0).
Proof.
  intros H. apply (collect_loop_succeeds recs idx0) in H as [idx H].
  rewrite H. f_equal. now apply collect_loop_value.
Qed.

Lemma parsed_entries_In (recs : list string) (e : entry) :
  In e (parsed_entries recs) <-> In (entry_path e) recs /\ parse_key (entry_path e) = Ok e.
Proof.
  unfold parsed_entries. rewrite in_flat_map. split.
  - intros [s [Hs He]]. destruct (parse_key s) as [e'|] eqn:E; [|contradiction].
    destruct He as [<-|[]]. destruct e' as [[[[p r] k] sym] pth].
    pose proof (parse_key_path _ _ _ _ _ _ E) as ->. simpl. auto.
  - intros [Hs He]. exists (entry_path e). split; [exact Hs|].
    rewrite He. now left.
Qed.

Lemma parsed_entries_filter (g : string -> bool) (recs : list string) :
  parsed_entries (filter g recs)
  = filter (fun e => g (entry_path e)) (parsed_entries recs).
Proof.
  induction recs as [|s recs IH]; simpl; [reflexivity|].
  destruct (parse_key s) as [e|] eqn:E; simpl.
  - destruct e as [[[[p r] k] sym] pth].
    pose proof (parse_key_path _ _ _ _ _ _ E) as ->.
    unfold entry_path at 1. simpl.
    destruct (g s); simpl; [rewrite E; simpl|]; now rewrite IH.
  - destruct (g s); simpl; [rewrite E; simpl|]; exact IH.
Qed.

Lemma z_ls_z_del (q key : string) (st : storage) :
  z_ls q None (z_del key st)
  = filter (fun s => negb (String.eqb s key)) (z_ls q None st).
Proof.
  unfold z_ls, z_del. induction st as [|[h k] st IH]; simpl; [reflexivity|].
  destruct h as [hn|]; simpl; [exact IH|].
  destruct (String.eqb k key) eqn:E; simpl.
  - destruct (prefix q k); simpl; [rewrite E; simpl|]; exact IH.
  - destruct (prefix q k); simpl; [rewrite E; simpl; f_equal|]; exact IH.
Qed.

Lemma z_ls_z_del_host (q key hn : string) (st : storage) :
  z_ls q (Some hn) (z_del key st) = z_ls q (Some hn) st.
Proof.
  unfold z_ls, z_del. induction st as [|[h k] st IH]; simpl; [reflexivity|].
  destruct h as [h|]; simpl.
  - destruct (String.eqb h hn && prefix q k); simpl; now rewrite IH.
  - destruct (String.eqb k key); simpl; exact IH.
Qed.

Lemma z_ls_delete (q : string) (d : run_dict) (st : storage) :
  z_ls q None (fold_left (fun st kr => z_del (path (snd kr)) st) d st)
  = filter (fun s => negb (listed (paths_of d) s)) (z_ls q None st).
Proof.
  revert st. induction d as [|[k r] d IH]; intros st; simpl.
  - induction (z_ls q None st) as [|s l IHl]; simpl; [reflexivity|]. now f_equal.
  - rewrite IH, z_ls_z_del. simpl.
    induction (z_ls q None st) as [|s l IHl]; simpl; [reflexivity|].
    destruct (String.eqb s (path r)); simpl; [exact IHl|].
    destruct (listed (paths_of d) s); simpl; [exact IHl|]. now f_equal.
Qed.

Lemma z_ls_delete_host (q hn : string) (d : run_dict) (st : storage) :
  z_ls q (Some hn) (fold_left (fun st kr => z_del (path (snd kr)) st) d st)
  = z_ls q (Some hn) st.
Proof.
  revert st. induction d as [|[k r] d IH]; intros st; simpl; [reflexivity|].
  now rewrite IH, z_ls_z_del_host.
Qed.

Lemma listed_In (paths : list string) (s : string) :
  listed paths s = true <-> In s paths.
Proof.
  unfold listed. rewrite existsb_exists. split.
  - intros [x [Hin E]]. apply String.eqb_eq in E. now subst.
  - intros H. exists s. split; [exact H|apply String.eqb_refl].
Qed.

(** * Records of an index *)

Lemma last_record_filter (g : entry -> bool) (es : list entry) (p r : string) (k : Z) :
  (forall e, In e es -> g e = false -> entry_place e <> (p, r, k)) ->
  last_record (filter g es) p r k = last_record es p r k.
Proof.
  induction es as [|[[[[p' r'] k'] sym] pth] es IH]; intros H; simpl; [reflexivity|].
  assert (IH' : last_record (filter g es) p r k = last_record es p r k)
    by (apply IH; intros e He; apply H; now right).
  destruct (g (p', r', k', sym, pth)) eqn:G; simpl; rewrite IH'; [reflexivity|].
  destruct (last_record es p r k); [reflexivity|].
  specialize (H _ (or_introl eq_refl) G). unfold entry_place in H. simpl in H.
  destruct (String.eqb_spec p' p) as [->|]; simpl; [|reflexivity].
  destruct (String.eqb_spec r' r) as [->|]; simpl; [|reflexivity].
  destruct (Z.eqb_spec k' k) as [->|]; [|reflexivity].
  now contradiction H.
Qed.

Lemma last_record_NoDup (es : list entry) (p r : string) (k : Z) (sym pth : string) :
  NoDup (map entry_place es) -> In (p, r, k, sym, pth) es ->
  last_record es p r k = Some (mk_mstruct r sym pth).
Proof.
  induction es as [|[[[[p' r'] k'] sym'] pth'] es IH]; simpl; [contradiction|].
  intros ND Hin. inversion ND as [|? ? Hn ND']; subst.
  destruct Hin as [E|Hin].
  - injection E as -> -> -> -> ->.
    destruct (last_record es p r k) as [m|] eqn:L.
    + exfalso. apply Hn.
      destruct (last_record_entry es p r k m L) as [s [q [Hin _]]].
      change (entry_place (p, r, k, sym, pth)) with (entry_place (p, r, k, s, q)).
      now apply in_map.
    + now rewrite !String.eqb_refl, Z.eqb_refl.
  - now rewrite (IH ND' Hin).
Qed.

Lemma run_of_add_other (idx : index) (e : entry) (p r : string) :
  (fst (fst (entry_place e)), snd (fst (entry_place e))) <> (p, r) ->
  run_of (add_record idx e) p r = run_of idx p r.
Proof.
  destruct e as [[[[p' r'] k'] sym] pth]. unfold entry_place. simpl. intros Hne.
  rewrite !run_of_get. unfold add_record.
  destruct (String.eqb_spec p' p) as [->|Hp].
  - rewrite get_or_empty_set_same.
    rewrite (get_set_other String.eqb string_eqb_eq); [reflexivity|congruence].
  - now rewrite get_or_empty_set_other.
Qed.

Lemma run_of_fold_other (es : list entry) (idx : index) (p r : string) :
  (forall e, In e es ->
             (fst (fst (entry_place e)), snd (fst (entry_place e))) <> (p, r)) ->
  run_of (fold_left add_record es idx) p r = run_of idx p r.
Proof.
  revert idx. induction es as [|e es IH]; intros idx H; simpl; [reflexivity|].
  rewrite IH by (intros e' He'; apply H; now right).
  apply run_of_add_other, H. now left.
Qed.

Lemma collect_data_value (st : storage) (host : option string) (idx : index) :
  _collect_data st host = Ok idx ->
  Forall parses (z_ls "runs/" host st) /\
  idx = fold_left add_record (parsed_entries (z_ls "runs/" host st)) [] /\
  index_ordered idx.
Proof.
  unfold _collect_data. intros H. apply collect_loop_value in H as [HF ->].
  split; [exact HF|]. split; [reflexivity|].
  apply index_ordered_fold, index_ordered_empty.
Qed.

Lemma fresh_run_items (host : option string) (w w1 : world) (m : SimulationsManager)
      (p r : string) (run : SimulationRunData) :
  SimulationsManager_init host w = Ok (m, w1) ->
  run_data m p r = Ok run ->
  exists idx d,
    _collect_data (w_storage w) host = Ok idx /\
    w_storage w1 = w_storage w /\
    run_of idx p r = Some d /\
    items_of (srd_p run) (w_heap w1) = Ok d /\
    srd_host run = None /\
    (forall k rec, In (k, rec) d <-> lookup idx p r k = Some rec).
Proof.
  intros Hi Hr.
  destruct (SimulationsManager_init_index _ _ _ _ Hi) as [_ [Hs [idx [Hc Hv]]]].
  exists idx. pose proof (fresh_manager_run m w1 idx p r Hv) as H.
  destruct (run_of idx p r) as [d|] eqn:R; [|congruence].
  destruct H as [l [Hr' Hn]]. rewrite Hr in Hr'. injection Hr' as ->.
  exists d. repeat split; auto.
  - simpl. now rewrite Hn.
  - intros Hin. rewrite (run_of_lookup idx p r d k R).
    apply In_get_Z; [|exact Hin]. apply sorted_lt_NoDup.
    apply (run_of_sorted idx p r d); [|exact R].
    now apply (collect_data_value _ _ _ Hc).
  - rewrite (run_of_lookup idx p r d k R). apply get_Z_In.
Qed.

(** X20.  [run_data] of a manager built for a named host hands out run
    data addressed to the default host, and [z_del] addresses the default
    host too: [delete] on it succeeds, yet every artifact of the run is
    still stored for the named host, whose listing and index are what they
    were. *)
Theorem delete_misses_named_host (hn : string) (w w1 : world)
        (m : SimulationsManager) (p r : string) (run : SimulationRunData) :
  SimulationsManager_init (Some hn) w = Ok (m, w1) ->
  run_data m p r = Ok run ->
  exists d run' w2,
    items_of (srd_p run) (w_heap w1) = Ok d /\
    delete run w1 = Ok (run', w2) /\
    (forall k rec, In (k, rec) d -> In (Some hn, path rec) (w_storage w2)) /\
    z_ls "runs/" (Some hn) (w_storage w2) = z_ls "runs/" (Some hn) (w_storage w) /\
    _collect_data (w_storage w2) (Some hn) = _collect_data (w_storage w) (Some hn).
Proof.
  intros Hi Hr.
  destruct (fresh_run_items _ _ _ _ _ _ _ Hi Hr)
    as [idx [d [Hc [Hs [_ [Hd [_ Hl]]]]]]].
  exists d. eexists. eexists. split; [exact Hd|].
  split; [unfold delete; rewrite Hd; reflexivity|]. simpl.
  assert (Hz : z_ls "runs/" (Some hn)
                 (fold_left (fun st kr => z_del (path (snd kr)) st) d (w_storage w1))
               = z_ls "runs/" (Some hn) (w_storage w))
    by (rewrite z_ls_delete_host; now rewrite Hs).
  split; [|split; [exact Hz|unfold _collect_data; now rewrite Hz]].
  intros k rec Hin. apply fold_z_del_in. split.
  - rewrite Hs. apply Hl in Hin.
    now apply (lookup_record_stored _ _ _ _ _ _ _ Hc Hin).
  - intros k' r' _. discriminate.
Qed.

Lemma delete_misses_named_host_witness :
  exists d run' w2,
    items_of (srd_p demo_remote_run) (w_heap (snd demo_remote)) = Ok d /\
    delete demo_remote_run (snd demo_remote) = Ok (run', w2) /\
    (forall k rec, In (k, rec) d -> In (Some "remote", path rec) (w_storage w2)) /\
    z_ls "runs/" (Some "remote") (w_storage w2)
    = z_ls "runs/" (Some "remote") (w_storage demo_world) /\
    _collect_data (w_storage w2) (Some "remote")
    = _collect_data (w_storage demo_world) (Some "remote").
Proof.
  apply (delete_misses_named_host "remote" demo_world (snd demo_remote)
           (fst demo_remote) "prj" "run1" demo_remote_run).
  - vm_compute. reflexivity.
  - vm_compute. reflexivity.
Defined.

Lemma deleted_entry_place (st : storage) (idx : index) (p r : string) (d : run_dict)
      (e : entry) :
  _collect_data st None = Ok idx ->
  (forall k rec, In (k, rec) d <-> lookup idx p r k = Some rec) ->
  parse_key (entry_path e) = Ok e ->
  listed (paths_of d) (entry_path e) = true ->
  exists k, entry_place e = (p, r, k) /\
            In (k, mk_mstruct r (snd (fst e)) (entry_path e)) d.
Proof.
  intros Hc Hl He Hd. apply listed_In in Hd. unfold paths_of in Hd.
  apply in_map_iff in Hd as [[k rec] [Hp Hin]]. simpl in Hp.
  pose proof Hin as Hin'. apply Hl in Hin.
  destruct (lookup_record_stored _ _ _ _ _ _ _ Hc Hin) as [Hr [_ Hk]].
  rewrite Hp, He in Hk. injection Hk as ->. exists k. split; [reflexivity|].
  simpl. destruct rec as [ri sy pa]. simpl in *. now subst.
Qed.

(** X21.  On the default host, after [delete] on the data of a run the
    store can be indexed again; the records of every other run are what
    they were; a record found for the deleted run is not one it had, and is
    stored: it comes from a key that the deleted record shadowed; and when
    no two listed keys had the same project, run and sequence number, the
    run is gone from the new index. *)
Theorem delete_then_rescan (w w1 : world) (m : SimulationsManager) (p r : string)
        (run : SimulationRunData) :
  SimulationsManager_init None w = Ok (m, w1) ->
  run_data m p r = Ok run ->
  exists run' w2 idx idx2,
    delete run w1 = Ok (run', w2) /\
    _collect_data (w_storage w) None = Ok idx /\
    _collect_data (w_storage w2) None = Ok idx2 /\
    (forall p' r' k, (p', r') <> (p, r) ->
                     lookup idx2 p' r' k = lookup idx p' r' k) /\
    (forall k rec, lookup idx2 p r k = Some rec ->
                   lookup idx p r k <> Some rec /\
                   In (None, path rec) (w_storage w2)) /\
    (NoDup (map entry_place (parsed_entries (z_ls "runs/" None (w_storage w)))) ->
     run_of idx2 p r = None).
Proof.
  intros Hi Hr.
  destruct (fresh_run_items _ _ _ _ _ _ _ Hi Hr)
    as [idx [d [Hc [Hs [_ [Hd [_ Hl]]]]]]].
  destruct (collect_data_value _ _ _ Hc) as [HF [Hidx _]].
  set (st2 := fold_left (fun st kr => z_del (path (snd kr)) st) d (w_storage w1)).
  assert (Hz : z_ls "runs/" None st2
               = filter (fun s => negb (listed (paths_of d) s))
                        (z_ls "runs/" None (w_storage w)))
    by (unfold st2; rewrite z_ls_delete; now rewrite Hs).
  assert (Hc2 : _collect_data st2 None
                = Ok (fold_left add_record
                        (filter (fun e => negb (listed (paths_of d) (entry_path e)))
                                (parsed_entries (z_ls "runs/" None (w_storage w)))) [])).
  { unfold _collect_data. rewrite Hz.
    pose proof (parsed_entries_filter (fun s => negb (listed (paths_of d) s))
                  (z_ls "runs/" None (w_storage w))) as Hpf.
    cbv beta in Hpf. rewrite <- Hpf.
    apply collect_loop_total. rewrite Forall_forall in *.
    intros s Hin. apply filter_In in Hin as [Hin _]. now apply HF. }
  exists (mk_SimulationRunData (PList []) (srd_prj run) (srd_run_id run) (srd_host run)).
  exists (mk_world (w_heap w1) st2). eexists. eexists.
  split; [unfold delete; rewrite Hd; reflexivity|].
  split; [exact Hc|]. split; [exact Hc2|].
  set (es := parsed_entries (z_ls "runs/" None (w_storage w))) in *.
  split; [|split].
  - intros p' r' k Hne. rewrite Hidx, !lookup_fold_add.
    fold es. rewrite last_record_filter; [reflexivity|].
    intros e He Hg E. apply negb_false_iff in Hg.
    apply parsed_entries_In in He as [_ He].
    destruct (deleted_entry_place _ _ _ _ _ _ Hc Hl He Hg) as [k' [Hp _]].
    apply Hne. congruence.
  - intros k rec Hl2.
    destruct (lookup_record_stored _ _ _ _ _ _ _ Hc2 Hl2) as [_ [Hin _]].
    split; [|exact Hin]. intros Hl1. apply Hl in Hl1.
    apply fold_z_del_in in Hin as [_ Hin]. now apply (Hin k rec Hl1).
  - intros ND. rewrite run_of_fold_other; [reflexivity|].
    intros e He E. apply filter_In in He as [He Hg].
    apply negb_true_iff in Hg.
    destruct e as [[[[p' r'] k'] sym] pth]. unfold entry_place in E. simpl in E.
    injection E as -> ->.
    pose proof (last_record_NoDup es p r k' sym pth ND He) as L.
    assert (Hl1 : lookup idx p r k' = Some (mk_mstruct r sym pth))
      by (rewrite Hidx, lookup_fold_add; fold es; now rewrite L).
    apply Hl in Hl1.
    assert (Hin : In pth (paths_of d))
      by (unfold paths_of; apply in_map_iff;
          exists (k', mk_mstruct r sym pth); auto).
    apply listed_In in Hin. unfold entry_path in Hg. simpl in Hg. congruence.
Qed.

Lemma delete_then_rescan_witness :
  exists run' w2 idx idx2,
    delete demo_run demo_world' = Ok (run', w2) /\
    _collect_data (w_storage demo_world) None = Ok idx /\
    _collect_data (w_storage w2) None = Ok idx2 /\
    (forall p' r' k, (p', r') <> ("prj", "run1") ->
                     lookup idx2 p' r' k = lookup idx p' r' k) /\
    (forall k rec, lookup idx2 "prj" "run1" k = Some rec ->
                   lookup idx "prj" "run1" k <> Some rec /\
                   In (None, path rec) (w_storage w2)) /\
    (NoDup (map entry_place
                (parsed_entries (z_ls "runs/" None (w_storage demo_world)))) ->
     run_of idx2 "prj" "run1" = None).
Proof.
  apply (delete_then_rescan demo_world demo_world' demo_manager "prj" "run1" demo_run).
  - vm_compute. reflexivity.
  - vm_compute. reflexivity.
Defined.

(** X22.  [delete] leaves a list where the run data had its records, so
    that a second [delete], [results] and [calc_performance] on the same
    object raise [AttributeError]; project and run id are kept. *)
Theorem deleted_run_is_unusable (summary : nat -> result nat)
        (run run' : SimulationRunData) (w w' w'' : world)
        (force : bool) (arts : artifacts) :
  delete run w = Ok (run', w') ->
  delete run' w'' = Error AttributeError /\
  results run' (w_heap w'') arts = Error AttributeError /\
  calc_performance summary run' force (w_heap w'') arts = Error AttributeError /\
  srd_prj run' = srd_prj run /\ srd_run_id run' = srd_run_id run.
Proof.
  unfold delete. destruct (items_of (srd_p run) (w_heap w)); simpl; [|discriminate].
  intros H. injection H as <- _. auto.
Qed.

Lemma deleted_run_is_unusable_witness :
  delete (fst demo_deleted) demo_world' = Error AttributeError /\
  results (fst demo_deleted) (w_heap demo_world') demo_artifacts
  = Error AttributeError /\
  calc_performance demo_summary (fst demo_deleted) true (w_heap demo_world')
                   demo_artifacts = Error AttributeError /\
  srd_prj (fst demo_deleted) = srd_prj demo_run /\
  srd_run_id (fst demo_deleted) = srd_run_id demo_run.
Proof.
  apply (deleted_run_is_unusable demo_summary demo_run (fst demo_deleted)
           demo_world' (snd demo_deleted) demo_world' true demo_artifacts).
  vm_compute. reflexivity.
Defined.

End DeleteFacts.

(* ------------------------------------------------------------------ *)

Module PerformanceFacts.

Import Management ResolverFacts DictFacts IndexFacts ManagerFacts KeyFacts ListingFacts LookupFacts DeleteFacts.
Local Open Scope string_scope.

(** * Performance summaries *)

Lemma host_eqb_eq (a b : option string) : host_eqb a b = true <-> a = b.
Proof.
  destruct a as [x|], b as [y|]; simpl; try (split; [discriminate|discriminate]).
  - rewrite String.eqb_eq. split; congruence.
  - tauto.
Qed.

Lemma place_eqb_eq (a b : option string * string) : place_eqb a b = true <-> a = b.
Proof.
  destruct a as [h k], b as [h' k']. unfold place_eqb. simpl.
  rewrite andb_true_iff, host_eqb_eq, String.eqb_eq. split.
  - intros [-> ->]. reflexivity.
  - intros E. injection E as -> ->. auto.
Qed.

Lemma z_load_save_same (key : string) (a : artifact) (host : option string)
      (arts : artifacts) :
  z_load key host (z_save key a host arts) = Some a.
Proof. apply (get_set_same place_eqb place_eqb_eq). Qed.

Lemma z_load_save_other (key key' : string) (a : artifact) (host host' : option string)
      (arts : artifacts) :
  (host, key) <> (host', key') ->
  z_load key' host' (z_save key a host arts) = z_load key' host' arts.
Proof. apply (get_set_other place_eqb place_eqb_eq). Qed.

Section Summaries.

Variable summary : nat -> result nat.

(** What one pass does to the artifact of a place: nothing, or it adds the
    summary to the artifact of the pass's own record. *)
Lemma calc_step_load (host : option string) (force : bool) (arts : artifacts)
      (kr : Z * mstruct) (host' : option string) (key' : string) :
  z_load key' host' (calc_step summary host force arts kr) = z_load key' host' arts
  \/ exists sd prf,
       (host', key') = (host, path (snd kr)) /\
       z_load key' host' arts = Some sd /\
       (force = true \/ art_performance sd = None) /\
       summary (art_result sd) = Ok prf /\
       z_load key' host' (calc_step summary host force arts kr)
       = Some (mk_artifact (art_result sd) (Some prf)).
Proof.
  unfold calc_step.
  destruct (z_load (path (snd kr)) host arts) as [sd|] eqn:L; [|now left].
  destruct (force || match art_performance sd with None => true | Some _ => false end)
    eqn:C; [|now left].
  destruct (summary (art_result sd)) as [prf|] eqn:S; [|now left].
  destruct (place_eqb (host, path (snd kr)) (host', key')) eqn:E.
  - apply place_eqb_eq in E. injection E as <- <-.
    right. exists sd, prf. rewrite z_load_save_same. repeat split; auto.
    destruct force; [now left|right]. simpl in C.
    now destruct (art_performance sd).
  - left. apply z_load_save_other. intros E'. apply place_eqb_eq in E'. congruence.
Qed.

Lemma calc_step_settled (host : option string) (force : bool) (arts : artifacts)
      (kr : Z * mstruct) (key : string) :
  settled summary host arts key ->
  settled summary host (calc_step summary host force arts kr) key.
Proof.
  unfold settled. intros H.
  destruct (calc_step_load host force arts kr host key)
    as [->|[sd [prf [_ [_ [_ [_ ->]]]]]]]; [exact H|].
  left. discriminate.
Qed.

Lemma calc_step_settles (host : option string) (force : bool) (arts : artifacts)
      (kr : Z * mstruct) :
  settled summary host (calc_step summary host force arts kr) (path (snd kr)).
Proof.
  unfold settled, calc_step.
  destruct (z_load (path (snd kr)) host arts) as [sd|] eqn:L; [|now rewrite L].
  destruct (art_performance sd) as [x|] eqn:P.
  - destruct force; simpl; [|rewrite L; left; congruence].
    destruct (summary (art_result sd)) as [prf|];
      [rewrite z_load_save_same|rewrite L]; left; simpl; congruence.
  - rewrite orb_true_r.
    destruct (summary (art_result sd)) as [prf|] eqn:S.
    + rewrite z_load_save_same. left. discriminate.
    + rewrite L. right. eauto.
Qed.

Lemma calc_step_idle (host : option string) (arts : artifacts) (kr : Z * mstruct) :
  settled summary host arts (path (snd kr)) ->
  calc_step summary host false arts kr = arts.
Proof.
  unfold settled, calc_step.
  destruct (z_load (path (snd kr)) host arts) as [sd|]; [|reflexivity].
  simpl. destruct (art_performance sd) as [x|]; [reflexivity|].
  intros [H|[e H]]; [congruence|now rewrite H].
Qed.

Lemma fold_calc_settled (host : option string) (force : bool) (items : run_dict)
      (arts : artifacts) (key : string) :
  settled summary host arts key ->
  settled summary host (fold_left (calc_step summary host force) items arts) key.
Proof.
  revert arts. induction items as [|kr items IH]; intros arts H; simpl; [exact H|].
  apply IH. now apply calc_step_settled.
Qed.

Lemma fold_calc_settles (host : option string) (force : bool) (items : run_dict)
      (arts : artifacts) (kr : Z * mstruct) :
  In kr items ->
  settled summary host (fold_left (calc_step summary host force) items arts)
          (path (snd kr)).
Proof.
  revert arts. induction items as [|kr0 items IH]; intros arts Hin; [contradiction|].
  simpl. destruct Hin as [->|Hin]; [|now apply IH].
  apply fold_calc_settled, calc_step_settles.
Qed.

Lemma fold_calc_idle (host : option string) (items : run_dict) (arts : artifacts) :
  (forall kr, In kr items -> settled summary host arts (path (snd kr))) ->
  fold_left (calc_step summary host false) items arts = arts.
Proof.
  induction items as [|kr items IH]; intros H; simpl; [reflexivity|].
  rewrite calc_step_idle by (apply H; now left).
  apply IH. intros kr' Hin. apply H. now right.
Qed.

Lemma fold_calc_load (host : option string) (force : bool) (items : run_dict)
      (arts : artifacts) (host' : option string) (key' : string) :
  option_map art_result
    (z_load key' host' (fold_left (calc_step summary host force) items arts))
  = option_map art_result (z_load key' host' arts) /\
  ((host' <> host \/ ~ In key' (paths_of items)) ->
   z_load key' host' (fold_left (calc_step summary host force) items arts)
   = z_load key' host' arts) /\
  (force = false ->
   forall sd, z_load key' host' arts = Some sd -> art_performance sd <> None ->
   z_load key' host' (fold_left (calc_step summary host force) items arts) = Some sd).
Proof.
  revert arts. induction items as [|kr items IH]; intros arts; simpl.
  - repeat split; auto.
  - destruct (IH (calc_step summary host force arts kr)) as [IH1 [IH2 IH3]].
    destruct (calc_step_load host force arts kr host' key')
      as [E|[sd [prf [Hp [Hl [Hf [Hs E]]]]]]].
    + rewrite E in *. split; [exact IH1|]. split; [|exact IH3].
      intros H. apply IH2. destruct H as [H|H]; [now left|right].
      intros Hin. apply H. now right.
    + split; [|split].
      * rewrite IH1, E, Hl. reflexivity.
      * intros [H|H]; exfalso; injection Hp as Hh Hk; [now apply H|].
        apply H. left. now symmetry.
      * intros Hforce sd' Hl' Hperf. exfalso.
        rewrite Hl in Hl'. injection Hl' as <-.
        destruct Hf as [Hf|Hf]; congruence.
Qed.

Lemma loaded_results_ext (host : option string) (arts arts' : artifacts)
      (items : run_dict) :
  (forall key, option_map art_result (z_load key host arts')
               = option_map art_result (z_load key host arts)) ->
  loaded_results host arts' items = loaded_results host arts items.
Proof.
  intros H. induction items as [|[k r] items IH]; simpl; [reflexivity|].
  specialize (H (path r)).
  destruct (z_load (path r) host arts') as [sd'|],
           (z_load (path r) host arts) as [sd|]; simpl in H; try discriminate.
  - injection H as ->. now rewrite IH.
  - exact IH.
Qed.

(** X23.  After [calc_performance], forced or not, the stored artifact of
    every record of the run carries a summary, unless it is missing or its
    summary cannot be computed; and a second, unforced call changes
    nothing. *)
Theorem calc_performance_settles (self : SimulationRunData) (force : bool)
        (h : heap) (arts arts' : artifacts) (items : run_dict) :
  items_of (srd_p self) h = Ok items ->
  calc_performance summary self force h arts = Ok arts' ->
  (forall k rec, In (k, rec) items ->
                 settled summary (srd_host self) arts' (path rec)) /\
  calc_performance summary self false h arts' = Ok arts'.
Proof.
  unfold calc_performance. intros Hi. rewrite Hi. simpl.
  intros H. injection H as <-.
  assert (Hs : forall kr, In kr items ->
                 settled summary (srd_host self)
                   (fold_left (calc_step summary (srd_host self) force) items arts)
                   (path (snd kr)))
    by (intros kr Hin; now apply fold_calc_settles).
  split; [intros k rec Hin; apply (Hs (k, rec) Hin)|].
  f_equal. now apply fold_calc_idle.
Qed.

(** X24.  [calc_performance] creates and removes no artifact and changes
    no result object; artifacts of other hosts or under other keys than the
    paths of the run's records are untouched; unforced, it leaves every
    artifact that has a summary as it is; and what [results] returns is
    the same before and after. *)
Theorem calc_performance_frame (self : SimulationRunData) (force : bool)
        (h : heap) (arts arts' : artifacts) (items : run_dict) :
  items_of (srd_p self) h = Ok items ->
  calc_performance summary self force h arts = Ok arts' ->
  (forall host key, option_map art_result (z_load key host arts')
                    = option_map art_result (z_load key host arts)) /\
  (forall host key, host <> srd_host self \/ ~ In key (paths_of items) ->
                    z_load key host arts' = z_load key host arts) /\
  (force = false ->
   forall host key sd, z_load key host arts = Some sd -> art_performance sd <> None ->
                       z_load key host arts' = Some sd) /\
  results self h arts' = results self h arts.
Proof.
  unfold calc_performance, results. intros Hi. rewrite Hi. simpl.
  intros H. injection H as <-.
  split; [|split; [|split]].
  - intros host key. apply fold_calc_load.
  - intros host key. apply fold_calc_load.
  - intros Hf host key. now apply fold_calc_load.
  - f_equal. f_equal. apply loaded_results_ext. intros key. apply fold_calc_load.
Qed.

End Summaries.


Lemma calc_performance_settles_witness :
  (forall k rec, In (k, rec) demo_items ->
                 settled demo_summary (srd_host demo_run) demo_summarised (path rec)) /\
  calc_performance demo_summary demo_run false (w_heap demo_world') demo_summarised
  = Ok demo_summarised.
Proof.
  apply (calc_performance_settles demo_summary demo_run false (w_heap demo_world')
           demo_artifacts demo_summarised demo_items).
  - vm_compute. reflexivity.
  - vm_compute. reflexivity.
Defined.

Lemma calc_performance_frame_witness :
  (forall host key, option_map art_result (z_load key host demo_summarised)
                    = option_map art_result (z_load key host demo_artifacts)) /\
  (forall host key, host <> srd_host demo_run \/ ~ In key (paths_of demo_items) ->
                    z_load key host demo_summarised = z_load key host demo_artifacts) /\
  (false = false ->
   forall host key sd, z_load key host demo_artifacts = Some sd ->
                       art_performance sd <> None ->
                       z_load key host demo_summarised = Some sd) /\
  results demo_run (w_heap demo_world') demo_summarised
  = results demo_run (w_heap demo_world') demo_artifacts.
Proof.
  apply (calc_performance_frame demo_summary demo_run false (w_heap demo_world')
           demo_artifacts demo_summarised demo_items).
  - vm_compute. reflexivity.
  - vm_compute. reflexivity.
Defined.

End PerformanceFacts.
